(** * markdown-exec: nested rendering and heading integration

    A shallow embedding of [src/markdown_exec/rendering.py],
    [src/markdown_exec/extension.py] and
    [src/markdown_exec/formatters/console.py], and the properties of the
    specification checked against it.

    Conventions.
    - A Python [str] is a Rocq [string]: one [ascii] per character, which
      covers the code points below 256.
    - A Python exception is a constructor of [Exn]; a call that may raise
      returns a [Res].
    - Objects that the code mutates and shares (element trees, the heading
      lists) live in explicit stores and are named by their index. *)

From Stdlib Require Import Ascii String.
From stdpp Require Import base option list sorting strings pretty gmap.

Local Open Scope stdpp_scope.

(** ** Python strings *)

Module PyStr.

Definition LF : ascii := ascii_of_nat 10.
Definition CR : ascii := ascii_of_nat 13.
Definition nl : string := String LF EmptyString.
(** The double quote character, as a one-character string. *)
Definition dq : string := String (ascii_of_nat 34) EmptyString.

Definition code (c : ascii) : N := N_of_ascii c.

(** [str.isspace] on one character (code points below 256). *)
Definition isspace (c : ascii) : bool :=
  let n := code c in
  ((9 <=? n) && (n <=? 13) || (28 <=? n) && (n <=? 31)
   || (n =? 32) || (n =? 133) || (n =? 160))%N.

Fixpoint lstrip (s : string) : string :=
  match s with
  | EmptyString => EmptyString
  | String c s' => if isspace c then lstrip s' else s
  end.

Fixpoint rstrip (s : string) : string :=
  match s with
  | EmptyString => EmptyString
  | String c s' =>
      match rstrip s' with
      | EmptyString => if isspace c then EmptyString else String c EmptyString
      | r => String c r
      end
  end.

(** [s.strip()] *)
Definition strip (s : string) : string := rstrip (lstrip s).

(** [s.startswith(p)] *)
Fixpoint startswith (p s : string) : bool :=
  match p, s with
  | EmptyString, _ => true
  | String a p', String b s' => if bool_decide (a = b) then startswith p' s' else false
  | String _ _, EmptyString => false
  end.

(** [sub in s] *)
Fixpoint contains (sub s : string) : bool :=
  startswith sub s ||
  match s with
  | EmptyString => false
  | String _ s' => contains sub s'
  end.

(** [s.split(sep)] for a separator of one character. *)
Fixpoint split (sep : ascii) (s : string) : list string :=
  match s with
  | EmptyString => [EmptyString]
  | String c s' =>
      if bool_decide (c = sep) then EmptyString :: split sep s'
      else match split sep s' with
           | [] => [String c EmptyString]
           | l :: ls => String c l :: ls
           end
  end.

(** [sep.join(parts)] *)
Fixpoint join (sep : string) (parts : list string) : string :=
  match parts with
  | [] => EmptyString
  | [p] => p
  | p :: ps => p +:+ sep +:+ join sep ps
  end.

(** [s.replace(old, new)] for a non-empty [old]: scan left to right; at an
    occurrence of [old] emit [new] and skip the rest of the occurrence.
    [skip] counts the characters of the current occurrence still to pass. *)
Fixpoint replace_scan (old new : string) (skip : nat) (s : string) : string :=
  match s with
  | EmptyString => EmptyString
  | String c s' =>
      match skip with
      | S k => replace_scan old new k s'
      | O =>
          if startswith old s
          then new +:+ replace_scan old new (String.length old - 1) s'
          else String c (replace_scan old new 0 s')
      end
  end.

(** [s.replace("", new)]: [new] before every character and at the end. *)
Fixpoint replace_empty (new s : string) : string :=
  match s with
  | EmptyString => new
  | String c s' => new +:+ String c (replace_empty new s')
  end.

(** [s.replace(old, new)] *)
Definition replace (s old new : string) : string :=
  match old with
  | EmptyString => replace_empty new s
  | _ => replace_scan old new 0 s
  end.

(** Line boundaries of [str.splitlines] (code points below 256). *)
Definition is_linebreak (c : ascii) : bool :=
  let n := code c in
  ((10 <=? n) && (n <=? 13) || (28 <=? n) && (n <=? 30) || (n =? 133))%N.

(** [s.splitlines(True)]: the lines with their line ends; a carriage
    return followed by a line feed is one line end. *)
Fixpoint splitlines_keepends (s : string) : list string :=
  match s with
  | EmptyString => []
  | String c s' =>
      if is_linebreak c then
        match s' with
        | String c' s'' =>
            if bool_decide (c = CR) && bool_decide (c' = LF)
            then String c (String c' EmptyString) :: splitlines_keepends s''
            else String c EmptyString :: splitlines_keepends s'
        | EmptyString => [String c EmptyString]
        end
      else match splitlines_keepends s' with
           | l :: ls => String c l :: ls
           | [] => [String c EmptyString]
           end
  end.

(** [textwrap.indent(text, prefix)]: the prefix goes before every line
    that does not consist solely of whitespace. *)
Definition indent_line (prefix line : string) : string :=
  match strip line with
  | EmptyString => line
  | _ => prefix +:+ line
  end.

Definition indent (text prefix : string) : string :=
  join EmptyString (map (indent_line prefix) (splitlines_keepends text)).

End PyStr.

Import PyStr.

(** ** Exceptions and results *)

Inductive Exn : Type :=
| ValueError (msg : string)
| KeyError (key : string)
| TypeError
| AttributeError (name : string)
| Exception (what : string).

Inductive Res (A : Type) : Type :=
| Ok (a : A)
| Raise (e : Exn).
Arguments Ok {A} a.
Arguments Raise {A} e.

(** ** rendering.py: assembling the source and the output *)

(** Keyword options passed as [**options] or [**extra]: the names and
    values of a dictionary, in its order. *)
Definition Options : Type := list (string * string).

(** The call passes a keyword under the name of a parameter that is
    already bound: Python raises [TypeError] (got multiple values for the
    argument) before the body runs. *)
Definition clashes (parameters : list string) (options : Options) : Prop :=
  Exists (fun o => o.1 ∈ parameters) options.

#[global] Instance clashes_dec parameters options : Decision (clashes parameters options).
Proof. unfold clashes. apply _. Defined.

(** The body of [code_block]. *)
Definition code_block_text (language code : string) (options : Options) : string :=
  let opts :=
    join " " (map (fun '(opt_name, opt_value) =>
                     opt_name +:+ "=" +:+ dq +:+ opt_value +:+ dq) options) in
  "````````" +:+ language +:+ " " +:+ opts +:+ nl +:+ code +:+ nl +:+ "````````".

(** The call [code_block(language, code, **options)]. *)
Definition code_block (language code : string) (options : Options) : Res string :=
  if decide (clashes ["language"; "code"] options) then Raise TypeError
  else Ok (code_block_text language code options).

Definition tabbed (tabs : list (string * string)) : string :=
  let parts :=
    flat_map (fun '(title, text) =>
                let title := strip (replace title "\|" "|") in
                [ "=== " +:+ dq +:+ title +:+ dq;
                  indent text "    ";
                  EmptyString ]) tabs in
  join nl parts.

Definition hide_marker : string := "markdown-exec: hide".

Definition _hide_lines (source : string) : string :=
  strip (join nl (filter (fun line => contains hide_marker line = false)
                         (split LF source))).

(** The call [add_source(source=..., location=..., output=...,
    language=..., tabs=..., **extra)]. *)
Definition add_source (source location output language : string)
    (tabs : string * string) (extra : Options) : Res string :=
  if decide (clashes ["source"; "location"; "output"; "language"; "tabs"] extra)
  then Raise TypeError else
  let source := _hide_lines source in
  if decide (location = "console") then
    code_block language (source +:+ nl +:+ output) extra
  else
  match code_block language source extra with
  | Raise e => Raise e
  | Ok source_block =>
  if decide (location = "above") then
    Ok (source_block +:+ nl +:+ nl +:+ output)
  else if decide (location = "below") then
    Ok (output +:+ nl +:+ nl +:+ source_block)
  else if decide (location = "material-block") then
    let style := "style=" +:+ dq +:+ "margin-top: 0;" +:+ dq in
    Ok (source_block +:+ nl +:+ nl +:+ "<div class=" +:+ dq +:+ "result" +:+ dq
        +:+ " " +:+ style +:+ " markdown=" +:+ dq +:+ "1" +:+ dq +:+ " >"
        +:+ nl +:+ nl +:+ output +:+ nl +:+ nl +:+ "</div>")
  else
  let '(source_tab_title, result_tab_title) := tabs in
  if decide (location = "tabbed-left") then
    Ok (tabbed [(source_tab_title, source_block); (result_tab_title, output)])
  else if decide (location = "tabbed-right") then
    Ok (tabbed [(result_tab_title, output); (source_tab_title, source_block)])
  else
    Raise (ValueError ("unsupported location for sources: " +:+ location))
  end.

(** ** rendering.py: the nested converter *)

(** [markupsafe.escape]. *)
Fixpoint escape (s : string) : string :=
  match s with
  | EmptyString => EmptyString
  | String c s' =>
      (if bool_decide (c = "&"%char) then "&amp;"
       else if bool_decide (c = "<"%char) then "&lt;"
       else if bool_decide (c = ">"%char) then "&gt;"
       else if bool_decide (c = "'"%char) then "&#39;"
       else if bool_decide (c = ascii_of_nat 34) then "&#34;"
       else String c EmptyString) +:+ escape s'
  end.

(** The markupsafe that is installed; the source pins no version.
    [Markup.replace] of markupsafe 2 escapes all its string arguments, the
    text it looks for as well as the replacement; the one of markupsafe 3
    escapes the replacement only. *)
Class Markupsafe : Set := { escapes_searched : bool }.

Definition markupsafe_2 : Markupsafe := {| escapes_searched := true |}.
Definition markupsafe_3 : Markupsafe := {| escapes_searched := false |}.
(** An example that names no version is run on markupsafe 3. *)
#[global] Existing Instance markupsafe_3 | 100.

(** The text that [Markup.replace(old, new)] looks for. *)
Definition searched `{Markupsafe} (old : string) : string :=
  if escapes_searched then escape old else old.

(** [Markup.replace] *)
Definition Markup_replace `{Markupsafe} (s old new : string) : string :=
  replace s (searched old) (escape new).

(** The loop that restores the stash; [items] is [stash.items()], in
    insertion order. [md.convert] returns a plain [str]; every iteration
    rebinds [converted] to a [Markup], so [is_markup] holds from the second
    iteration on. *)
Fixpoint restore_stash `{Markupsafe} (converted : string) (is_markup : bool)
    (items : list (string * string)) : string :=
  match items with
  | [] => converted
  | (placeholder, stashed) :: rest =>
      let converted :=
        if is_markup then Markup_replace converted placeholder stashed
        else replace converted placeholder stashed in
      restore_stash converted true rest
  end.

(** A reference to an [Element] object. *)
Abbreviation loc := nat.
(** A reference to a Python list of elements (a heading accumulator). *)
Abbreviation lref := nat.

(** A shadow renderer as [_mimic] builds it: a [Markdown] instance with the
    two tree processors of this module. Of their state the converter sees
    [_IdPrependingTreeprocessor.id_prefix] and the list object that is
    [_HeadingReportingTreeprocessor.headings], here [harvest_list]. *)
Record Renderer : Type := mkRenderer {
  id_prefix : string;
  harvest_list : lref;
}.

(** The state of the singleton [_MarkdownConverter] together with what it
    shares with other objects, for one host [_md_ref] ([setup] has run).
    - [_md_stack] only ever grows, so a renderer object is named by its
      position in it.
    - [lists] is the store of list objects; [_headings], the renderers and
      the table hold references into it.
    - [table] is [_md_ref.treeprocessors[InsertHeadings.name].headings].
    - [assigned] is a history variable, absent from the source and read by
      no function here: the id prefixes handed out so far, oldest first. *)
Record Converter : Type := mkConverter {
  _md_stack : list Renderer;
  _counter : nat;
  _level : nat;
  _headings : lref;
  lists : list (list loc);
  table : gmap string lref;
  assigned : list string;
}.

Definition set_md_stack (v : list Renderer) (c : Converter) : Converter :=
  mkConverter v (_counter c) (_level c) (_headings c) (lists c) (table c) (assigned c).
Definition set_counter (v : nat) (c : Converter) : Converter :=
  mkConverter (_md_stack c) v (_level c) (_headings c) (lists c) (table c) (assigned c).
Definition set_level (v : nat) (c : Converter) : Converter :=
  mkConverter (_md_stack c) (_counter c) v (_headings c) (lists c) (table c) (assigned c).
Definition set_headings (v : lref) (c : Converter) : Converter :=
  mkConverter (_md_stack c) (_counter c) (_level c) v (lists c) (table c) (assigned c).
Definition set_lists (v : list (list loc)) (c : Converter) : Converter :=
  mkConverter (_md_stack c) (_counter c) (_level c) (_headings c) v (table c) (assigned c).
Definition set_table (v : gmap string lref) (c : Converter) : Converter :=
  mkConverter (_md_stack c) (_counter c) (_level c) (_headings c) (lists c) v (assigned c).
Definition set_assigned (v : list string) (c : Converter) : Converter :=
  mkConverter (_md_stack c) (_counter c) (_level c) (_headings c) (lists c) (table c) v.

(** [_MarkdownConverter.__init__], with the empty table of a host whose
    [InsertHeadings] was just created. *)
Definition init : Converter :=
  mkConverter [] 0 0 0 [[]] ∅ [].

Definition _mimic (headings : lref) : Renderer :=
  mkRenderer EmptyString headings.

(** The property [_md]: the renderer at the current level; on [IndexError]
    one more renderer is appended and the lookup is tried again. [n] bounds
    the number of appends. *)
Fixpoint _md_fill (n : nat) (c : Converter) : Converter :=
  match _md_stack c !! _level c with
  | Some _ => c
  | None =>
      match n with
      | O => c
      | S n' => _md_fill n' (set_md_stack (_md_stack c ++ [_mimic (_headings c)]) c)
      end
  end.

Definition _md (c : Converter) : Converter * nat :=
  (_md_fill (S (_level c)) c, _level c).

(** [md.treeprocessors[_IdPrependingTreeprocessor.name].id_prefix = v] *)
Definition set_id_prefix (md : nat) (v : string) (c : Converter) : Converter :=
  set_md_stack
    (alter (fun r => mkRenderer v (harvest_list r)) md (_md_stack c)) c.

(** The property [headings]: hands out the current list and rebinds
    [_headings] to a new empty list. *)
Definition headings (c : Converter) : lref * Converter :=
  let headings := _headings c in
  (headings, set_headings (length (lists c)) (set_lists (lists c ++ [[]]) c)).

(** [self.headings.append(el)] of the harvesting processor, for each
    element found. *)
Definition harvest (l : lref) (found : list loc) (c : Converter) : Converter :=
  set_lists (alter (fun hs => hs ++ found) l (lists c)) c.

Definition token (counter : nat) : string :=
  "exec-" +:+ pretty counter +:+ "--".

(** What [md.convert(text)] of a shadow renderer does with one text, as far
    as the converter can tell. The Markdown library is not part of the
    repository, so a run is given as data.
    - [Raises e]: the conversion raises [e].
    - [Returns result]: the conversion completes; with the id prefix [p] in
      force, [result p] is the HTML it returns and the headings its
      harvesting processor finds, in document order.
    - [Executes sub stash k]: the text holds an executed block whose
      formatter calls [markdown.convert] on a fragment that the library
      treats as [sub]; the conversion then goes on as [k] of the outcome. *)
Inductive MdRun : Type :=
| Raises (e : Exn)
| Returns (result : string -> string * list loc)
| Executes (sub : MdRun) (stash : list (string * string)) (k : Res string -> MdRun).

(** The first statements of [convert], up to the [try]. *)
Definition convert_enter (c : Converter) : Converter * nat :=
  let '(c, md) := _md c in
  let c := set_level (S (_level c)) c in
  let c := set_id_prefix md (token (_counter c)) c in
  let c := set_assigned (assigned c ++ [token (_counter c)]) c in
  let c := set_counter (S (_counter c)) c in
  (c, md).

(** The [finally] clause. *)
Definition convert_finally (md : nat) (c : Converter) : Converter :=
  let c := set_level (_level c - 1) c in
  set_id_prefix md EmptyString c.

(** The statements after the [try]. *)
Definition convert_record `{Markupsafe} (converted : string)
    (stash : list (string * string)) (c : Converter) : Converter * string :=
  let converted := restore_stash converted false stash in
  let '(hs, c) := headings c in
  (set_table (<[converted := hs]> (table c)) c, converted).

(** [convert], over the conversion [md_convert] of the renderer [md]. *)
Definition convert_with `{Markupsafe}
    (md_convert : nat -> Converter -> Converter * Res string)
    (stash : list (string * string)) (c : Converter) : Converter * Res string :=
  let '(c, md) := convert_enter c in
  let '(c, r) := md_convert md c in
  let c := convert_finally md c in
  match r with
  | Raise e => (c, Raise e)
  | Ok converted =>
      let '(c, converted) := convert_record converted stash c in
      (c, Ok converted)
  end.

(** [md.convert(text)] run by the renderer [md]; [md] is a position of the
    stack, so the lookup of the renderer always succeeds. *)
Fixpoint md_convert `{Markupsafe} (run : MdRun) (md : nat) (c : Converter)
    : Converter * Res string :=
  match run with
  | Raises e => (c, Raise e)
  | Returns result =>
      match _md_stack c !! md with
      | Some r =>
          let '(html, found) := result (id_prefix r) in
          (harvest (harvest_list r) found c, Ok html)
      | None => (c, Raise (Exception "no such renderer"))
      end
  | Executes sub stash k =>
      let '(c, r) := convert_with (md_convert sub) stash c in
      md_convert (k r) md c
  end.

(** [_MarkdownConverter.convert(text, stash)], where [run] is what the
    Markdown library does with [text]. *)
Definition convert `{Markupsafe} (run : MdRun) (stash : list (string * string))
    (c : Converter) : Converter * Res string :=
  convert_with (md_convert run) stash c.

(** The headings recorded for the output [h]: the content of the list the
    table refers to. *)
Definition recorded (c : Converter) (h : string) : option (list loc) :=
  table c !! h ≫= fun l => lists c !! l.

(** ** Element trees

    [xml.etree.ElementTree.Element] objects are mutable and shared by
    reference; the store holds one record per object, and a new object is
    allocated at the end of the store. *)

Record Element : Type := mkElement {
  tag : string;
  attrib : gmap string string;
  text : option string;
  tail : option string;
  children : list loc;
}.

Abbreviation Heap := (list Element).

Definition set_children (v : list loc) (e : Element) : Element :=
  mkElement (tag e) (attrib e) (text e) (tail e) v.
Definition set_text (v : option string) (e : Element) : Element :=
  mkElement (tag e) (attrib e) v (tail e) (children e).
Definition set_tail (v : option string) (e : Element) : Element :=
  mkElement (tag e) (attrib e) (text e) v (children e).

(** The outcome of a transform: a result, an exception, or no result in
    this model (the fuel ran out, or a reference is not in the store). *)
Inductive Out (A : Type) : Type :=
| Done (a : A)
| Raised (e : Exn)
| Stuck.
Arguments Done {A} a.
Arguments Raised {A} e.
Arguments Stuck {A}.

Definition out_bind {A B : Type} (o : Out A) (f : A -> Out B) : Out B :=
  match o with
  | Done a => f a
  | Raised e => Raised e
  | Stuck => Stuck
  end.

(** [for el in root.iter(): body], in document order. [Element.iter] yields
    the element, then walks its list of children by position and descends
    into each; it reads the list as it is at that moment, so children
    appended by the body are visited too. *)
Section Iter.
Context {St : Type} (heap_of : St -> Heap) (body : loc -> St -> Out St).

Fixpoint iter (fuel : nat) (el : loc) (s : St) {struct fuel} : Out St :=
  match fuel with
  | O => Stuck
  | S fuel => out_bind (body el s) (iter_children fuel el 0)
  end
with iter_children (fuel : nat) (el : loc) (i : nat) (s : St) {struct fuel} : Out St :=
  match fuel with
  | O => Stuck
  | S fuel =>
      match heap_of s !! el with
      | None => Stuck
      | Some e =>
          match children e !! i with
          | None => Done s
          | Some child =>
              out_bind (iter fuel child s) (iter_children fuel el (S i))
          end
      end
  end.
End Iter.

(** ** rendering.py: the heading harvesting tree processor *)

Module HeadingReporting.

Definition name : string := "mkdocstrings_headings_list".

(** [regex.fullmatch(el.tag)] for the pattern [[Hh][1-6]]. *)
Definition is_heading_tag (t : string) : bool :=
  match t with
  | String a (String b EmptyString) =>
      (bool_decide (a = "H"%char) || bool_decide (a = "h"%char))
      && (49 <=? code b)%N && (code b <=? 54)%N
  | _ => false
  end.

Section Run.
(** [self.md.treeprocessors["toc"].permalink_class], where [self.md] is
    the host renderer handed to [_mimic]. *)
Variable permalink_class : string.

(** The loop body; the state is the store and [self.headings]. *)
Definition visit (el : loc) (s : Heap * list loc) : Out (Heap * list loc) :=
  let '(h, headings) := s in
  match h !! el with
  | None => Stuck
  | Some e =>
      if is_heading_tag (tag e) then
        (* el = copy.copy(el): a new object with the same fields *)
        let el' := length h in
        let h := h ++ [e] in
        match last (children e) with
        | None => Done (h, headings ++ [el'])
        | Some c =>
            match h !! c with
            | None => Stuck
            | Some ce =>
                if decide (attrib ce !! "class" = Some permalink_class)
                then Done (<[el' := set_children (removelast (children e)) e]> h,
                           headings ++ [el'])
                else Done (h, headings ++ [el'])
            end
        end
      else Done s
  end.

Definition run (fuel : nat) (root : loc) (s : Heap * list loc) : Out (Heap * list loc) :=
  iter fst visit fuel root s.
End Run.

End HeadingReporting.

(** ** extension.py *)

Definition marker_class : string := "markdown-exec".

(** [Element("div", {"class": "markdown-exec"})] with the given children. *)
Definition marker_div (kids : list loc) : Element :=
  mkElement "div" {[ "class" := marker_class ]} None None kids.

Module InsertHeadings.

Definition name : string := "markdown_exec_insert_headings".

Section Run.
(** The attribute [stash] of [self.md], when the host has one; it is then
    a mapping. A [Markdown] of Python-Markdown has none (its stash of raw
    HTML is [htmlStash]), and nothing here sets one. *)
Variable md_stash : option (gmap string string).
(** [self.headings], each list with the content it has when the
    transform runs. *)
Variable headings : gmap string (list loc).

Definition visit (el : loc) (h : Heap) : Out Heap :=
  match h !! el with
  | None => Stuck
  | Some e =>
      match md_stash with
      | None => Raised (AttributeError "stash")
      | Some stash =>
          match text e ≫= fun t => stash !! t with
          | None => Done h
          | Some key =>
              match headings !! key with
              | None => Raised (KeyError key)
              | Some hs =>
                  let div := length h in
                  let h := h ++ [marker_div hs] in
                  Done (<[el := set_children (children e ++ [div]) e]> h)
              end
          end
      end
  end.

Definition run (fuel : nat) (root : loc) (h : Heap) : Out Heap :=
  if decide (headings = ∅) then Done h
  else iter id visit fuel root h.
End Run.

End InsertHeadings.

Module RemoveHeadings.

Definition name : string := "markdown_exec_remove_headings".

Definition is_marker (e : Element) : bool :=
  bool_decide (tag e = "div")
  && bool_decide (attrib e !! "class" = Some marker_class).

(** [root.remove(el)]: the first child that is [el] goes. *)
Fixpoint remove_first (el : loc) (kids : list loc) : list loc :=
  match kids with
  | [] => []
  | k :: kids' => if decide (k = el) then kids' else k :: remove_first el kids'
  end.

(** [for el in reversed(root)]: [reversed] counts an index down from
    [len(root) - 1], reads [root[index]] at every step and stops when
    that raises [IndexError]. [n] is the index plus one. *)
Fixpoint loop (n : nat) (root : loc) (carry_text : string) (h : Heap)
    : Out (Heap * string) :=
  match n with
  | O => Done (h, carry_text)
  | S index =>
      match h !! root with
      | None => Stuck
      | Some r =>
          match children r !! index with
          | None => Done (h, carry_text)
          | Some el =>
              match h !! el with
              | None => Stuck
              | Some e =>
                  if is_marker e then
                    let carry_text := default EmptyString (text e) +:+ carry_text in
                    loop index root carry_text
                      (<[root := set_children (remove_first el (children r)) r]> h)
                  else if decide (carry_text = EmptyString) then
                    loop index root carry_text h
                  else
                    loop index root EmptyString
                      (<[el := set_tail (Some (default EmptyString (tail e) +:+ carry_text)) e]> h)
              end
          end
      end
  end.

Definition run (root : loc) (h : Heap) : Out Heap :=
  match h !! root with
  | None => Stuck
  | Some r =>
      out_bind (loop (length (children r)) root EmptyString h)
        (fun '(h, carry_text) =>
           if decide (carry_text = EmptyString) then Done h
           else match h !! root with
                | None => Stuck
                | Some r =>
                    Done (<[root := set_text (Some (default EmptyString (text r) +:+ carry_text)) r]> h)
                end)
  end.

End RemoveHeadings.

(** Python-Markdown's [util.Registry], as far as the order of the tree
    processors goes: an item is registered under a name with a priority,
    and the items run from the highest priority to the lowest, items of
    equal priority in the order of registration. *)
Module Registry.

Record Item : Type := mkItem { item_name : string; priority : Z }.

#[global] Instance item_eq_dec : EqDecision Item.
Proof. solve_decision. Defined.

(** The items in the order of registration. *)
Definition t : Type := list Item.

(** [register]: an item already registered under the name is dropped. *)
Definition register (name : string) (p : Z) (reg : t) : t :=
  filter (fun it => item_name it ≠ name) reg ++ [mkItem name p].

Fixpoint insert (it : Item) (sorted : list Item) : list Item :=
  match sorted with
  | [] => [it]
  | x :: rest =>
      if (priority x <? priority it)%Z || (priority x =? priority it)%Z
      then it :: sorted
      else x :: insert it rest
  end.

(** The stable sort by decreasing priority. *)
Definition sort (reg : t) : list Item := foldr insert [] reg.

(** The names in the order the items run. *)
Definition run_order (reg : t) : list string := item_name <$> sort reg.

End Registry.

(** [MarkdownExecExtension.extendMarkdown] on the tree processors of [md]. *)
Definition extendMarkdown (treeprocessors : Registry.t) : Registry.t :=
  Registry.register RemoveHeadings.name 4
    (Registry.register InsertHeadings.name 3 treeprocessors).

(** The tree processors of a host with the table-of-contents extension:
    Python-Markdown registers [inline] at 20, [prettify] at 10, [unescape]
    at 0, and the extension registers [toc] at 5. *)
Definition host_treeprocessors : Registry.t :=
  [ Registry.mkItem "inline" 20; Registry.mkItem "prettify" 10;
    Registry.mkItem "unescape" 0; Registry.mkItem "toc" 5 ].


(** ** rendering.py: the tree processor that prefixes identifiers *)

(** [s[n:]] for [n >= 0]. *)
Fixpoint slice_from (n : nat) (s : string) : string :=
  match n, s with
  | O, _ => s
  | S n', String _ s' => slice_from n' s'
  | S _, EmptyString => EmptyString
  end.

Definition set_attrib (v : gmap string string) (e : Element) : Element :=
  mkElement (tag e) v (text e) (tail e) (children e).

Module IdPrepending.

Definition name : string := "markdown_exec_ids".

Section Run.
(** [self.id_prefix] *)
Variable id_prefix : string.

(** [v = el.get(key)], then [if v: el.set(key, self.id_prefix + v)]: an
    attribute that is absent or empty is left alone. *)
Definition prepend (key : string) (e : Element) : Element :=
  match attrib e !! key with
  | Some (String _ _ as v) => set_attrib (<[key := id_prefix +:+ v]> (attrib e)) e
  | _ => e
  end.

Definition prepend_href (e : Element) : Element :=
  match attrib e !! "href" with
  | Some (String _ _ as href_attr) =>
      if startswith "#" href_attr
      then set_attrib (<["href" := "#" +:+ id_prefix +:+ slice_from 1 href_attr]> (attrib e)) e
      else e
  | _ => e
  end.

(** The body of the loop on one element. *)
Definition on_element (e : Element) : Element :=
  let e := prepend "id" e in
  let e := prepend_href e in
  let e := prepend "name" e in
  if decide (tag e = "label") then prepend "for" e else e.

Definition visit (el : loc) (h : Heap) : Out Heap :=
  match h !! el with
  | None => Stuck
  | Some e => Done (<[el := on_element e]> h)
  end.

Definition run (fuel : nat) (root : loc) (h : Heap) : Out Heap :=
  if decide (id_prefix = EmptyString) then Done h
  else iter id visit fuel root h.
End Run.

End IdPrepending.

(** The tree processors that [_mimic] registers on the new renderer, whose
    other tree processors are [treeprocessors]. *)
Definition _mimic_treeprocessors (treeprocessors : Registry.t) : Registry.t :=
  Registry.register HeadingReporting.name 1
    (Registry.register IdPrepending.name 4 treeprocessors).

(** ** rendering.py: the headings as HTML *)

(** The string that [html_headings] formats for one heading; [str(None)]
    is [None], and a heading without an [id] raises [KeyError]. *)
Definition html_heading (heading : Element) : Res string :=
  match attrib heading !! "id" with
  | None => Raise (KeyError "id")
  | Some id_attr =>
      Ok ("<" +:+ tag heading +:+ " id=" +:+ dq +:+ id_attr +:+ dq +:+ ">"
          +:+ default "None" (text heading) +:+ "</" +:+ tag heading +:+ ">")
  end.

(** The loop of [html_headings] over the list that [self.headings]
    handed out. *)
Fixpoint html_lines (h : Heap) (hs : list loc) : Out (list string) :=
  match hs with
  | [] => Done []
  | l :: hs' =>
      match h !! l with
      | None => Stuck
      | Some heading =>
          match html_heading heading with
          | Raise e => Raised e
          | Ok line => out_bind (html_lines h hs') (fun lines => Done (line :: lines))
          end
      end
  end.

(** The property [html_headings]. *)
Definition html_headings (h : Heap) (c : Converter) : Converter * Out string :=
  let '(l, c) := headings c in
  match lists c !! l with
  | None => (c, Stuck)
  | Some hs => (c, out_bind (html_lines h hs) (fun lines => Done (join nl lines)))
  end.

(** ** formatters/console.py *)

Module Console.

Section Format.
Context `{Markupsafe}.
(** [_run_sh] of [formatters/sh.py], which runs the commands. *)
Variable _run_sh : string -> Options -> Res string.
(** [str(uuid4())] *)
Variable placeholder : string.
(** What the Markdown library does with a text. *)
Variable library : string -> MdRun.

(** The commands of a console session: the lines that start with the
    prompt, without it. *)
Definition sh_lines (code : string) : list string :=
  omap (fun line => if startswith "$ " line then Some (slice_from 2 line) else None)
       (split LF code).

(** [_format_console(code, md, html, source, tabs, extra=extra)] on the
    converter set up for [md]; an empty [source] stands for a false one. *)
Definition _format_console (code : string) (html : bool) (source : string)
    (tabs : string * string) (extra : Options) (c : Converter)
    : Converter * Res string :=
  let sh_code := join nl (sh_lines code) in
  match _run_sh sh_code extra with
  | Raise e => (c, Raise e)
  | Ok output =>
      let '(stash, output) :=
        if html then ([(placeholder, output)], placeholder) else ([], output) in
      let assembled :=
        if decide (source = EmptyString) then Ok output
        else add_source (indent sh_code "$ ") source output "console" tabs extra in
      match assembled with
      | Raise e => (c, Raise e)
      | Ok output => convert (library output) stash c
      end
  end.
End Format.

End Console.

(** ** Notions used to state the properties *)


(** The names under which an extra option cannot be passed on: the
    parameters of [add_source], and the parameter [code] of [code_block],
    to which [add_source] hands its extra options. *)
Definition reserved_names : list string :=
  ["source"; "location"; "output"; "language"; "tabs"; "code"].

(** The tree processors named [first], [second] and [third] run in this
    order: wherever they stand in [order], the positions increase. *)
Definition runs_in_order (first second third : string) (order : list string) : Prop :=
  (∃ i j k, order !! i = Some first ∧ order !! j = Some second
            ∧ order !! k = Some third)
  ∧ ∀ i j k, order !! i = Some first → order !! j = Some second →
             order !! k = Some third → i < j < k.


(** [convert] called once for each entry of [calls], one call after the
    other, on the converter [c]. *)
Definition after_calls `{Markupsafe} (calls : list (MdRun * list (string * string)))
    (c : Converter) : Converter :=
  foldl (fun c '(run, stash) => (convert run stash c).1) c calls.

(** How a converter may differ after some conversions: the level is back,
    the stack of renderers has not shrunk, and the prefixes handed out in
    between are those of the counter values passed. *)
Definition evolves (c c' : Converter) : Prop :=
  _level c' = _level c
  ∧ length (_md_stack c) ≤ length (_md_stack c')
  ∧ ∃ k, _counter c' = _counter c + k
         ∧ assigned c' = assigned c ++ (token <$> seq (_counter c) k).

Fixpoint all_digits (s : string) : bool :=
  match s with
  | EmptyString => true
  | String c s' => (48 <=? code c)%N && (code c <=? 57)%N && all_digits s'
  end.

(** A document with one executed block whose fragment holds one more
    executed block, followed by a second executed block. The identifier
    that each conversion gives its heading shows the prefix in force. *)
Definition example_calls : list (MdRun * list (string * string)) :=
  [ (Executes (Returns (fun p => ("<h2 id=" +:+ p +:+ "inner>", [2])))
       []
       (fun _ => Returns (fun p => ("<h1 id=" +:+ p +:+ "outer>", [1]))),
     []);
    (Returns (fun p => ("<h1 id=" +:+ p +:+ "next>", [3])), []) ].

(** [c in s] for one character. *)
Fixpoint occurs (c : ascii) (s : string) : bool :=
  match s with
  | EmptyString => false
  | String a s' => bool_decide (a = c) || occurs c s'
  end.

Fixpoint forall_chars (P : ascii -> bool) (s : string) : bool :=
  match s with
  | EmptyString => true
  | String a s' => P a && forall_chars P s'
  end.

(** The lines of a text, as [splitlines] with the line ends kept gives
    them: every line but the last ends with a line break. *)
Fixpoint lines_ok (ls : list string) : Prop :=
  match ls with
  | [] => True
  | [l] => True
  | l :: ls' =>
      (∃ body c, l = body +:+ String c EmptyString ∧ is_linebreak c = true)
      ∧ lines_ok ls'
  end.

(** ** Trees in the store *)

(** A tree of elements: the reference of the root, its record, and the
    trees of its children. *)
#[warnings="-register-all"]
Inductive Tree : Type :=
| Node (l : loc) (e : Element) (kids : list Tree).

Definition root (t : Tree) : loc := let 'Node l _ _ := t in l.

(** The store [h] holds the tree [t]: every node is in the store under its
    reference, and its children are the roots of the subtrees, in order. *)
Fixpoint repr (h : Heap) (t : Tree) : Prop :=
  match t with
  | Node l e kids =>
      h !! l = Some e
      ∧ children e = root <$> kids
      ∧ foldr (fun k P => repr h k ∧ P) True kids
  end.

(** The elements of a tree in document order. *)
Fixpoint preorder (t : Tree) : list Element :=
  match t with
  | Node _ e kids => e :: flat_map preorder kids
  end.

(** The references of a tree in document order. *)
Fixpoint locs (t : Tree) : list loc :=
  match t with
  | Node l _ kids => l :: flat_map locs kids
  end.

(** The copy that the harvesting processor keeps of a heading: the same
    record, without the last child when that child carries the permalink
    class. *)
Definition harvest_copy (permalink_class : string) (h : Heap) (e : Element) : Element :=
  match last (children e) ≫= fun c => h !! c with
  | Some ce =>
      if decide (attrib ce !! "class" = Some permalink_class)
      then set_children (removelast (children e)) e
      else e
  | None => e
  end.

(** The copies of the headings of a tree, in document order. *)
Definition harvested (permalink_class : string) (h : Heap) (t : Tree) : list Element :=
  harvest_copy permalink_class h
    <$> filter (fun e => HeadingReporting.is_heading_tag (tag e) = true) (preorder t).

(** A rendered fragment: a [div] with a heading that carries a permalink,
    and a paragraph. *)
Definition fragment_store : Heap :=
  [ mkElement "div" ∅ None None [1; 3];
    mkElement "h1" {[ "id" := "exec-0--title" ]} (Some "Title") None [2];
    mkElement "a" {[ "class" := "headerlink" ]} (Some "#") None [];
    mkElement "p" ∅ (Some "Body") None [] ].

Definition fragment_tree : Tree :=
  Node 0 (mkElement "div" ∅ None None [1; 3])
    [ Node 1 (mkElement "h1" {[ "id" := "exec-0--title" ]} (Some "Title") None [2])
        [ Node 2 (mkElement "a" {[ "class" := "headerlink" ]} (Some "#") None []) [] ];
      Node 3 (mkElement "p" ∅ (Some "Body") None []) [] ].

(** ** Notions for the Insertion transform *)

Section InsertNotions.
Variable stash : gmap string string.
Variable headings : gmap string (list loc).

(** The stashed value that the text of an element stands for, if any. *)
Definition matched (e : Element) : option string :=
  text e ≫= fun t => stash !! t.

(** No element of the tree has a text that is a key of the stash. *)
Definition passive (t : Tree) : Prop :=
  Forall (fun e => matched e = None) (preorder t).

(** From [h] to [h'] the store has only grown, and the elements it held
    outside [S] are unchanged. *)
Definition changes_within (S : list loc) (h h' : Heap) : Prop :=
  length h ≤ length h'
  ∧ ∀ l e, h !! l = Some e → l ∉ S → h' !! l = Some e.

(** The headings of the table are trees of the store [h] that the
    transform has nothing to do on and that share no element with [S]. *)
Definition headings_ok (h : Heap) (S : list loc) : Prop :=
  ∀ key hs hl, headings !! key = Some hs → hl ∈ hs →
    ∃ ht, root ht = hl ∧ repr h ht ∧ passive ht ∧ ∀ l, l ∈ locs ht → l ∉ S.

(** Every stashed value that an element of the tree stands for is a key of
    the table. *)
Definition recorded_for (t : Tree) : Prop :=
  ∀ e key, e ∈ preorder t → matched e = Some key → is_Some (headings !! key).

(** What the Insertion transform leaves of the tree [t] of the store [h0]
    in the store [h']: an element whose text is no key of the stash is as
    it was; an element whose text is a key has one more child, at the end,
    which is a new marker container whose children are the headings that
    the table holds for the stashed value. *)
Fixpoint inserted (h0 h' : Heap) (t : Tree) : Prop :=
  match t with
  | Node l e kids =>
      match matched e with
      | None => h' !! l = Some e
      | Some key =>
          ∃ hs d, headings !! key = Some hs
                  ∧ length h0 ≤ d
                  ∧ h' !! l = Some (set_children (children e ++ [d]) e)
                  ∧ h' !! d = Some (marker_div hs)
      end
      ∧ foldr (fun k P => inserted h0 h' k ∧ P) True kids
  end.
(** Walking from [c] ends and leaves the store as it is. *)
Definition quiet (h : Heap) (c : loc) : Prop :=
  ∃ fuel0, ∀ fuel, fuel0 ≤ fuel →
    iter id (InsertHeadings.visit (Some stash) headings) fuel c h = Done h.

End InsertNotions.

(** A host tree with one paragraph whose text is the placeholder [PH], and
    next to it the heading harvested for the output that [PH] stands for. *)
Definition host_store : Heap :=
  [ mkElement "div" ∅ None None [1];
    mkElement "p" ∅ (Some "PH") None [];
    mkElement "h1" {[ "id" := "exec-0--title" ]} (Some "Title") None [] ].

Definition host_tree : Tree :=
  Node 0 (mkElement "div" ∅ None None [1])
    [ Node 1 (mkElement "p" ∅ (Some "PH") None []) [] ].

Definition host_stash : gmap string string := {[ "PH" := "<p>out</p>" ]}.

Definition host_table : gmap string (list loc) := {[ "<p>out</p>" := [2] ]}.

(** The same tree with the output itself as the text of the paragraph. *)
Definition output_store : Heap :=
  [ mkElement "div" ∅ None None [1];
    mkElement "p" ∅ (Some "<p>out</p>") None [];
    mkElement "h1" {[ "id" := "exec-0--title" ]} (Some "Title") None [] ].

(** ** Notions for the Removal transform *)




(** A processor of priority [x] may run before one of priority [y]. *)
Definition ge_priority (x y : Registry.Item) : Prop :=
  (Registry.priority y ≤ Registry.priority x)%Z.

(** The text does not begin with whitespace. *)
Definition starts_unspaced (s : string) : Prop :=
  match s with
  | EmptyString => True
  | String c _ => isspace c = false
  end.

(** The text does not end with whitespace. *)
Fixpoint ends_unspaced (s : string) : Prop :=
  match s with
  | EmptyString => True
  | String c EmptyString => isspace c = false
  | String _ s' => ends_unspaced s'
  end.

(** The text consists of whitespace. *)
Definition blank (s : string) : Prop := forall_chars isspace s = true.

(** A root with two paragraphs and, between them, two marker containers
    with a text each. *)
Definition marked_store : Heap :=
  [ mkElement "div" ∅ None None [1; 2; 3; 4];
    mkElement "p" ∅ (Some "a") None [];
    mkElement "div" {[ "class" := marker_class ]} (Some "M1") None [];
    mkElement "div" {[ "class" := marker_class ]} (Some "M2") None [];
    mkElement "p" ∅ (Some "b") None [] ].

(** ** Notions for the further properties *)

(** The text that the children of the root hold for the page outside the
    headings, in document order: the text and the tail of a marker
    container, the tail of any other child. *)
Fixpoint page_text (kids : list (loc * Element)) : string :=
  match kids with
  | [] => EmptyString
  | (_, e) :: rest =>
      (if RemoveHeadings.is_marker e
       then default EmptyString (text e) +:+ default EmptyString (tail e)
       else default EmptyString (tail e)) +:+ page_text rest
  end.


(** A root with a paragraph and a marker container that has a tail. *)
Definition tailed_store : Heap :=
  [ mkElement "div" ∅ None None [1; 2];
    mkElement "p" ∅ (Some "a") None [];
    mkElement "div" {[ "class" := marker_class ]} (Some "M") (Some "T") [] ].


(** The renderers at the positions [n] and above have no id prefix in
    force. *)
Definition idle_from (n : nat) (c : Converter) : Prop :=
  ∀ i r, _md_stack c !! i = Some r → n ≤ i → id_prefix r = EmptyString.

(** Every renderer of [c] is still at its position in [c'], with the list
    it harvests into; the renderers below the level of [c], which are those
    of the conversions under way, have the prefix they had. *)
Definition renderers_kept (c c' : Converter) : Prop :=
  ∀ i r, _md_stack c !! i = Some r →
    ∃ r', _md_stack c' !! i = Some r'
          ∧ harvest_list r' = harvest_list r
          ∧ (i < _level c → id_prefix r' = id_prefix r).

(** What a conversion leaves behind. *)
Definition settles (c c' : Converter) : Prop :=
  _level c' = _level c
  ∧ (idle_from (_level c) c → idle_from (_level c) c')
  ∧ renderers_kept c c'.

(** No placeholder of the stash would be found in [html] by the loop that
    restores the stash: the first one as it is, the later ones in the form
    in which the [Markup.replace] of the installed markupsafe looks for
    them. *)
Definition placeholders_absent `{Markupsafe} (items : list (string * string))
    (html : string) : Prop :=
  match items with
  | [] => True
  | (placeholder, _) :: rest =>
      contains placeholder html = false
      ∧ Forall (fun item => contains (searched item.1) html = false) rest
  end.

(** ** Notions for the prefixing of identifiers *)

(** The tree with [f] applied to the record of every node. *)
Fixpoint tmap (f : Element -> Element) (t : Tree) : Tree :=
  match t with
  | Node l e kids => Node l (f e) (map (tmap f) kids)
  end.

(** The store with [f] applied to the records at [ls], one after the
    other. *)
Definition map_at (f : Element -> Element) (ls : list loc) (h : Heap) : Heap :=
  foldl (fun h l => alter f l h) h ls.

(** A paragraph with a name, a link to it, and a label. *)
Definition linked_store : Heap :=
  [ mkElement "div" ∅ None None [1; 2; 3];
    mkElement "h2" {[ "id" := "usage" ]} (Some "Usage") None [];
    mkElement "a" {[ "href" := "#usage" ]} (Some "see") None [];
    mkElement "label" {[ "for" := "box" ]} (Some "tick") None [] ].

Definition linked_tree : Tree :=
  Node 0 (mkElement "div" ∅ None None [1; 2; 3])
    [ Node 1 (mkElement "h2" {[ "id" := "usage" ]} (Some "Usage") None []) [];
      Node 2 (mkElement "a" {[ "href" := "#usage" ]} (Some "see") None []) [];
      Node 3 (mkElement "label" {[ "for" := "box" ]} (Some "tick") None []) [] ].

(** What the prefixing makes of the value of an attribute that holds an
    identifier: a value that is absent or empty stays. *)
Definition prefixed (p : string) (o : option string) : option string :=
  match o with
  | Some (String _ _ as v) => Some (p +:+ v)
  | _ => o
  end.

(** The same for a link: only a link into the page, one that starts with
    [#], is rewritten. *)
Definition prefixed_link (p : string) (o : option string) : option string :=
  match o with
  | Some (String c v) =>
      if bool_decide (c = "#"%char) then Some ("#" +:+ p +:+ v) else o
  | _ => o
  end.

(** ** Notions for the failure of the Insertion transform *)

(** The stashed value that the text of the element stands for, when the
    table has no entry for it. *)
Definition missing (stash : gmap string string) (headings : gmap string (list loc))
    (e : Element) : option string :=
  matched stash e ≫= fun key =>
    match headings !! key with
    | Some _ => None
    | None => Some key
    end.

(** The first such value in document order. *)
Definition first_missing (stash : gmap string string)
    (headings : gmap string (list loc)) (es : list Element) : option string :=
  head (omap (missing stash headings) es).

(** ** Notions for the stash *)

(** The characters that [markupsafe.escape] rewrites. *)
Definition needs_escape (c : ascii) : bool :=
  bool_decide (c = "&"%char) || bool_decide (c = "<"%char)
  || bool_decide (c = ">"%char) || bool_decide (c = "'"%char)
  || bool_decide (c = ascii_of_nat 34).

(** The text holds none of them. *)
Definition plain (s : string) : bool :=
  forall_chars (fun c => negb (needs_escape c)) s.

(** ** Notions for the id prefixes of the invocations *)

(** The id prefix that the renderer at the position [md] has: what its
    prefixing processor puts before the identifiers. *)
Definition prefix_in_force (md : nat) (c : Converter) : option string :=
  id_prefix <$> _md_stack c !! md.

(** The id prefix that the renderer [md] has when its run gets to the tree
    processors, which mint the identifiers; nothing when the run raises. *)
Fixpoint minted `{Markupsafe} (run : MdRun) (md : nat) (c : Converter)
    : option (option string) :=
  match run with
  | Raises _ => None
  | Returns _ => Some (prefix_in_force md c)
  | Executes sub stash k =>
      let '(c1, r) := convert_with (md_convert sub) stash c in
      minted (k r) md c1
  end.

(** The invocations of [convert] nested in a run of the renderer [md], in
    the order in which they begin. For each one: the id prefix that its
    renderer has when the statements before the [try] have run, and the
    one under which its identifiers are minted. *)
Fixpoint invocations_in `{Markupsafe} (run : MdRun) (md : nat) (c : Converter)
    : list (option string * option (option string)) :=
  match run with
  | Raises _ => []
  | Returns _ => []
  | Executes sub stash k =>
      let '(c0, md0) := convert_enter c in
      let '(c1, r) := convert_with (md_convert sub) stash c in
      (prefix_in_force md0 c0, minted sub md0 c0)
        :: invocations_in sub md0 c0 ++ invocations_in (k r) md c1
  end.

(** The same for calls of [convert] made one after the other on [c]. *)
Fixpoint invocations `{Markupsafe} (calls : list (MdRun * list (string * string)))
    (c : Converter) : list (option string * option (option string)) :=
  match calls with
  | [] => []
  | (run, stash) :: rest =>
      let '(c0, md0) := convert_enter c in
      (prefix_in_force md0 c0, minted run md0 c0)
        :: invocations_in run md0 c0 ++ invocations rest (convert run stash c).1
  end.

(* ===================================================================== *)
(** * Properties *)

(** ** Order of the tree processors ([extendMarkdown]) *)

Section RegistryFacts.
Import Registry.

Lemma insert_elem (it x : Item) (l : list Item) :
  x ∈ insert it l ↔ x = it ∨ x ∈ l.
Proof.
  induction l as [|y l IH]; simpl.
  - rewrite list_elem_of_singleton, elem_of_nil. tauto.
  - destruct (_ || _).
    + rewrite elem_of_cons. tauto.
    + rewrite !elem_of_cons, IH. tauto.
Qed.

Lemma sort_elem (x : Item) (reg : t) : x ∈ sort reg ↔ x ∈ reg.
Proof.
  induction reg as [|y reg IH]; simpl; [tauto|].
  rewrite insert_elem, elem_of_cons, IH. tauto.
Qed.

Lemma insert_sorted (it : Item) (l : list Item) :
  StronglySorted ge_priority l → StronglySorted ge_priority (insert it l).
Proof.
  induction 1 as [|y l Hl IH Hy]; simpl.
  - repeat constructor.
  - destruct (_ || _) eqn:Hcmp.
    + constructor; [by constructor|].
      assert (ge_priority it y) as Hity by (unfold ge_priority; lia).
      constructor; [done|].
      eapply Forall_impl; [exact Hy|]. unfold ge_priority in *. intros; lia.
    + constructor; [done|].
      apply Forall_forall. intros z Hz. apply insert_elem in Hz as [->|Hz].
      * unfold ge_priority. lia.
      * by eapply Forall_forall in Hy.
Qed.

Lemma sort_sorted (reg : t) : StronglySorted ge_priority (sort reg).
Proof.
  induction reg; simpl; [constructor|by apply insert_sorted].
Qed.

(** In the running order a higher priority comes strictly first. *)
Lemma sorted_positions (l : list Item) (i j : nat) (x y : Item) :
  StronglySorted ge_priority l →
  l !! i = Some x → l !! j = Some y →
  (priority y < priority x)%Z → i < j.
Proof.
  intros Hl. revert i j. induction Hl as [|z l Hl IH Hz]; intros i j Hi Hj Hp.
  - by rewrite lookup_nil in Hi.
  - destruct i as [|i], j as [|j]; simpl in Hi, Hj.
    + simplify_eq. lia.
    + lia.
    + exfalso. simplify_eq.
      eapply Forall_forall in Hz; [|by eapply list_elem_of_lookup_2].
      unfold ge_priority in Hz. lia.
    + specialize (IH i j Hi Hj Hp). lia.
Qed.

Lemma register_elem (x : Item) (name : string) (p : Z) (reg : t) :
  x ∈ register name p reg ↔
  (x ∈ reg ∧ item_name x ≠ name) ∨ x = mkItem name p.
Proof.
  unfold register.
  rewrite elem_of_app, list_elem_of_filter, list_elem_of_singleton. tauto.
Qed.
End RegistryFacts.

(** C2. Python-Markdown runs the tree processors from the highest priority
    to the lowest. Whenever the host has the table-of-contents processor at
    its priority 5, the registry that [extendMarkdown] leaves runs [toc]
    first, then the Removal transform (priority 4), then the Insertion
    transform (priority 3): Insertion does not come before [toc], and
    Removal does not come after Insertion. *)
Theorem extendMarkdown_run_order (treeprocessors : Registry.t) :
  NoDup (Registry.item_name <$> treeprocessors) →
  Registry.mkItem "toc" 5 ∈ treeprocessors →
  runs_in_order "toc" RemoveHeadings.name InsertHeadings.name
    (Registry.run_order (extendMarkdown treeprocessors)).
Proof.
  intros Hnd Htoc. unfold Registry.run_order.
  set (reg := extendMarkdown treeprocessors).
  assert (∀ x, x ∈ reg → Registry.item_name x = "toc" → Registry.priority x = 5%Z)
    as Htoc5.
  { intros x Hx Hn. unfold reg, extendMarkdown in Hx.
    apply register_elem in Hx as [[Hx _]| ->]; [|done].
    apply register_elem in Hx as [[Hx _]| ->]; [|done].
    apply list_elem_of_lookup_1 in Hx as [i Hi], Htoc as [j Hj].
    assert (i = j) as ->; [|by simplify_eq].
    eapply NoDup_lookup; [exact Hnd| |]; rewrite list_lookup_fmap.
    - by rewrite Hi.
    - by rewrite Hj, Hn. }
  assert (∀ x, x ∈ reg → Registry.item_name x = RemoveHeadings.name →
               Registry.priority x = 4%Z) as Hrem4.
  { intros x Hx Hn. unfold reg, extendMarkdown in Hx.
    apply register_elem in Hx as [[_ Hx]| ->]; done. }
  assert (∀ x, x ∈ reg → Registry.item_name x = InsertHeadings.name →
               Registry.priority x = 3%Z) as Hins3.
  { intros x Hx Hn. unfold reg, extendMarkdown in Hx.
    apply register_elem in Hx as [[Hx _]| ->]; [|done].
    apply register_elem in Hx as [[_ Hx]| ->]; done. }
  assert (∀ n p, Registry.mkItem n p ∈ reg →
                 ∃ i, (Registry.item_name <$> Registry.sort reg) !! i = Some n)
    as Hpos.
  { intros n p Hin. apply sort_elem, list_elem_of_lookup_1 in Hin as [i Hi].
    exists i. by rewrite list_lookup_fmap, Hi. }
  split.
  - destruct (Hpos "toc" 5%Z) as [i Hi].
    { apply register_elem. left. split; [|done].
      apply register_elem. left. by split. }
    destruct (Hpos RemoveHeadings.name 4%Z) as [j Hj].
    { apply register_elem. by right. }
    destruct (Hpos InsertHeadings.name 3%Z) as [k Hk].
    { apply register_elem. left. split; [|done]. apply register_elem. by right. }
    eauto 10.
  - intros i j k Hi Hj Hk. rewrite list_lookup_fmap in Hi, Hj, Hk.
    destruct (Registry.sort reg !! i) as [x|] eqn:Hx; [|done].
    destruct (Registry.sort reg !! j) as [y|] eqn:Hy; [|done].
    destruct (Registry.sort reg !! k) as [z|] eqn:Hz; [|done].
    simplify_eq/=.
    pose proof (list_elem_of_lookup_2 _ _ _ Hx) as Hx'.
    pose proof (list_elem_of_lookup_2 _ _ _ Hy) as Hy'.
    pose proof (list_elem_of_lookup_2 _ _ _ Hz) as Hz'.
    rewrite sort_elem in Hx', Hy', Hz'.
    split.
    + eapply sorted_positions; [apply sort_sorted|done..|].
      rewrite (Htoc5 x), (Hrem4 y) by done. lia.
    + eapply sorted_positions; [apply sort_sorted|done..|].
      rewrite (Hrem4 y), (Hins3 z) by done. lia.
Qed.

Lemma extendMarkdown_run_order_witness :
  runs_in_order "toc" RemoveHeadings.name InsertHeadings.name
    (Registry.run_order (extendMarkdown host_treeprocessors)).
Proof.
  apply (extendMarkdown_run_order host_treeprocessors).
  - apply (bool_decide_unpack _). vm_compute. exact I.
  - apply (bool_decide_unpack _). vm_compute. exact I.
Defined.

(** The order on the host of the example, in full. *)
Lemma host_run_order :
  Registry.run_order (extendMarkdown host_treeprocessors)
  = ["inline"; "prettify"; "toc"; RemoveHeadings.name; InsertHeadings.name;
     "unescape"].
Proof. reflexivity. Qed.

(** ** The nested converter *)

Lemma evolves_refl c : evolves c c.
Proof.
  repeat split; [done|]. exists 0. simpl. by rewrite Nat.add_0_r, app_nil_r.
Qed.

Lemma evolves_trans c1 c2 c3 : evolves c1 c2 → evolves c2 c3 → evolves c1 c3.
Proof.
  intros (Hl1 & Hs1 & k1 & Hc1 & Ha1) (Hl2 & Hs2 & k2 & Hc2 & Ha2).
  repeat split; [congruence|lia|].
  exists (k1 + k2). split; [lia|].
  rewrite Ha2, Ha1, Hc1, seq_app, fmap_app, app_assoc. done.
Qed.

Lemma set_md_stack_id c : set_md_stack (_md_stack c) c = c.
Proof. by destruct c. Qed.

Lemma _md_fill_stack n c :
  length (_md_stack c) ≤ length (_md_stack (_md_fill n c))
  ∧ (_level c < length (_md_stack c) + n →
     _level c < length (_md_stack (_md_fill n c)))
  ∧ _md_fill n c = set_md_stack (_md_stack (_md_fill n c)) c.
Proof.
  revert c. induction n as [|n IH]; intros c; simpl.
  - destruct (_md_stack c !! _level c) eqn:E;
      rewrite set_md_stack_id; (split; [done|]); (split; [lia|done]).
  - destruct (_md_stack c !! _level c) eqn:E.
    + rewrite set_md_stack_id. split; [done|]. split; [|done].
      intros _. by apply lookup_lt_Some in E.
    + destruct (IH (set_md_stack (_md_stack c ++ [_mimic (_headings c)]) c))
        as (H1 & H2 & H3).
      simpl in *. rewrite length_app in *. simpl in *.
      split; [lia|]. split; [intros; apply H2; lia|].
      rewrite H3 at 1. by destruct c.
Qed.

Lemma length_set_id_prefix md v c :
  length (_md_stack (set_id_prefix md v c)) = length (_md_stack c).
Proof. simpl. apply length_alter. Qed.

Lemma lookup_set_id_prefix md v c :
  md < length (_md_stack c) →
  id_prefix <$> _md_stack (set_id_prefix md v c) !! md = Some v.
Proof.
  intros Hmd. simpl. apply lookup_lt_is_Some in Hmd as [r Hr].
  rewrite list_lookup_alter_eq, Hr. done.
Qed.

(** What the statements before the [try] establish. *)
Lemma convert_enter_spec c :
  let c0 := (convert_enter c).1 in
  (convert_enter c).2 = _level c
  ∧ _level c0 = S (_level c)
  ∧ length (_md_stack c) ≤ length (_md_stack c0)
  ∧ _level c < length (_md_stack c0)
  ∧ _counter c0 = S (_counter c)
  ∧ assigned c0 = assigned c ++ [token (_counter c)]
  ∧ id_prefix <$> _md_stack c0 !! _level c = Some (token (_counter c)).
Proof.
  unfold convert_enter, _md.
  destruct (_md_fill_stack (S (_level c)) c) as (H1 & H2 & H3).
  remember (_md_stack (_md_fill (S (_level c)) c)) as st eqn:Hst.
  rewrite H3. clear H3 Hst. simpl. rewrite length_alter.
  repeat split; try done; try lia.
  apply (lookup_set_id_prefix _ _ (set_md_stack st c)).
  simpl. lia.
Qed.

Lemma convert_with_evolves `{Markupsafe} f stash c :
  (∀ md c, evolves c (f md c).1) → evolves c (convert_with f stash c).1.
Proof.
  intros Hf. unfold convert_with.
  pose proof (convert_enter_spec c) as (Hmd & Hl & Hs & _ & Hc & Ha & _).
  destruct (convert_enter c) as [c0 md]. simpl in *.
  specialize (Hf md c0). destruct (f md c0) as [c1 r]. simpl in *.
  destruct Hf as (Hl1 & Hs1 & k & Hc1 & Ha1).
  assert (evolves c (convert_finally md c1)) as Hfin.
  { unfold convert_finally. repeat split; simpl.
    - lia.
    - rewrite length_alter. lia.
    - exists (S k). split; [lia|].
      rewrite Ha1, Ha, Hc. simpl. by rewrite <-app_assoc. }
  destruct r as [converted|e]; [|done].
  unfold convert_record, headings. simpl.
  destruct Hfin as (? & ? & ?). repeat split; simpl in *; done.
Qed.

Lemma md_convert_evolves `{Markupsafe} run md c : evolves c (md_convert run md c).1.
Proof.
  revert md c. induction run as [e|result|sub IHsub stash k IHk]; intros md c; simpl.
  - apply evolves_refl.
  - destruct (_md_stack c !! md) as [r|]; [|apply evolves_refl].
    destruct (result (id_prefix r)) as [html found]. simpl.
    repeat split; simpl; [done|]. exists 0. simpl.
    by rewrite Nat.add_0_r, app_nil_r.
  - pose proof (convert_with_evolves (md_convert sub) stash c IHsub) as H1.
    destruct (convert_with (md_convert sub) stash c) as [c1 r]. simpl in *.
    eapply evolves_trans; [exact H1|apply IHk].
Qed.

Lemma convert_evolves `{Markupsafe} run stash c : evolves c (convert run stash c).1.
Proof. apply convert_with_evolves. intros. apply md_convert_evolves. Qed.

(** C5. When the conversion run by the renderer raises, [convert] raises
    the same exception, the level is what it was on entry, and the id
    prefix of the renderer used for the call is the empty string. *)
Theorem convert_failure_restores `{Markupsafe} run stash c c1 e :
  md_convert run (convert_enter c).2 (convert_enter c).1 = (c1, Raise e) →
  ∃ c', convert run stash c = (c', Raise e)
        ∧ _level c' = _level c
        ∧ (convert_enter c).2 = _level c
        ∧ id_prefix <$> _md_stack c' !! (convert_enter c).2 = Some EmptyString.
Proof.
  intros Hrun. unfold convert, convert_with.
  pose proof (convert_enter_spec c) as (Hmd & Hl & _ & Hlt & _).
  pose proof (md_convert_evolves run (convert_enter c).2 (convert_enter c).1)
    as (Hl1 & Hs1 & _).
  destruct (convert_enter c) as [c0 md]. simpl in *.
  rewrite Hrun in *. simpl in *.
  eexists. split; [reflexivity|]. split; [simpl; lia|]. split; [done|].
  subst md. unfold convert_finally.
  apply lookup_set_id_prefix. simpl. lia.
Qed.

Lemma convert_failure_restores_witness :
  ∃ c', convert (Raises (Exception "boom")) [] init = (c', Raise (Exception "boom"))
        ∧ _level c' = 0
        ∧ (convert_enter init).2 = 0
        ∧ id_prefix <$> _md_stack c' !! (convert_enter init).2 = Some EmptyString.
Proof.
  apply (convert_failure_restores (Raises (Exception "boom")) [] init
           (convert_enter init).1 (Exception "boom")).
  reflexivity.
Defined.

(** The same after a failure one level down: the outer conversion gives up
    when the executed block fails. *)
Example nested_failure_restores :
  let run := Executes (Raises (Exception "boom")) []
               (fun r => match r with
                         | Raise e => Raises e
                         | Ok html => Returns (fun _ => (html, []))
                         end) in
  let c' := (convert run [] init).1 in
  (convert run [] init).2 = Raise (Exception "boom")
  ∧ _level c' = 0
  ∧ id_prefix <$> _md_stack c' = [EmptyString; EmptyString].
Proof. vm_compute. done. Qed.

Lemma append_cons c s t : String c s +:+ t = String c (s +:+ t).
Proof. reflexivity. Qed.

Lemma append_nil_l s : EmptyString +:+ s = s.
Proof. reflexivity. Qed.

Lemma append_nil_r s : s +:+ EmptyString = s.
Proof. induction s; [done|]. by rewrite append_cons, IHs. Qed.

Lemma append_assoc s t u : (s +:+ t) +:+ u = s +:+ (t +:+ u).
Proof. induction s; [done|]. by rewrite !append_cons, IHs. Qed.

Lemma pretty_N_char_digit x : all_digits (String (pretty_N_char x) EmptyString) = true.
Proof. unfold pretty_N_char. by repeat case_match. Qed.

Lemma pretty_N_go_digits x s :
  all_digits s = true → all_digits (pretty_N_go x s) = true.
Proof.
  revert s. induction (N.lt_wf_0 x) as [x _ IH]; intros s Hs.
  destruct (decide (x = 0)%N) as [->|Hx]; [by rewrite pretty_N_go_0|].
  rewrite pretty_N_go_step by lia. apply IH.
  - apply N.div_lt; lia.
  - pose proof (pretty_N_char_digit (x `mod` 10)%N) as Hd. simpl in *.
    rewrite andb_true_r in Hd. by rewrite Hd.
Qed.

Lemma pretty_nat_digits (n : nat) : all_digits (pretty n) = true.
Proof.
  unfold pretty, pretty_nat, pretty, pretty_N.
  case_decide; [done|]. by apply pretty_N_go_digits.
Qed.

(** Two runs of digits followed by a dash: equal texts have equal runs. *)
Lemma digits_dash_inj d1 d2 r1 r2 :
  all_digits d1 = true → all_digits d2 = true →
  d1 +:+ String "-" r1 = d2 +:+ String "-" r2 → d1 = d2 ∧ r1 = r2.
Proof.
  revert d2. induction d1 as [|a d1 IH]; intros [|b d2] H1 H2 Heq.
  - rewrite !append_nil_l in Heq. by simplify_eq.
  - rewrite append_nil_l, append_cons in Heq. by simplify_eq.
  - rewrite append_nil_l, append_cons in Heq. by simplify_eq.
  - rewrite !append_cons in Heq. simplify_eq. simpl in H1, H2.
    apply andb_true_iff in H1 as [_ H1], H2 as [_ H2].
    destruct (IH d2 H1 H2) as [-> ->]; done.
Qed.

(** No prefix is the beginning of a text that starts with another one. *)
Lemma token_prefix_free n m s1 s2 : token n +:+ s1 = token m +:+ s2 → n = m.
Proof.
  unfold token. rewrite !append_assoc. intros Heq.
  change "exec-" with (String "e" (String "x" (String "e" (String "c" (String "-" EmptyString))))) in Heq.
  rewrite !append_cons, !append_nil_l in Heq.
  injection Heq as Heq.
  change ("--" +:+ s1) with (String "-" (String "-" s1)) in Heq.
  change ("--" +:+ s2) with (String "-" (String "-" s2)) in Heq.
  apply digits_dash_inj in Heq as [Heq _]; [|apply pretty_nat_digits..].
  by apply (inj pretty) in Heq.
Qed.

#[local] Instance token_inj : Inj (=) (=) token.
Proof.
  intros n m H. apply (token_prefix_free n m EmptyString EmptyString).
  by rewrite H.
Qed.

Lemma after_calls_history `{Markupsafe} calls c :
  assigned c = token <$> seq 0 (_counter c) →
  assigned (after_calls calls c) = token <$> seq 0 (_counter (after_calls calls c)).
Proof.
  revert c. induction calls as [|[run stash] calls IH]; intros c Hc; [done|].
  simpl. apply IH.
  destruct (convert_evolves run stash c) as (_ & _ & k & Hk & Ha).
  rewrite Ha, Hk, Hc, <-fmap_app. f_equal. by rewrite seq_app.
Qed.

(** The first conversion on a new converter. *)
Lemma convert_first `{Markupsafe} result stash :
  convert (Returns result) stash init
  = (mkConverter [mkRenderer EmptyString 0] 1 0 1
       [(result (token 0)).2; []]
       {[ restore_stash (result (token 0)).1 false stash := 0 ]}
       [token 0],
     Ok (restore_stash (result (token 0)).1 false stash)).
Proof.
  unfold convert, convert_with, convert_enter, _md. simpl.
  destruct (result (token 0)) as [html found]. simpl. done.
Qed.

(** The next conversion at the same level. *)
Lemma convert_second `{Markupsafe} result stash found1 table1 :
  convert (Returns result) stash
    (mkConverter [mkRenderer EmptyString 0] 1 0 1 [found1; []] table1 [token 0])
  = (mkConverter [mkRenderer EmptyString 0] 2 0 2
       [found1 ++ (result (token 1)).2; []; []]
       (<[ restore_stash (result (token 1)).1 false stash := 1 ]> table1)
       [token 0; token 1],
     Ok (restore_stash (result (token 1)).1 false stash)).
Proof.
  unfold convert, convert_with, convert_enter, _md. simpl.
  destruct (result (token 1)) as [html found]. simpl. done.
Qed.

(** C1 on the code. Two fragments converted one after the other on a new
    converter: the first output is recorded with the headings of the first
    fragment; the second output is recorded with no heading at all, and
    the headings of the second fragment are appended to the list recorded
    for the first output, which is the list the renderer still appends
    to. *)
Theorem second_convert_records_no_heading `{Markupsafe} result1 result2 stash1 stash2 :
  let found1 := (result1 (token 0)).2 in
  let found2 := (result2 (token 1)).2 in
  let h1 := restore_stash (result1 (token 0)).1 false stash1 in
  let h2 := restore_stash (result2 (token 1)).1 false stash2 in
  let c1 := (convert (Returns result1) stash1 init).1 in
  let c2 := (convert (Returns result2) stash2 c1).1 in
  (convert (Returns result1) stash1 init).2 = Ok h1
  ∧ (convert (Returns result2) stash2 c1).2 = Ok h2
  ∧ recorded c1 h1 = Some found1
  ∧ recorded c2 h2 = Some []
  ∧ table c1 !! h1 = Some 0
  ∧ lists c2 !! 0 = Some (found1 ++ found2)
  ∧ harvest_list <$> _md_stack c2 !! 0 = Some 0.
Proof.
  intros found1 found2 h1 h2 c1 c2. subst c2 c1.
  rewrite convert_first. simpl. rewrite convert_second. simpl.
  unfold recorded. simpl. fold h1 h2.
  rewrite lookup_singleton_eq, lookup_insert_eq. done.
Qed.

(** The same on two fragments with one heading each. *)
Example second_convert_example :
  let c1 := (convert (Returns (fun p => ("<h1 id=" +:+ p +:+ "a>A</h1>", [1]))) [] init).1 in
  let c2 := (convert (Returns (fun p => ("<h1 id=" +:+ p +:+ "b>B</h1>", [2]))) [] c1).1 in
  recorded c2 "<h1 id=exec-0--a>A</h1>" = Some [1; 2]
  ∧ recorded c2 "<h1 id=exec-1--b>B</h1>" = Some [].
Proof. vm_compute. done. Qed.

(** ** Restoring the stash *)

Lemma replace_scan_absent old new s :
  contains old s = false → replace_scan old new 0 s = s.
Proof.
  induction s as [|c s IH]; [done|]. intros H.
  change (contains old (String c s))
    with (startswith old (String c s) || contains old s) in H.
  apply orb_false_iff in H as [H1 H2].
  change (replace_scan old new 0 (String c s))
    with (if startswith old (String c s)
          then new +:+ replace_scan old new (String.length old - 1) s
          else String c (replace_scan old new 0 s)).
  rewrite H1, IH; done.
Qed.

(** A placeholder that does not occur: [str.replace] changes nothing. *)
Lemma replace_absent s old new : contains old s = false → replace s old new = s.
Proof.
  intros H. unfold replace. destruct old as [|a old].
  - by destruct s.
  - by apply replace_scan_absent.
Qed.

(** A stash with one entry is restored by [str.replace]. *)
Lemma restore_stash_single `{Markupsafe} converted placeholder stashed :
  restore_stash converted false [(placeholder, stashed)]
  = replace converted placeholder stashed.
Proof. reflexivity. Qed.

(** C7 on the code. With two entries in the stash, the second entry is
    not put back literally: from the second iteration on [converted] is a
    [Markup], whose [replace] escapes the replacement, so what replaces the
    second placeholder is the escaped HTML; this is so on markupsafe 2 and
    on markupsafe 3. *)
Theorem second_stash_entry_is_escaped `{Markupsafe} :
  (∀ result p1 s1 p2 s2,
     (convert (Returns result) [(p1, s1); (p2, s2)] init).2
     = Ok (replace (replace (result (token 0)).1 p1 s1) (searched p2) (escape s2)))
  ∧ (convert (Returns (fun _ => ("<p>P1 P2</p>", [])))
       [("P1", "<b>1</b>"); ("P2", "<i>2</i>")] init).2
    = Ok "<p><b>1</b> &lt;i&gt;2&lt;/i&gt;</p>".
Proof.
  split.
  - intros result p1 s1 p2 s2. by rewrite convert_first.
  - rewrite convert_first. simpl. unfold Markup_replace, searched.
    by destruct escapes_searched.
Qed.

(** ** Hidden source lines ([_hide_lines]) *)

Section StringFacts.
Implicit Types (m s t a b x y : string) (c : ascii).

Lemma contains_cons m c s :
  contains m (String c s) = startswith m (String c s) || contains m s.
Proof. by destruct m. Qed.

Lemma startswith_nil m : startswith m EmptyString = true → m = EmptyString.
Proof. by destruct m. Qed.

Lemma contains_nil_l s : contains EmptyString s = true.
Proof. by destruct s. Qed.

Lemma startswith_app m a b : startswith m a = true → startswith m (a +:+ b) = true.
Proof.
  revert a. induction m as [|d m IH]; intros [|c a] H; try done.
  rewrite append_cons. simpl in *. case_bool_decide; [auto|done].
Qed.

Lemma contains_app_l m a b : contains m a = true → contains m (a +:+ b) = true.
Proof.
  induction a as [|c a IH]; intros H.
  - simpl in H. rewrite orb_false_r in H. apply startswith_nil in H as ->.
    apply contains_nil_l.
  - rewrite append_cons, contains_cons in *.
    apply orb_true_iff in H as [H|H]; apply orb_true_iff.
    + left. by apply (startswith_app m (String c a) b).
    + right. auto.
Qed.

Lemma contains_app_r m a b : contains m b = true → contains m (a +:+ b) = true.
Proof.
  intros H. induction a as [|c a IH]; [done|].
  rewrite append_cons, contains_cons, IH. apply orb_true_r.
Qed.

Lemma startswith_sep m x c y :
  startswith m (x +:+ String c y) = true → occurs c m = false →
  startswith m x = true.
Proof.
  revert x. induction m as [|d m IH]; intros x H Hc; [by destruct x|].
  simpl in Hc. apply orb_false_iff in Hc as [Hd Hc].
  apply bool_decide_eq_false in Hd.
  destruct x as [|e x].
  - rewrite append_nil_l in H. simpl in H. by case_bool_decide.
  - rewrite append_cons in H. simpl in *. case_bool_decide; [auto|done].
Qed.

(** An occurrence of [m] cannot span a character that [m] does not have. *)
Lemma contains_sep m x c y :
  contains m (x +:+ String c y) = true → occurs c m = false →
  contains m x = true ∨ contains m y = true.
Proof.
  intros H Hc. induction x as [|e x IH].
  - rewrite append_nil_l, contains_cons in H.
    apply orb_true_iff in H as [H|H]; [|by right].
    left. apply (startswith_sep m EmptyString c y) in H; [|done].
    simpl. by rewrite H.
  - rewrite append_cons, contains_cons in H.
    apply orb_true_iff in H as [H|H].
    + left. rewrite contains_cons.
      apply (startswith_sep m (String e x) c y) in H; [|done]. by rewrite H.
    + destruct (IH H) as [H'|H']; [left|by right].
      rewrite contains_cons, H'. apply orb_true_r.
Qed.

Lemma occurs_forall_chars P m c :
  forall_chars P m = true → P c = false → occurs c m = false.
Proof.
  induction m as [|d m IH]; [done|]. simpl. intros H Hc.
  apply andb_true_iff in H as [Hd H]. rewrite IH by done.
  case_bool_decide; [congruence|done].
Qed.

Lemma join_cons sep p q ps :
  join sep (p :: q :: ps) = p +:+ sep +:+ join sep (q :: ps).
Proof. reflexivity. Qed.

Lemma split_cons_nonempty sep s : split sep s ≠ [].
Proof.
  destruct s as [|c s]; [done|]. simpl. case_bool_decide; [done|].
  by destruct (split sep s).
Qed.

(** Joining the lines of a text gives the text back. *)
Lemma join_split s : join nl (split LF s) = s.
Proof.
  induction s as [|c s IH]; [done|]. simpl.
  pose proof (split_cons_nonempty LF s) as Hne.
  case_bool_decide as Hc.
  - subst c. destruct (split LF s) as [|l ls] eqn:E; [done|].
    rewrite join_cons, IH. done.
  - destruct (split LF s) as [|l ls] eqn:E; [done|].
    destruct ls as [|l' ls].
    + simpl in *. by rewrite IH.
    + rewrite join_cons in *. by rewrite append_cons, IH.
Qed.

Lemma contains_join_sep m ls :
  occurs LF m = false →
  Forall (fun l => contains m l = false) ls →
  ls ≠ [] → contains m (join nl ls) = false.
Proof.
  intros Hm Hls. induction Hls as [|l ls Hl Hls IH]; [done|]. intros _.
  destruct ls as [|l' ls]; [done|].
  rewrite join_cons. apply not_true_is_false. intros H.
  apply contains_sep in H as [H|H]; [congruence| |done].
  rewrite IH in H; done.
Qed.

Lemma contains_in_join m l ls :
  l ∈ ls → contains m l = true → contains m (join nl ls) = true.
Proof.
  intros Hin Hl. induction Hin as [l ls|l l' ls Hin IH].
  - destruct ls; [done|]. rewrite join_cons. by apply contains_app_l.
  - destruct ls as [|l'' ls]; [by apply elem_of_nil in Hin|].
    rewrite join_cons. by apply contains_app_r, contains_app_r, IH.
Qed.

Lemma lstrip_suffix s : ∃ t, s = t +:+ lstrip s.
Proof.
  induction s as [|c s [t IH]]; [by exists EmptyString|]. simpl.
  destruct (isspace c); [|by exists EmptyString].
  exists (String c t). by rewrite append_cons, <-IH.
Qed.

Lemma rstrip_prefix s : ∃ t, s = rstrip s +:+ t.
Proof.
  induction s as [|c s [t IH]]; [by exists EmptyString|]. simpl.
  destruct (rstrip s) as [|d r] eqn:E.
  - destruct (isspace c).
    + by exists (String c s).
    + exists s. done.
  - exists t. by rewrite append_cons, <-IH.
Qed.

Lemma contains_strip m s : contains m (strip s) = true → contains m s = true.
Proof.
  unfold strip. intros H.
  destruct (lstrip_suffix s) as [t Ht]. rewrite Ht. apply contains_app_r.
  destruct (rstrip_prefix (lstrip s)) as [u Hu]. rewrite Hu.
  by apply contains_app_l.
Qed.
End StringFacts.

Section StripFacts.
Implicit Types (m s t : string) (c : ascii).

Lemma lstrip_starts_unspaced s : starts_unspaced (lstrip s).
Proof.
  induction s as [|c s IH]; [done|]. simpl.
  destruct (isspace c) eqn:E; [done|]. done.
Qed.

Lemma lstrip_id s : starts_unspaced s → lstrip s = s.
Proof. destruct s as [|c s]; [done|]. simpl. by intros ->. Qed.

Lemma rstrip_starts_unspaced s : starts_unspaced s → starts_unspaced (rstrip s).
Proof.
  destruct s as [|c s]; [done|]. simpl. intros Hc.
  destruct (rstrip s); [by rewrite Hc|done].
Qed.

Lemma rstrip_idemp s : rstrip (rstrip s) = rstrip s.
Proof.
  induction s as [|c s IH]; [done|]. simpl.
  destruct (rstrip s) as [|d r] eqn:E.
  - destruct (isspace c) eqn:Hc; [done|]. simpl. by rewrite Hc.
  - change (rstrip (String c (String d r)))
      with (match rstrip (String d r) with
            | EmptyString => if isspace c then EmptyString else String c EmptyString
            | r' => String c r'
            end).
    by rewrite IH.
Qed.

Lemma strip_idemp s : strip (strip s) = strip s.
Proof.
  unfold strip.
  rewrite (lstrip_id (rstrip (lstrip s))).
  - apply rstrip_idemp.
  - apply rstrip_starts_unspaced, lstrip_starts_unspaced.
Qed.

Lemma hide_lines_unmarked source : contains hide_marker (_hide_lines source) = false.
Proof.
  unfold _hide_lines. apply not_true_is_false. intros H.
  apply contains_strip in H.
  destruct (filter _ (split LF source)) as [|l ls] eqn:E; [done|].
  rewrite contains_join_sep in H; [done|done| |done].
  rewrite <-E. apply Forall_forall. intros x Hx.
  by apply list_elem_of_filter in Hx as [Hx _].
Qed.

Lemma filter_all {A} (P : A → Prop) `{∀ x, Decision (P x)} (l : list A) :
  Forall P l → filter P l = l.
Proof.
  induction 1 as [|x l Hx Hl IH]; [done|].
  by rewrite filter_cons_True, IH.
Qed.

Lemma hide_lines_idemp source : _hide_lines (_hide_lines source) = _hide_lines source.
Proof.
  pose proof (hide_lines_unmarked source) as Hno.
  assert (strip (_hide_lines source) = _hide_lines source) as Hstrip.
  { unfold _hide_lines. apply strip_idemp. }
  set (shown := _hide_lines source) in *.
  unfold _hide_lines at 1.
  rewrite filter_all, join_split; [done|].
  apply Forall_forall. intros l Hl. apply not_true_is_false. intros Hc.
  rewrite <-(join_split shown) in Hno.
  by rewrite (contains_in_join _ l) in Hno.
Qed.
End StripFacts.

Section IndentFacts.
Implicit Types (m s t : string) (c : ascii).

Lemma string_ind2 (P : string → Prop) :
  P EmptyString →
  (∀ c, P (String c EmptyString)) →
  (∀ c c' s, P s → P (String c' s) → P (String c (String c' s))) →
  ∀ s, P s.
Proof.
  intros H0 H1 H2 s. enough (P s ∧ ∀ c, P (String c s)) by tauto.
  induction s as [|c' s [IH1 IH2]]; split; auto.
Qed.

Lemma join_empty_cons l ls :
  join EmptyString (l :: ls) = l +:+ join EmptyString ls.
Proof. destruct ls; [by rewrite append_nil_r|done]. Qed.

Lemma splitlines_cons c s :
  splitlines_keepends (String c s)
  = if is_linebreak c then
      match s with
      | String c' s'' =>
          if bool_decide (c = CR) && bool_decide (c' = LF)
          then String c (String c' EmptyString) :: splitlines_keepends s''
          else String c EmptyString :: splitlines_keepends s
      | EmptyString => [String c EmptyString]
      end
    else match splitlines_keepends s with
         | l :: ls => String c l :: ls
         | [] => [String c EmptyString]
         end.
Proof. reflexivity. Qed.

(** The lines put end to end are the text. *)
Lemma join_splitlines s : join EmptyString (splitlines_keepends s) = s.
Proof.
  induction s as [|c|c c' s IH1 IH2] using string_ind2.
  - done.
  - rewrite splitlines_cons. by destruct (is_linebreak c).
  - rewrite splitlines_cons. destruct (is_linebreak c).
    + destruct (_ && _).
      * by rewrite join_empty_cons, IH1.
      * by rewrite join_empty_cons, IH2.
    + destruct (splitlines_keepends (String c' s)) as [|l ls]; [done|].
      rewrite join_empty_cons in *. by rewrite append_cons, IH2.
Qed.

Lemma lines_ok_cons l ls :
  (ls ≠ [] → ∃ body c, l = body +:+ String c EmptyString ∧ is_linebreak c = true) →
  lines_ok ls → lines_ok (l :: ls).
Proof. destruct ls; [done|]. intros H ?. split; [by apply H|done]. Qed.

Lemma splitlines_ok s : lines_ok (splitlines_keepends s).
Proof.
  induction s as [|c|c c' s IH1 IH2] using string_ind2.
  - done.
  - rewrite splitlines_cons. by destruct (is_linebreak c).
  - rewrite splitlines_cons. destruct (is_linebreak c) eqn:Hc.
    + destruct (_ && _) eqn:Hcr.
      * apply lines_ok_cons; [|done]. intros _.
        apply andb_true_iff in Hcr as [_ Hlf].
        apply bool_decide_eq_true in Hlf as ->.
        by exists (String c EmptyString), LF.
      * apply lines_ok_cons; [|done]. intros _. by exists EmptyString, c.
    + destruct (splitlines_keepends (String c' s)) as [|l ls]; [done|].
      destruct ls as [|l' ls]; [done|]. destruct IH2 as [(body & d & -> & Hd) IH2].
      split; [|done]. by exists (String c body), d.
Qed.

Lemma no_linebreak_occurs m c :
  forall_chars (fun a => negb (is_linebreak a)) m = true →
  is_linebreak c = true → occurs c m = false.
Proof.
  intros Hm Hc. eapply occurs_forall_chars; [exact Hm|]. simpl. by rewrite Hc.
Qed.

Lemma contains_indented_lines m prefix ls :
  forall_chars (fun a => negb (is_linebreak a)) m = true →
  lines_ok ls →
  contains m (join EmptyString ls) = true →
  contains m (join EmptyString (map (indent_line prefix) ls)) = true.
Proof.
  intros Hm. induction ls as [|l ls IH]; [done|]. intros Hok H.
  rewrite map_cons, join_empty_cons in *.
  assert (contains m l = true → contains m (indent_line prefix l) = true) as Hf.
  { intros Hl. unfold indent_line. destruct (strip l); [done|].
    by apply contains_app_r. }
  destruct ls as [|l' ls].
  - simpl in *. rewrite append_nil_r in *. auto.
  - destruct Hok as [(body & c & -> & Hc) Hok].
    rewrite append_assoc, append_cons, append_nil_l in H.
    apply contains_sep in H as [H|H]; [| |by apply no_linebreak_occurs].
    + apply contains_app_l, Hf. by apply contains_app_l.
    + apply contains_app_r. by apply IH.
Qed.

(** Indenting a text keeps every occurrence of a string with no line break
    in it. *)
Lemma contains_indent m text prefix :
  forall_chars (fun a => negb (is_linebreak a)) m = true →
  contains m text = true → contains m (indent text prefix) = true.
Proof.
  intros Hm H. unfold indent.
  apply contains_indented_lines; [done|apply splitlines_ok|].
  by rewrite join_splitlines.
Qed.
End IndentFacts.

Ltac find_occurrence H :=
  lazymatch goal with
  | |- contains _ (_ +:+ _) = true =>
      first [ apply contains_app_l; find_occurrence H
            | apply contains_app_r; find_occurrence H ]
  | _ => exact H
  end.

(** ** Placement of the source ([add_source]) *)

Section AddSource.

Lemma clashes_mono parameters parameters' (options : Options) :
  (∀ n, n ∈ parameters → n ∈ parameters') →
  clashes parameters options → clashes parameters' options.
Proof.
  intros Hsub Hc. eapply Exists_impl; [exact Hc|]. simpl. auto.
Qed.

Lemma code_block_free language code (options : Options) :
  ¬ clashes reserved_names options →
  code_block language code options = Ok (code_block_text language code options).
Proof.
  intros Hfree. unfold code_block. rewrite decide_False; [done|].
  intros Hc. apply Hfree. eapply clashes_mono; [|exact Hc].
  intros n Hn. apply list_elem_of_In in Hn. apply list_elem_of_In. simpl in *. tauto.
Qed.

(** Without a clash of names [add_source] is its body, and the calls of
    [code_block] in it return. *)
Lemma add_source_free source location output language tabs (extra : Options) :
  ¬ clashes reserved_names extra →
  add_source source location output language tabs extra
  = let shown := _hide_lines source in
    if decide (location = "console") then
      Ok (code_block_text language (shown +:+ nl +:+ output) extra)
    else
    let source_block := code_block_text language shown extra in
    if decide (location = "above") then
      Ok (source_block +:+ nl +:+ nl +:+ output)
    else if decide (location = "below") then
      Ok (output +:+ nl +:+ nl +:+ source_block)
    else if decide (location = "material-block") then
      Ok (source_block +:+ nl +:+ nl +:+ "<div class=" +:+ dq +:+ "result" +:+ dq
          +:+ " " +:+ ("style=" +:+ dq +:+ "margin-top: 0;" +:+ dq)
          +:+ " markdown=" +:+ dq +:+ "1" +:+ dq +:+ " >"
          +:+ nl +:+ nl +:+ output +:+ nl +:+ nl +:+ "</div>")
    else if decide (location = "tabbed-left") then
      Ok (tabbed [(tabs.1, source_block); (tabs.2, output)])
    else if decide (location = "tabbed-right") then
      Ok (tabbed [(tabs.2, output); (tabs.1, source_block)])
    else
      Raise (ValueError ("unsupported location for sources: " +:+ location)).
Proof.
  intros Hfree. unfold add_source. rewrite decide_False.
  - rewrite !code_block_free by done. by destruct tabs.
  - intros Hc. apply Hfree. eapply clashes_mono; [|exact Hc].
    intros n Hn. apply list_elem_of_In in Hn. apply list_elem_of_In. simpl in *. tauto.
Qed.

(** With a clash of names the call raises [TypeError], whatever the
    location: the clash is with a parameter of [add_source] itself, or with
    the parameter [code] of [code_block], which is called on every path
    before a location is refused. *)
Lemma add_source_clash source location output language tabs (extra : Options) :
  clashes reserved_names extra →
  add_source source location output language tabs extra = Raise TypeError.
Proof.
  intros Hc. unfold add_source. case_decide as H5; [done|].
  assert (clashes ["language"; "code"] extra) as H2.
  { apply Exists_exists in Hc as (o & Ho & Hn). apply Exists_exists.
    exists o. split; [done|].
    destruct (decide (o.1 ∈ ["source"; "location"; "output"; "language"; "tabs"]))
      as [Hin|Hout].
    - destruct H5. apply Exists_exists. eauto.
    - apply list_elem_of_In in Hn. apply list_elem_of_In.
      rewrite list_elem_of_In in Hout. simpl in *. tauto. }
  unfold code_block.
  destruct (decide (clashes ["language"; "code"] extra)); [|done].
  by case_decide.
Qed.

(** The output reaches the assembled text. *)
Lemma contains_add_source m source location output language tabs extra assembled :
  forall_chars (fun a => negb (is_linebreak a)) m = true →
  add_source source location output language tabs extra = Ok assembled →
  contains m output = true →
  contains m assembled = true.
Proof.
  intros Hm Ha H.
  destruct (decide (clashes reserved_names extra)) as [Hc|Hfree].
  { by rewrite add_source_clash in Ha. }
  rewrite add_source_free in Ha by done. simpl in Ha.
  pose proof (contains_indent m output "    " Hm H) as Hi.
  repeat case_decide; simplify_eq; unfold code_block_text, tabbed;
    cbn [flat_map app join];
    first [find_occurrence H | find_occurrence Hi].
Qed.

(** So does the source that is shown. *)
Lemma contains_add_source_shown m source location output language tabs extra assembled :
  forall_chars (fun a => negb (is_linebreak a)) m = true →
  add_source source location output language tabs extra = Ok assembled →
  contains m (_hide_lines source) = true →
  contains m assembled = true.
Proof.
  intros Hm Ha H.
  destruct (decide (clashes reserved_names extra)) as [Hc|Hfree].
  { by rewrite add_source_clash in Ha. }
  rewrite add_source_free in Ha by done. simpl in Ha.
  assert (contains m (code_block_text language (_hide_lines source) extra) = true)
    as Hb.
  { unfold code_block_text. find_occurrence H. }
  pose proof (contains_indent m _ "    " Hm Hb) as Hi.
  repeat case_decide; simplify_eq; unfold tabbed;
    cbn [flat_map app join];
    first [ unfold code_block_text; find_occurrence H
          | find_occurrence Hb | find_occurrence Hi ].
Qed.



End AddSource.




Section HiddenLines.

Lemma lstrip_blank_prefix s : ∃ pre, s = pre +:+ lstrip s ∧ blank pre.
Proof.
  induction s as [|c s (pre & IH & Hpre)]; [by exists EmptyString|]. simpl.
  destruct (isspace c) eqn:Hc; [|by exists EmptyString].
  exists (String c pre). split; [by rewrite append_cons, <-IH|].
  unfold blank in *. simpl. by rewrite Hc.
Qed.

Lemma rstrip_blank_suffix s : ∃ post, s = rstrip s +:+ post ∧ blank post.
Proof.
  induction s as [|c s (post & IH & Hpost)]; [by exists EmptyString|]. simpl.
  destruct (rstrip s) as [|d r] eqn:E.
  - rewrite append_nil_l in IH. subst post.
    destruct (isspace c) eqn:Hc.
    + exists (String c s). split; [done|]. unfold blank in *. simpl. by rewrite Hc.
    + exists s. done.
  - exists post. by rewrite append_cons, <-IH.
Qed.

Lemma rstrip_ends_unspaced s : ends_unspaced (rstrip s).
Proof.
  induction s as [|c s IH]; [done|]. simpl.
  destruct (rstrip s) as [|d r] eqn:E.
  - by destruct (isspace c) eqn:Hc.
  - exact IH.
Qed.

(** What [_hide_lines] returns: the lines without the marker, joined, less
    the whitespace at both ends. *)
Lemma hide_lines_kept source :
  ∃ pre post,
    join nl (filter (fun line => contains hide_marker line = false) (split LF source))
    = pre +:+ _hide_lines source +:+ post
    ∧ blank pre ∧ blank post.
Proof.
  unfold _hide_lines, strip.
  set (kept := join nl _).
  destruct (lstrip_blank_prefix kept) as (pre & Hpre & Hbpre).
  destruct (rstrip_blank_suffix (lstrip kept)) as (post & Hpost & Hbpost).
  exists pre, post. by rewrite <-Hpost, <-Hpre.
Qed.

Lemma hide_lines_unspaced source :
  starts_unspaced (_hide_lines source) ∧ ends_unspaced (_hide_lines source).
Proof.
  unfold _hide_lines, strip. split.
  - apply rstrip_starts_unspaced, lstrip_starts_unspaced.
  - apply rstrip_ends_unspaced.
Qed.

Lemma add_source_of_shown source location output language tabs extra :
  add_source source location output language tabs extra
  = add_source (_hide_lines source) location output language tabs extra.
Proof. unfold add_source. by rewrite hide_lines_idemp. Qed.

End HiddenLines.

(** C10. Whatever the location, [add_source] works on the source without
    the lines that hold the marker and without the whitespace at both ends:
    the text [shown] that it works on is the lines of the source that do
    not hold the marker, joined by line feeds, less a run of whitespace at
    the start and one at the end; it begins and ends with a character that
    is no whitespace, and holds no marker. The outcome is the one for that
    text, and what is assembled holds what that text holds. The output is
    not filtered: what it holds, markers included, reaches the assembled
    text. *)
Theorem add_source_hides_marked_lines source location output language tabs extra :
  let kept := filter (fun line => contains hide_marker line = false)
                (split LF source) in
  let shown := _hide_lines source in
  (∃ pre post, join nl kept = pre +:+ shown +:+ post ∧ blank pre ∧ blank post)
  ∧ starts_unspaced shown ∧ ends_unspaced shown
  ∧ contains hide_marker shown = false
  ∧ add_source source location output language tabs extra
    = add_source shown location output language tabs extra
  ∧ ∀ assembled,
      add_source source location output language tabs extra = Ok assembled →
      (∀ m, forall_chars (fun a => negb (is_linebreak a)) m = true →
            contains m shown = true → contains m assembled = true)
      ∧ (∀ m, forall_chars (fun a => negb (is_linebreak a)) m = true →
              contains m output = true → contains m assembled = true)
      ∧ (contains hide_marker output = true →
         contains hide_marker assembled = true).
Proof.
  intros kept shown.
  split; [apply hide_lines_kept|].
  split; [apply hide_lines_unspaced|].
  split; [apply hide_lines_unspaced|].
  split; [apply hide_lines_unmarked|].
  split; [apply add_source_of_shown|].
  intros assembled Ha. split; [|split].
  - intros m Hm H. by eapply contains_add_source_shown.
  - intros m Hm H. by eapply contains_add_source.
  - intros H. by eapply contains_add_source.
Qed.

Lemma add_source_hides_marked_lines_witness :
  add_source ("  $ ls" +:+ nl +:+ "$ cd # markdown-exec: hide") "above"
    "markdown-exec: hide" "console" ("Source", "Result") []
  = Ok ("````````console " +:+ nl +:+ "$ ls" +:+ nl +:+ "````````"
        +:+ nl +:+ nl +:+ "markdown-exec: hide")
  ∧ contains "$ ls"
      ("````````console " +:+ nl +:+ "$ ls" +:+ nl +:+ "````````"
       +:+ nl +:+ nl +:+ "markdown-exec: hide") = true
  ∧ contains hide_marker
      ("````````console " +:+ nl +:+ "$ ls" +:+ nl +:+ "````````"
       +:+ nl +:+ nl +:+ "markdown-exec: hide") = true.
Proof.
  split; [reflexivity|].
  destruct (add_source_hides_marked_lines
              ("  $ ls" +:+ nl +:+ "$ cd # markdown-exec: hide") "above"
              "markdown-exec: hide" "console" ("Source", "Result") [])
    as (_ & _ & _ & _ & _ & Hassembled).
  destruct (Hassembled _ eq_refl) as (Hshown & _ & Hout).
  split; [apply Hshown; reflexivity|apply Hout; reflexivity].
Defined.

(** ** Walking a tree ([Element.iter]) *)

Lemma Tree_ind' (P : Tree → Prop) :
  (∀ l e kids, Forall P kids → P (Node l e kids)) → ∀ t, P t.
Proof.
  intros H. fix IH 1. intros [l e kids]. apply H.
  induction kids as [|k kids IHk]; constructor; [apply IH|exact IHk].
Qed.

Lemma repr_kids h kids :
  foldr (fun k P => repr h k ∧ P) True kids ↔ Forall (repr h) kids.
Proof.
  induction kids as [|k kids IH]; simpl.
  - split; [constructor|done].
  - rewrite Forall_cons, IH. done.
Qed.

Section IterFacts.
Context {St : Type} (heap_of : St → Heap) (body : loc → St → Out St).

Lemma iter_S fuel el s :
  iter heap_of body (S fuel) el s
  = out_bind (body el s) (iter_children heap_of body fuel el 0).
Proof. reflexivity. Qed.

Lemma iter_children_S fuel el i s :
  iter_children heap_of body (S fuel) el i s
  = match heap_of s !! el with
    | None => Stuck
    | Some e =>
        match children e !! i with
        | None => Done s
        | Some child =>
            out_bind (iter heap_of body fuel child s)
              (iter_children heap_of body fuel el (S i))
        end
    end.
Proof. reflexivity. Qed.

(** More fuel does not change a result. *)
Lemma iter_mono fuel :
  (∀ el s o, iter heap_of body fuel el s = o → o ≠ Stuck →
     ∀ fuel', fuel ≤ fuel' → iter heap_of body fuel' el s = o)
  ∧ (∀ el i s o, iter_children heap_of body fuel el i s = o → o ≠ Stuck →
       ∀ fuel', fuel ≤ fuel' → iter_children heap_of body fuel' el i s = o).
Proof.
  induction fuel as [|fuel [IH1 IH2]].
  - split; intros; simpl in *; congruence.
  - split.
    + intros el s o Ho Hns [|fuel'] Hle; [lia|]. simpl in *.
      destruct (body el s) as [s1| |]; simpl in *; [|done|done].
      apply IH2; [done|done|lia].
    + intros el i s o Ho Hns [|fuel'] Hle; [lia|]. simpl in *.
      destruct (heap_of s !! el) as [e|]; [|done].
      destruct (children e !! i) as [child|]; [|done].
      destruct (iter heap_of body fuel child s) as [s1|ex|] eqn:E;
        simpl in *; [| |congruence].
      * rewrite (IH1 child s (Done s1)); [|done|done|lia]. simpl.
        apply IH2; [done|done|lia].
      * rewrite (IH1 child s (Raised ex)); [|done|done|lia]. done.
Qed.
End IterFacts.

(** ** The heading harvesting processor *)

Section HarvestFacts.
Variable permalink_class : string.

Lemma harvested_kids h kids :
  harvest_copy permalink_class h
    <$> filter (fun e => HeadingReporting.is_heading_tag (tag e) = true)
          (flat_map preorder kids)
  = flat_map (harvested permalink_class h) kids.
Proof.
  induction kids as [|k kids IH]; [done|]. simpl.
  by rewrite filter_app, fmap_app, IH.
Qed.

Lemma harvested_node h l e kids :
  harvested permalink_class h (Node l e kids)
  = (if HeadingReporting.is_heading_tag (tag e)
     then [harvest_copy permalink_class h e] else [])
    ++ flat_map (harvested permalink_class h) kids.
Proof.
  unfold harvested at 1.
  change (preorder (Node l e kids)) with (e :: flat_map preorder kids).
  rewrite filter_cons. case_decide as Hd.
  - by rewrite Hd, fmap_cons, harvested_kids.
  - apply not_true_is_false in Hd as ->. by rewrite harvested_kids.
Qed.

(** One step of the loop on an element of the original store [h0], when
    the store has grown by [ext]. *)
Lemma visit_spec h0 ext acc l e kids :
  repr h0 (Node l e kids) →
  HeadingReporting.visit permalink_class l (h0 ++ ext, acc)
  = if HeadingReporting.is_heading_tag (tag e)
    then Done (h0 ++ ext ++ [harvest_copy permalink_class h0 e], acc ++ [length h0 + length ext])
    else Done (h0 ++ ext, acc).
Proof.
  intros (Hl & Hkids & Hrepr). unfold HeadingReporting.visit.
  rewrite (lookup_app_l_Some _ _ _ _ Hl).
  destruct (HeadingReporting.is_heading_tag (tag e)); [|done].
  rewrite length_app, <-!app_assoc. unfold harvest_copy.
  destruct (last (children e)) as [c|] eqn:Hlast; simpl; [|done].
  assert (∃ ce, h0 !! c = Some ce) as [ce Hce].
  { apply repr_kids in Hrepr. rewrite Hkids, fmap_last in Hlast.
    destruct (last kids) as [[c' ce kids']|] eqn:Hk; simplify_eq/=.
    apply last_Some_elem_of in Hk.
    eapply Forall_forall in Hrepr; [|exact Hk]. destruct Hrepr as [? _]. eauto. }
  rewrite Hce.
  rewrite (lookup_app_l_Some _ _ _ _ Hce).
  case_decide; [|done].
  f_equal. f_equal. rewrite !app_assoc.
  rewrite <-(Nat.add_0_r (length h0 + length ext)), <-length_app.
  by rewrite insert_app_r.
Qed.

Lemma harvest_iter h0 t :
  repr h0 t →
  ∃ fuel0, ∀ fuel ext acc, fuel0 ≤ fuel →
    iter fst (HeadingReporting.visit permalink_class) fuel (root t) (h0 ++ ext, acc)
    = Done (h0 ++ ext ++ harvested permalink_class h0 t,
            acc ++ seq (length h0 + length ext) (length (harvested permalink_class h0 t))).
Proof.
  induction t as [l e kids IH] using Tree_ind'. intros Hrepr.
  pose proof Hrepr as (Hl & Hkids & Hall). apply repr_kids in Hall.
  set (new := if HeadingReporting.is_heading_tag (tag e)
              then [harvest_copy permalink_class h0 e] else []).
  assert (∀ suf pre, kids = pre ++ suf →
    ∃ fuel0, ∀ fuel ext acc, fuel0 ≤ fuel →
      iter_children fst (HeadingReporting.visit permalink_class) fuel l (length pre) (h0 ++ ext, acc)
      = Done (h0 ++ ext ++ flat_map (harvested permalink_class h0) suf,
              acc ++ seq (length h0 + length ext)
                       (length (flat_map (harvested permalink_class h0) suf))))
    as Hkids_iter.
  { induction suf as [|k suf IHsuf]; intros pre Hpre.
    - exists 1. intros [|fuel] ext acc Hfuel; [lia|]. simpl.
      rewrite (lookup_app_l_Some _ _ _ _ Hl).
      rewrite lookup_ge_None_2.
      + by rewrite !app_nil_r.
      + rewrite Hkids, Hpre, length_fmap, app_nil_r. done.
    - assert (k ∈ kids) as Hk.
      { rewrite Hpre. apply elem_of_app. right. left. }
      destruct (proj1 (Forall_forall _ _) IH k Hk) as [f1 Hf1].
      { by eapply Forall_forall in Hall. }
      destruct (IHsuf (pre ++ [k])) as [f2 Hf2].
      { by rewrite <-app_assoc. }
      exists (S (f1 `max` f2)). intros [|fuel] ext acc Hfuel; [lia|]. simpl.
      rewrite (lookup_app_l_Some _ _ _ _ Hl).
      assert (children e !! length pre = Some (root k)) as ->.
      { rewrite Hkids, Hpre, fmap_app, lookup_app_r, length_fmap by
          (rewrite length_fmap; lia).
        by rewrite Nat.sub_diag. }
      rewrite Hf1 by lia. simpl.
      replace (S (length pre)) with (length (pre ++ [k]))
        by (rewrite length_app; simpl; lia).
      rewrite Hf2 by lia.
      rewrite !length_app, <-!app_assoc, seq_app. by rewrite Nat.add_assoc. }
  destruct (Hkids_iter kids []) as [f0 Hf0]; [done|].
  exists (S f0). intros [|fuel] ext acc Hfuel; [lia|].
  change (root (Node l e kids)) with l. rewrite iter_S.
  rewrite (visit_spec h0 ext acc l e kids Hrepr), harvested_node.
  fold new. subst new.
  destruct (HeadingReporting.is_heading_tag (tag e)); simpl.
  - rewrite Hf0 by lia. rewrite length_app, <-!app_assoc. simpl.
    f_equal. f_equal. f_equal. f_equal. f_equal. lia.
  - rewrite Hf0 by lia. done.
Qed.
End HarvestFacts.

(** C8. Run on a tree held by the store, the harvesting processor
    allocates one copy per heading of level 1 to 6 (tag [h1]..[h6] or
    [H1]..[H6]), in document order, and appends the references of the
    copies to the accumulator in that order; a copy is the record of the
    heading, without its last child when that child carries the permalink
    class of the host. The store only grows: every element it held is
    unchanged. *)
Theorem harvest_run permalink_class (h : Heap) (t : Tree) (headings : list loc) :
  repr h t →
  let copies := harvested permalink_class h t in
  (∃ fuel0, ∀ fuel, fuel0 ≤ fuel →
     HeadingReporting.run permalink_class fuel (root t) (h, headings)
     = Done (h ++ copies, headings ++ seq (length h) (length copies)))
  ∧ (∀ l e, h !! l = Some e → (h ++ copies) !! l = Some e)
  ∧ (∀ i, (h ++ copies) !! (length h + i) = copies !! i).
Proof.
  intros Hrepr copies. split; [|split].
  - destruct (harvest_iter permalink_class h t Hrepr) as [fuel0 Hrun].
    exists fuel0. intros fuel Hfuel. unfold HeadingReporting.run.
    specialize (Hrun fuel [] headings Hfuel).
    rewrite app_nil_r in Hrun. simpl in Hrun.
    by rewrite Nat.add_0_r in Hrun.
  - intros l e Hl. by apply lookup_app_l_Some.
  - intros i. by rewrite lookup_app_r, Nat.add_sub' by lia.
Qed.

Lemma harvest_run_witness :
  (∃ fuel0, ∀ fuel, fuel0 ≤ fuel →
     HeadingReporting.run "headerlink" fuel 0 (fragment_store, [])
     = Done (fragment_store
               ++ [mkElement "h1" {[ "id" := "exec-0--title" ]} (Some "Title") None []],
             [4]))
  ∧ (∀ l e, fragment_store !! l = Some e →
            (fragment_store ++ harvested "headerlink" fragment_store fragment_tree) !! l
            = Some e).
Proof.
  assert (repr fragment_store fragment_tree) as Hrepr.
  { simpl. repeat split; reflexivity. }
  destruct (harvest_run "headerlink" fragment_store fragment_tree [] Hrepr)
    as (Hrun & Hframe & _).
  split; [exact Hrun|exact Hframe].
Defined.

(** The same run with the fuel given: the copy has lost the permalink, the
    heading in the tree has kept it. *)
Example harvest_example :
  match HeadingReporting.run "headerlink" 10 0 (fragment_store, []) with
  | Done (h, headings) =>
      headings = [4]
      ∧ children <$> h !! 4 = Some []
      ∧ children <$> h !! 1 = Some [2]
      ∧ take 4 h = fragment_store
  | _ => False
  end.
Proof. vm_compute. done. Qed.

(** ** The Insertion transform *)

Lemma locs_node l e kids : locs (Node l e kids) = l :: flat_map locs kids.
Proof. reflexivity. Qed.

Lemma elem_of_flat_map {A B} (f : A → list B) (l : list A) (y : B) :
  y ∈ flat_map f l ↔ ∃ x, x ∈ l ∧ y ∈ f x.
Proof.
  rewrite !list_elem_of_In, in_flat_map.
  by setoid_rewrite list_elem_of_In.
Qed.

Lemma repr_lookup h t : repr h t → ∀ l, l ∈ locs t → is_Some (h !! l).
Proof.
  induction t as [l e kids IH] using Tree_ind'.
  intros (Hl & _ & Hkids) l' Hin. apply repr_kids in Hkids.
  rewrite locs_node in Hin. apply elem_of_cons in Hin as [->|Hin]; [eauto|].
  apply elem_of_flat_map in Hin as (k & Hk & Hin).
  eapply Forall_forall in IH; [|exact Hk].
  eapply Forall_forall in Hkids; [|exact Hk]. eauto.
Qed.

Lemma repr_lt h t l : repr h t → l ∈ locs t → l < length h.
Proof.
  intros Hr Hin. destruct (repr_lookup h t Hr l Hin) as [e He].
  by apply lookup_lt_Some in He.
Qed.

Section InsertFacts.
Variable stash : gmap string string.
Variable headings : gmap string (list loc).

Lemma changes_within_refl S h : changes_within S h h.
Proof. by split. Qed.

Lemma changes_within_trans S1 S2 S h1 h2 h3 :
  changes_within S1 h1 h2 → changes_within S2 h2 h3 →
  (∀ l, l ∈ S1 → l ∈ S) → (∀ l, l ∈ S2 → l ∈ S) →
  changes_within S h1 h3.
Proof.
  intros [Hl1 H1] [Hl2 H2] HS1 HS2. split; [lia|].
  intros l e Hl Hn. apply H2; [apply H1|]; naive_solver.
Qed.

Lemma repr_frame S h h' t :
  repr h t → changes_within S h h' → (∀ l, l ∈ locs t → l ∉ S) → repr h' t.
Proof.
  intros Hr [_ Hcw]. induction t as [l e kids IH] using Tree_ind'.
  destruct Hr as (Hl & Hkids & Hall). apply repr_kids in Hall. intros Hdisj.
  split; [|split; [done|]].
  - apply Hcw; [done|]. apply Hdisj. rewrite locs_node. left.
  - apply repr_kids. apply Forall_forall. intros k Hk.
    eapply Forall_forall in IH; [|exact Hk]. apply IH.
    + by eapply Forall_forall in Hall.
    + intros l' Hl'. apply Hdisj. rewrite locs_node. right.
      apply elem_of_flat_map. eauto.
Qed.

Lemma inserted_kids h0 h' kids :
  foldr (fun k P => inserted stash headings h0 h' k ∧ P) True kids
  ↔ Forall (inserted stash headings h0 h') kids.
Proof.
  induction kids as [|k kids IH]; simpl.
  - split; [constructor|done].
  - rewrite Forall_cons, IH. done.
Qed.

(** Later changes elsewhere leave what was inserted. *)
Lemma inserted_frame S h0 h' h'' t :
  inserted stash headings h0 h' t → changes_within S h' h'' →
  (∀ l, l ∈ locs t → l ∉ S) → (∀ l, l ∈ S → l < length h0) →
  inserted stash headings h0 h'' t.
Proof.
  intros Hi [_ Hcw] Hdisj HS. induction t as [l e kids IH] using Tree_ind'.
  destruct Hi as [Hl Hkids]. apply inserted_kids in Hkids. split.
  - assert (l ∉ S) as HlS by (apply Hdisj; rewrite locs_node; left).
    destruct (matched stash e) as [key|]; [|by apply Hcw].
    destruct Hl as (hs & d & Hhs & Hd & Hl & Hm).
    exists hs, d. repeat split; [done|done|by apply Hcw|].
    apply Hcw; [done|]. intros HdS. apply HS in HdS. lia.
  - apply inserted_kids, Forall_forall. intros k Hk.
    eapply Forall_forall in IH; [|exact Hk]. apply IH.
    + by eapply Forall_forall in Hkids.
    + intros l' Hl'. apply Hdisj. rewrite locs_node. right.
      apply elem_of_flat_map. eauto.
Qed.

Lemma inserted_mono h0 h1 h' t :
  length h0 ≤ length h1 →
  inserted stash headings h1 h' t → inserted stash headings h0 h' t.
Proof.
  intros Hlen. induction t as [l e kids IH] using Tree_ind'.
  intros [Hl Hkids]. apply inserted_kids in Hkids. split.
  - destruct (matched stash e) as [key|]; [|done].
    destruct Hl as (hs & d & ? & ? & ? & ?). exists hs, d.
    repeat split; [done|lia|done|done].
  - apply inserted_kids, Forall_forall. intros k Hk.
    eapply Forall_forall in IH; [|exact Hk]. apply IH.
    by eapply Forall_forall in Hkids.
Qed.

Lemma headings_ok_frame S S' h h' :
  headings_ok stash headings h S → changes_within S' h h' →
  (∀ l, l ∈ S' → l ∈ S) → headings_ok stash headings h' S.
Proof.
  intros Hok Hcw Hsub key hs hl Hhs Hhl.
  destruct (Hok key hs hl Hhs Hhl) as (ht & Hroot & Hrepr & Hpas & Hdisj).
  exists ht. repeat split; [done| |done|done].
  eapply repr_frame; [done|done|]. naive_solver.
Qed.

Lemma headings_ok_sub S S' h :
  headings_ok stash headings h S → (∀ l, l ∈ S' → l ∈ S) →
  headings_ok stash headings h S'.
Proof.
  intros Hok Hsub key hs hl Hhs Hhl.
  destruct (Hok key hs hl Hhs Hhl) as (ht & Hroot & Hrepr & Hpas & Hdisj).
  exists ht. naive_solver.
Qed.
End InsertFacts.

Section InsertWalk.
Variable stash : gmap string string.
Variable headings : gmap string (list loc).

Lemma visit_unmatched h l e :
  h !! l = Some e → matched stash e = None →
  InsertHeadings.visit (Some stash) headings l h = Done h.
Proof.
  intros Hl Hm. unfold InsertHeadings.visit, matched in *. by rewrite Hl, Hm.
Qed.

Lemma visit_matched h l e key hs :
  h !! l = Some e → matched stash e = Some key → headings !! key = Some hs →
  InsertHeadings.visit (Some stash) headings l h
  = Done (<[l := set_children (children e ++ [length h]) e]> (h ++ [marker_div hs])).
Proof.
  intros Hl Hm Hhs. unfold InsertHeadings.visit, matched in *.
  by rewrite Hl, Hm, Hhs.
Qed.

Lemma quiet_children h l e i0 :
  h !! l = Some e →
  (∀ i c, i0 ≤ i → children e !! i = Some c → quiet stash headings h c) →
  ∃ fuel0, ∀ fuel, fuel0 ≤ fuel →
    iter_children id (InsertHeadings.visit (Some stash) headings) fuel l i0 h = Done h.
Proof.
  intros Hl. remember (length (children e) - i0) as n eqn:Hn.
  revert i0 Hn. induction n as [|n IH]; intros i0 Hn Hq.
  - exists 1. intros [|fuel] Hfuel; [lia|]. rewrite iter_children_S. simpl.
    rewrite Hl, lookup_ge_None_2; [done|lia].
  - destruct (children e !! i0) as [c|] eqn:Hc.
    2:{ apply lookup_ge_None in Hc. lia. }
    destruct (Hq i0 c) as [f1 Hf1]; [lia|done|].
    destruct (IH (S i0)) as [f2 Hf2]; [lia|intros; eapply Hq; [|done]; lia|].
    exists (S (f1 `max` f2)). intros [|fuel] Hfuel; [lia|].
    rewrite iter_children_S. simpl. rewrite Hl, Hc, Hf1 by lia. simpl.
    apply Hf2. lia.
Qed.

Lemma quiet_node h l e :
  h !! l = Some e → matched stash e = None →
  (∀ c, c ∈ children e → quiet stash headings h c) → quiet stash headings h l.
Proof.
  intros Hl Hm Hq.
  destruct (quiet_children h l e 0 Hl) as [f0 Hf0].
  { intros i c _ Hc. apply Hq. by eapply list_elem_of_lookup_2. }
  exists (S f0). intros [|fuel] Hfuel; [lia|]. rewrite iter_S.
  rewrite (visit_unmatched h l e Hl Hm). simpl. apply Hf0. lia.
Qed.

Lemma passive_quiet h t : repr h t → passive stash t → quiet stash headings h (root t).
Proof.
  induction t as [l e kids IH] using Tree_ind'.
  intros (Hl & Hkids & Hall) Hpas. apply repr_kids in Hall.
  unfold passive in Hpas. simpl in Hpas. apply Forall_cons in Hpas as [He Hpas].
  apply (quiet_node h l e Hl He). intros c Hc.
  rewrite Hkids in Hc. apply list_elem_of_fmap in Hc as (k & -> & Hk).
  eapply Forall_forall in IH; [|exact Hk]. apply IH.
  - by eapply Forall_forall in Hall.
  - unfold passive. apply Forall_forall. intros e' He'.
    eapply Forall_forall in Hpas; [exact Hpas|].
    apply elem_of_flat_map. eauto.
Qed.

(** A marker container is left alone, and so are the headings in it. *)
Lemma marker_quiet h S d hs key :
  h !! d = Some (marker_div hs) → headings !! key = Some hs →
  headings_ok stash headings h S → quiet stash headings h d.
Proof.
  intros Hd Hhs Hok. apply (quiet_node h d (marker_div hs) Hd); [done|].
  intros c Hc. simpl in Hc.
  destruct (Hok key hs c Hhs Hc) as (ht & <- & Hrepr & Hpas & _).
  by apply passive_quiet.
Qed.
End InsertWalk.

Section InsertMain.
Variable stash : gmap string string.
Variable headings : gmap string (list loc).

Lemma NoDup_flat_map_split {A B} (f : A → list B) pre k suf :
  NoDup (flat_map f (pre ++ k :: suf)) →
  NoDup (f k) ∧ NoDup (flat_map f suf)
  ∧ ∀ x, x ∈ f k → x ∉ flat_map f suf.
Proof.
  rewrite flat_map_app. simpl. intros Hnd.
  apply NoDup_app in Hnd as (_ & _ & Hnd).
  apply NoDup_app in Hnd as (H1 & H2 & H3). done.
Qed.

(** The state of a node once the loop body has run on it: [e1] is its
    record, [extra] the marker container appended, if any. *)
Lemma visit_node h l e kids :
  h !! l = Some e → children e = root <$> kids →
  (∀ key, matched stash e = Some key → is_Some (headings !! key)) →
  ∃ h1 e1 extra,
    InsertHeadings.visit (Some stash) headings l h = Done h1
    ∧ h1 !! l = Some e1
    ∧ children e1 = (root <$> kids) ++ extra
    ∧ changes_within [l] h h1
    ∧ (∀ d, d ∈ extra →
         length h ≤ d ∧ d ≠ l
         ∧ ∃ key hs, headings !! key = Some hs ∧ h1 !! d = Some (marker_div hs))
    ∧ (∀ h' : Heap, h' !! l = Some e1 →
         (∀ d x, d ∈ extra → h1 !! d = Some x → h' !! d = Some x) →
         match matched stash e with
         | None => h' !! l = Some e
         | Some key =>
             ∃ hs d, headings !! key = Some hs ∧ length h ≤ d
                     ∧ h' !! l = Some (set_children (children e ++ [d]) e)
                     ∧ h' !! d = Some (marker_div hs)
         end).
Proof.
  intros Hl Hkids Hrec. destruct (matched stash e) as [key|] eqn:Hm.
  - destruct (Hrec key eq_refl) as [hs Hhs].
    pose proof (lookup_lt_Some _ _ _ Hl) as Hlt.
    exists (<[l := set_children (children e ++ [length h]) e]> (h ++ [marker_div hs])),
      (set_children (children e ++ [length h]) e), [length h].
    assert ((<[l := set_children (children e ++ [length h]) e]> (h ++ [marker_div hs]))
              !! length h = Some (marker_div hs)) as Hd.
    { rewrite list_lookup_insert_ne by lia.
      by rewrite lookup_app_r, Nat.sub_diag by lia. }
    split; [by eapply visit_matched|]. split.
    { apply list_lookup_insert_eq. rewrite length_app. lia. }
    split; [by rewrite <-Hkids|]. split.
    { split; [rewrite length_insert, length_app; lia|].
      intros l' e' Hl' Hn. rewrite list_elem_of_singleton in Hn.
      rewrite list_lookup_insert_ne by congruence. by apply lookup_app_l_Some. }
    split.
    { intros d Hdin. apply list_elem_of_singleton in Hdin as ->.
      split; [done|]. split; [lia|]. eauto. }
    intros h' Hl' Hx. exists hs, (length h).
    repeat split; [done|done|done|]. apply Hx; [left|done].
  - exists h, e, []. split; [by eapply visit_unmatched|]. split; [done|].
    split; [by rewrite app_nil_r|]. split; [apply changes_within_refl|].
    split; [intros d Hd; by apply elem_of_nil in Hd|]. done.
Qed.

Lemma insert_iter t :
  ∀ h, repr h t → NoDup (locs t) →
       recorded_for stash headings t → headings_ok stash headings h (locs t) →
  ∃ fuel0 h',
    (∀ fuel, fuel0 ≤ fuel →
       iter id (InsertHeadings.visit (Some stash) headings) fuel (root t) h = Done h')
    ∧ inserted stash headings h h' t
    ∧ changes_within (locs t) h h'.
Proof.
  induction t as [l e kids IH] using Tree_ind'. intros h Hrepr Hnd Hrec Hok.
  pose proof Hrepr as (Hl & Hkids & Hall). apply repr_kids in Hall.
  rewrite locs_node in Hnd, Hok. apply NoDup_cons in Hnd as [Hlk Hndk].
  assert (∀ k x, k ∈ kids → x ∈ locs k → x < length h ∧ x ≠ l) as Hklocs.
  { intros k x Hk Hx. split.
    - eapply repr_lt; [|exact Hx]. by eapply Forall_forall in Hall.
    - intros ->. apply Hlk, elem_of_flat_map. eauto. }
  destruct (visit_node h l e kids Hl Hkids)
    as (h1 & e1 & extra & Hvisit & Hl1 & Hkids1 & Hcw1 & Hextra & Hnode).
  { intros key Hkey. eapply Hrec; [|exact Hkey]. simpl. left. }
  assert (∀ suf pre hc, kids = pre ++ suf →
            Forall (repr hc) suf → hc !! l = Some e1 →
            (∀ d x, d ∈ extra → h1 !! d = Some x → hc !! d = Some x) →
            headings_ok stash headings hc (l :: flat_map locs kids) →
            length h ≤ length hc →
            ∃ fuel0 h',
              (∀ fuel, fuel0 ≤ fuel →
                 iter_children id (InsertHeadings.visit (Some stash) headings) fuel l
                   (length pre) hc = Done h')
              ∧ Forall (inserted stash headings hc h') suf
              ∧ changes_within (flat_map locs suf) hc h') as Hwalk.
  { induction suf as [|k suf IHsuf]; intros pre hc Hpre Hreprs Hlc Hdc Hokc Hlen.
    - destruct (quiet_children stash headings hc l e1 (length pre) Hlc) as [f0 Hf0].
      { intros i c Hi Hc. rewrite Hkids1, Hpre, app_nil_r in Hc.
        rewrite lookup_app_r in Hc by (rewrite length_fmap; lia).
        apply list_elem_of_lookup_2 in Hc.
        destruct (Hextra c Hc) as (_ & _ & key & hs & Hhs & Hm).
        eapply marker_quiet; [eapply Hdc; done|done|done]. }
      exists f0, hc. split; [done|]. split; [constructor|].
      apply changes_within_refl.
    - assert (k ∈ kids) as Hk by (rewrite Hpre; apply elem_of_app; right; left).
      rewrite Hpre in Hndk.
      apply NoDup_flat_map_split in Hndk as (Hndk1 & Hndk2 & Hdisj).
      apply Forall_cons in Hreprs as [Hreprk Hreprs].
      destruct (proj1 (Forall_forall _ _) IH k Hk hc Hreprk Hndk1) as (f1 & h2 & Hrun1 & Hins1 & Hcw2).
      { intros e' key He'. apply Hrec. simpl. right.
        apply elem_of_flat_map. eauto. }
      { eapply headings_ok_sub; [exact Hokc|]. intros x Hx. right.
        apply elem_of_flat_map. eauto. }
      assert (∀ k' x, k' ∈ suf → x ∈ locs k' → x ∉ locs k) as Hdisj'.
      { intros k' x Hk' Hx Hxk. apply (Hdisj x Hxk).
        apply elem_of_flat_map. eauto. }
      destruct (IHsuf (pre ++ [k]) h2) as (f2 & h' & Hrun2 & Hins2 & Hcw3).
      + by rewrite <-app_assoc.
      + apply Forall_forall. intros k' Hk'.
        eapply repr_frame; [|exact Hcw2|by eauto].
        by eapply Forall_forall in Hreprs.
      + destruct Hcw2 as [_ Hcw2]. apply Hcw2; [done|].
        intros Hlk'. by destruct (Hklocs k l Hk Hlk').
      + intros d x Hd Hx. destruct Hcw2 as [_ Hcw2]. apply Hcw2; [by eapply Hdc|].
        intros Hdk. destruct (Hextra d Hd) as (Hge & _).
        destruct (Hklocs k d Hk Hdk). lia.
      + eapply headings_ok_frame; [exact Hokc|exact Hcw2|].
        intros x Hx. right. apply elem_of_flat_map. eauto.
      + destruct Hcw2 as [? _]. lia.
      + exists (S (f1 `max` f2)), h'. split; [|split].
        * intros [|fuel] Hfuel; [lia|]. rewrite iter_children_S. simpl.
          rewrite Hlc.
          assert (children e1 !! length pre = Some (root k)) as ->.
          { rewrite Hkids1, Hpre, lookup_app_l, fmap_app, lookup_app_r, length_fmap
              by (rewrite ?length_fmap, ?length_app; simpl; lia).
            by rewrite Nat.sub_diag. }
          rewrite Hrun1 by lia. simpl.
          replace (S (length pre)) with (length (pre ++ [k]))
            by (rewrite length_app; simpl; lia).
          apply Hrun2. lia.
        * constructor.
          -- eapply inserted_frame; [exact Hins1|exact Hcw3| |].
             ++ intros x Hx Hxs. apply elem_of_flat_map in Hxs as (k' & Hk' & Hxk').
                by eapply Hdisj'.
             ++ intros x Hxs. apply elem_of_flat_map in Hxs as (k' & Hk' & Hxk').
                destruct (Hklocs k' x); [|done|lia].
                rewrite Hpre. apply elem_of_app. right. by right.
          -- eapply Forall_impl; [exact Hins2|]. intros k'.
             apply inserted_mono. by destruct Hcw2.
        * eapply changes_within_trans; [exact Hcw2|exact Hcw3| |].
          -- intros x Hx. simpl. apply elem_of_app. by left.
          -- intros x Hx. simpl. apply elem_of_app. by right. }
  destruct (Hwalk kids [] h1) as (f0 & h' & Hrun & Hins & Hcw); try done.
  { apply Forall_forall. intros k Hk.
    eapply repr_frame; [|exact Hcw1|].
    - by eapply Forall_forall in Hall.
    - intros x Hx Hxl. apply list_elem_of_singleton in Hxl as ->.
      by destruct (Hklocs k l Hk Hx). }
  { eapply headings_ok_frame; [exact Hok|exact Hcw1|].
    intros x Hx. apply list_elem_of_singleton in Hx as ->. left. }
  { by destruct Hcw1. }
  exists (S f0), h'. split; [|split].
  - intros [|fuel] Hfuel; [lia|]. change (root (Node l e kids)) with l.
    rewrite iter_S, Hvisit. simpl. apply Hrun. lia.
  - split.
    + apply Hnode.
      * destruct Hcw as [_ Hcw]. apply Hcw; [done|].
        intros Hlk'. apply elem_of_flat_map in Hlk' as (k & Hk & Hx).
        by destruct (Hklocs k l Hk Hx).
      * intros d x Hd Hx. destruct Hcw as [_ Hcw]. apply Hcw; [done|].
        intros Hdk. apply elem_of_flat_map in Hdk as (k & Hk & Hxk).
        destruct (Hextra d Hd) as (Hge & _). destruct (Hklocs k d Hk Hxk). lia.
    + apply inserted_kids. eapply Forall_impl; [exact Hins|]. intros k.
      apply inserted_mono. by destruct Hcw1.
  - rewrite locs_node. eapply changes_within_trans; [exact Hcw1|exact Hcw| |].
    + intros x Hx. apply list_elem_of_singleton in Hx as ->. left.
    + intros x Hx. by right.
Qed.
End InsertMain.

(** C3 on the code. The transform looks the text of every element up in
    [self.md.stash]. A [Markdown] of Python-Markdown has no attribute
    [stash], and nothing in this code gives it one: with a table that is
    not empty the transform raises [AttributeError] at the first element
    it visits, the root, whatever the texts are, and no marker container is
    appended. Only with an empty table does it return, with the tree as it
    was. *)
Theorem insert_raises_without_stash headings (h : Heap) root e :
  h !! root = Some e →
  (∀ fuel, InsertHeadings.run None ∅ fuel root h = Done h)
  ∧ (headings ≠ ∅ →
     ∀ fuel, 0 < fuel →
       InsertHeadings.run None headings fuel root h
       = Raised (AttributeError "stash")).
Proof.
  intros Hroot. split; [done|]. intros Hne [|fuel] Hfuel; [lia|].
  unfold InsertHeadings.run. rewrite decide_False by done.
  rewrite iter_S. unfold InsertHeadings.visit. by rewrite Hroot.
Qed.

Lemma insert_raises_without_stash_witness :
  host_table !! "<p>out</p>" = Some [2]
  ∧ InsertHeadings.run None host_table 10 0 host_store
    = Raised (AttributeError "stash").
Proof.
  split; [reflexivity|].
  destruct (insert_raises_without_stash host_table host_store 0
              (mkElement "div" ∅ None None [1])) as [_ Hraise].
  - reflexivity.
  - apply Hraise; [|lia].
    intros Hempty. apply (f_equal (fun m => m !! "<p>out</p>")) in Hempty.
    vm_compute in Hempty. done.
Defined.

(** X20 (InsertHeadings.run).  On a host that has an attribute [stash],
    a mapping. With an empty table the transform returns the store as it
    is. Otherwise, on a tree of the store none of whose elements occurs
    twice, and provided the stashed values that the texts stand for are
    keys of the table and the transform has nothing to do on the recorded
    headings: the transform ends, and every element whose text is a key of
    the stash of the host has got one more child, a new marker container
    ([div] of class [markdown-exec]) whose children are the headings that
    the table holds for the stashed value; every other element of the tree
    is as it was, and so is the rest of the store. *)
Theorem insert_run stash headings :
  (∀ fuel root (h : Heap), InsertHeadings.run (Some stash) ∅ fuel root h = Done h)
  ∧ ∀ (h : Heap) (t : Tree),
      repr h t → NoDup (locs t) →
      recorded_for stash headings t →
      headings_ok stash headings h (locs t) →
      ∃ fuel0 h',
        (∀ fuel, fuel0 ≤ fuel →
           InsertHeadings.run (Some stash) headings fuel (root t) h = Done h')
        ∧ inserted stash headings h h' t
        ∧ changes_within (locs t) h h'.
Proof.
  split; [done|]. intros h t Hrepr Hnd Hrec Hok.
  destruct (insert_iter stash headings t h Hrepr Hnd Hrec Hok)
    as (fuel0 & h' & Hrun & Hins & Hcw).
  unfold InsertHeadings.run. case_decide as Hempty; [|by eauto].
  assert (passive stash t) as Hpas.
  { apply Forall_forall. intros e He.
    destruct (matched stash e) as [key|] eqn:Hm; [|done].
    destruct (Hrec e key He Hm) as [hs Hhs].
    by rewrite Hempty, lookup_empty in Hhs. }
  destruct (passive_quiet stash headings h t Hrepr Hpas) as [fuel1 Hquiet].
  assert (h' = h) as ->.
  { specialize (Hrun (fuel0 `max` fuel1)). specialize (Hquiet (fuel0 `max` fuel1)).
    rewrite Hrun in Hquiet by lia. naive_solver lia. }
  exists 0, h. done.
Qed.

Lemma insert_run_witness :
  ∃ fuel0 h',
    (∀ fuel, fuel0 ≤ fuel →
       InsertHeadings.run (Some host_stash) host_table fuel 0 host_store = Done h')
    ∧ inserted host_stash host_table host_store h' host_tree
    ∧ changes_within [0; 1] host_store h'.
Proof.
  apply (proj2 (insert_run host_stash host_table) host_store host_tree).
  - simpl. repeat split; reflexivity.
  - apply (bool_decide_unpack _). vm_compute. exact I.
  - intros e key He Hm. apply list_elem_of_In in He. simpl in He.
    destruct He as [<-|[<-|[]]]; vm_compute in Hm; [done|].
    injection Hm as <-. vm_compute. eauto.
  - intros key hs hl Hhs Hhl. unfold host_table in Hhs.
    apply lookup_singleton_Some in Hhs as [<- <-].
    apply list_elem_of_singleton in Hhl as ->.
    exists (Node 2 (mkElement "h1" {[ "id" := "exec-0--title" ]} (Some "Title") None []) []).
    split; [done|]. split; [simpl; repeat split; reflexivity|]. split.
    + repeat constructor. 
    + intros l Hl Hl'. apply list_elem_of_In in Hl, Hl'. simpl in *. lia.
Defined.

(** The run of the example with the fuel given: the paragraph has the
    marker container as its child, and the container holds the heading. *)
Example insert_example :
  match InsertHeadings.run (Some host_stash) host_table 10 0 host_store with
  | Done h =>
      children <$> h !! 1 = Some [3]
      ∧ h !! 3 = Some (marker_div [2])
      ∧ h !! 0 = host_store !! 0 ∧ h !! 2 = host_store !! 2
  | _ => False
  end.
Proof. vm_compute. done. Qed.

(** Also on a host that has a stash the texts are not looked up in the
    table: here the text of the paragraph is a key of the table, the table
    is not empty, and the transform leaves the paragraph without a marker
    container, because the text is no key of the stash. *)
Lemma insert_ignores_table_keys :
  (text <$> output_store !! 1) = Some (Some "<p>out</p>")
  ∧ host_table !! "<p>out</p>" = Some [2]
  ∧ ∀ fuel, 4 ≤ fuel →
      InsertHeadings.run (Some ∅) host_table fuel 0 output_store = Done output_store.
Proof.
  split; [reflexivity|]. split; [reflexivity|]. intros fuel Hfuel.
  unfold InsertHeadings.run. case_decide as Hempty.
  { exfalso. apply (f_equal (fun m => m !! "<p>out</p>")) in Hempty.
    vm_compute in Hempty. done. }
  eapply (proj1 (iter_mono id (InsertHeadings.visit (Some ∅) host_table) 4));
    [|done|done].
  vm_compute. reflexivity.
Qed.

(** ** The Removal transform *)



(** C4 on the code. The Insertion transform hangs the marker container
    under the paragraph whose text matched; the Removal transform walks the
    children of the root only and leaves that container where it is. *)
Theorem remove_leaves_nested_marker :
  match InsertHeadings.run (Some host_stash) host_table 10 0 host_store with
  | Done h =>
      RemoveHeadings.run 0 h = Done h
      ∧ children <$> h !! 0 = Some [1]
      ∧ children <$> h !! 1 = Some [3]
      ∧ RemoveHeadings.is_marker <$> h !! 3 = Some true
  | _ => False
  end.
Proof. vm_compute. done. Qed.









Section RemoveFacts.
Variables (h : Heap) (root : loc) (r : Element) (kids : list (loc * Element)).
Hypothesis Hroot : h !! root = Some r.
Hypothesis Hkids : children r = kids.*1.
Hypothesis Hrec : Forall (fun le => h !! le.1 = Some le.2) kids.
Hypothesis Hnd : NoDup (root :: kids.*1).



End RemoveFacts.


(** The run on a root with two marker containers between two paragraphs:
    both containers go, and their texts are at the end of the tail of the
    first paragraph, in document order. *)
Example remove_example :
  match RemoveHeadings.run 0 marked_store with
  | Done h =>
      children <$> h !! 0 = Some [1; 4]
      ∧ tail <$> h !! 1 = Some (Some "M1M2")
      ∧ h !! 4 = marked_store !! 4
  | _ => False
  end.
Proof. vm_compute. done. Qed.

(* ===================================================================== *)
(** * Further properties of the code *)

(** ** The Removal transform on the children of the root *)





(** The tail of a marker container is lost: the text [M] of the container
    is kept at the end of the paragraph before it, its tail [T] is no
    longer under the root after the run. *)
Example removal_drops_marker_tail :
  RemoveHeadings.run 0 tailed_store
  = Done [ mkElement "div" ∅ None None [1];
           mkElement "p" ∅ (Some "a") (Some "M") [];
           mkElement "div" {[ "class" := marker_class ]} (Some "M") (Some "T") [] ]
  ∧ page_text [(1, mkElement "p" ∅ (Some "a") None []);
               (2, mkElement "div" {[ "class" := marker_class ]}
                     (Some "M") (Some "T") [])] = "MT"
  ∧ page_text [(1, mkElement "p" ∅ (Some "a") (Some "M") [])] = "M".
Proof. vm_compute. done. Qed.

(** ** Hidden lines *)

Section HideFacts.

Lemma split_no_sep l : occurs LF l = false → split LF l = [l].
Proof.
  induction l as [|c l IH]; [done|]. simpl. intros H.
  apply orb_false_iff in H as [Hc Hl]. rewrite Hc, (IH Hl). done.
Qed.

Lemma split_app_sep l s :
  occurs LF l = false → split LF (l +:+ String LF s) = l :: split LF s.
Proof.
  induction l as [|c l IH]; intros H.
  - rewrite append_nil_l. done.
  - rewrite append_cons. simpl in *.
    apply orb_false_iff in H as [Hc Hl]. rewrite Hc, (IH Hl). done.
Qed.

(** Splitting at line feeds undoes joining with line feeds. *)
Lemma split_join ls :
  ls ≠ [] → Forall (fun l => occurs LF l = false) ls →
  split LF (join nl ls) = ls.
Proof.
  induction ls as [|l ls IH]; [done|]. intros _ Hall.
  apply Forall_cons in Hall as [Hl Hls].
  destruct ls as [|l' ls].
  - simpl. by apply split_no_sep.
  - rewrite join_cons. unfold nl at 1. rewrite append_cons, append_nil_l.
    rewrite split_app_sep by done. f_equal. by apply IH.
Qed.


Lemma hide_lines_of_lines ls :
  ls ≠ [] → Forall (fun l => occurs LF l = false) ls →
  _hide_lines (join nl ls)
  = strip (join nl (filter (fun line => contains hide_marker line = false) ls)).
Proof. intros Hne Hall. unfold _hide_lines. by rewrite split_join. Qed.

End HideFacts.

(** X2 (_hide_lines).  A source in which the marker does not occur is only
    stripped: no line is dropped and the line structure is kept. *)
Theorem hide_lines_without_marker source :
  contains hide_marker source = false →
  _hide_lines source = strip source.
Proof.
  intros Hno. unfold _hide_lines. rewrite filter_all; [by rewrite join_split|].
  apply Forall_forall. intros l Hl.
  destruct (contains hide_marker l) eqn:Hc; [|done].
  rewrite <-Hno, <-(join_split source) at 1.
  symmetry. by eapply contains_in_join.
Qed.

Lemma hide_lines_without_marker_witness :
  _hide_lines (" print(1)" +:+ nl +:+ "print(2)" +:+ nl)
  = strip (" print(1)" +:+ nl +:+ "print(2)" +:+ nl).
Proof. apply hide_lines_without_marker. reflexivity. Defined.

(** X3 (_hide_lines, add_source).  A line that carries the marker has no
    effect on what is shown, wherever it stands: the assembled text is the
    one of the source without that line. *)
Theorem add_source_ignores_marked_line before line after
    location output language tabs extra :
  Forall (fun l => occurs LF l = false) (before ++ line :: after) →
  contains hide_marker line = true →
  _hide_lines (join nl (before ++ line :: after))
  = _hide_lines (join nl (before ++ after))
  ∧ add_source (join nl (before ++ line :: after)) location output language tabs extra
    = add_source (join nl (before ++ after)) location output language tabs extra.
Proof.
  intros Hall Hm.
  assert (_hide_lines (join nl (before ++ line :: after))
          = _hide_lines (join nl (before ++ after))) as Heq.
  { rewrite hide_lines_of_lines by (done || by destruct before).
    rewrite filter_app, filter_cons_False by (by rewrite Hm).
    apply Forall_app in Hall as [Hb Ha]. apply Forall_cons in Ha as [_ Ha].
    destruct (before ++ after) as [|x xs] eqn:Hba.
    - apply app_eq_nil in Hba as [-> ->]. done.
    - rewrite <-Hba, hide_lines_of_lines, filter_app; [done| |].
      + rewrite Hba. done.
      + by apply Forall_app. }
  split; [exact Heq|]. unfold add_source. by rewrite Heq.
Qed.

Lemma add_source_ignores_marked_line_witness :
  add_source (join nl ["import os"; "os.chdir('x')  # markdown-exec: hide"; "print(os.getcwd())"])
             "above" "out" "python" ("Source", "Result") []
  = add_source (join nl ["import os"; "print(os.getcwd())"])
             "above" "out" "python" ("Source", "Result") [].
Proof.
  apply (add_source_ignores_marked_line ["import os"]
           "os.chdir('x')  # markdown-exec: hide" ["print(os.getcwd())"]).
  - repeat constructor.
  - reflexivity.
Defined.

(** ** The renderers between conversions *)

Section Settling.

Lemma settles_refl c : settles c c.
Proof.
  split; [done|]. split; [done|]. intros i r Hr. by exists r.
Qed.

Lemma settles_trans c1 c2 c3 : settles c1 c2 → settles c2 c3 → settles c1 c3.
Proof.
  intros (Hl1 & Hi1 & Hk1) (Hl2 & Hi2 & Hk2).
  split; [congruence|]. split.
  - intros H. rewrite Hl1 in Hi2. auto.
  - intros i r Hr. destruct (Hk1 i r Hr) as (r' & Hr' & Hh' & Hp').
    destruct (Hk2 i r' Hr') as (r'' & Hr'' & Hh'' & Hp'').
    exists r''. split; [done|]. split; [congruence|].
    intros Hlt. rewrite Hp'', Hp'; [done|done|lia].
Qed.

Lemma _md_fill_append n c :
  ∃ k, _md_stack (_md_fill n c)
       = _md_stack c ++ replicate k (_mimic (_headings c)).
Proof.
  revert c. induction n as [|n IH]; intros c; simpl.
  - exists 0. simpl. rewrite app_nil_r. by destruct (_md_stack c !! _level c).
  - destruct (_md_stack c !! _level c).
    + exists 0. simpl. by rewrite app_nil_r.
    + destruct (IH (set_md_stack (_md_stack c ++ [_mimic (_headings c)]) c))
        as [k Hk].
      exists (S k). rewrite Hk. simpl. by rewrite <-app_assoc.
Qed.

Lemma convert_enter_stack c :
  ∃ k, _md_stack (convert_enter c).1
       = alter (fun r => mkRenderer (token (_counter c)) (harvest_list r))
           (_level c) (_md_stack c ++ replicate k (_mimic (_headings c))).
Proof.
  unfold convert_enter, _md.
  destruct (_md_fill_append (S (_level c)) c) as [k Hk].
  destruct (_md_fill_stack (S (_level c)) c) as (_ & _ & H3).
  exists k. rewrite H3, Hk. reflexivity.
Qed.

Lemma convert_with_settles `{Markupsafe} f stash c :
  (∀ md c, settles c (f md c).1) → settles c (convert_with f stash c).1.
Proof.
  intros Hf. unfold convert_with.
  pose proof (convert_enter_spec c) as (Hmd & Hl & _ & Hlt & _).
  destruct (convert_enter_stack c) as [k Hst].
  destruct (convert_enter c) as [c0 md]. simpl in *. subst md.
  specialize (Hf (_level c) c0). destruct (f (_level c) c0) as [c1 r]. simpl in *.
  destruct Hf as (Hl1 & Hi1 & Hk1).
  assert (settles c (convert_finally (_level c) c1)) as Hfin.
  { unfold convert_finally. split; [simpl; lia|]. split.
    - intros Hidle i r' Hr' Hle. simpl in Hr'.
      destruct (decide (i = _level c)) as [->|Hne].
      + rewrite list_lookup_alter_eq in Hr'.
        destruct (_md_stack c1 !! _level c); by simplify_eq/=.
      + rewrite list_lookup_alter_ne in Hr' by done.
        eapply Hi1; [|exact Hr'|lia].
        intros j rj Hj Hlej. rewrite Hst in Hj.
        rewrite list_lookup_alter_ne in Hj by lia.
        apply lookup_app_Some in Hj as [Hj|[_ Hj]].
        * eapply Hidle; [exact Hj|lia].
        * apply lookup_replicate in Hj as [-> _]. done.
    - intros i r0 Hr0.
      assert (∃ r1, _md_stack c0 !! i = Some r1
                    ∧ harvest_list r1 = harvest_list r0
                    ∧ (i < _level c → id_prefix r1 = id_prefix r0))
        as (r1 & Hr1 & Hh1 & Hp1).
      { rewrite Hst. destruct (decide (i = _level c)) as [->|Hne].
        - rewrite list_lookup_alter_eq, lookup_app_l, Hr0
            by (by eapply lookup_lt_Some).
          eexists. split; [reflexivity|]. split; [done|lia].
        - rewrite list_lookup_alter_ne, lookup_app_l, Hr0
            by (done || by eapply lookup_lt_Some).
          by exists r0. }
      destruct (Hk1 i r1 Hr1) as (r2 & Hr2 & Hh2 & Hp2).
      simpl. destruct (decide (i = _level c)) as [->|Hne].
      + rewrite list_lookup_alter_eq, Hr2. eexists. split; [reflexivity|].
        split; [simpl; congruence|lia].
      + rewrite list_lookup_alter_ne by done. exists r2. split; [done|].
        split; [congruence|]. intros Hlt'. rewrite Hp2, Hp1; [done|done|lia]. }
  destruct r as [converted|e]; [|done].
  unfold convert_record, headings. simpl.
  destruct Hfin as (? & ? & ?). split; [done|]. split; done.
Qed.

Lemma md_convert_settles `{Markupsafe} run md c : settles c (md_convert run md c).1.
Proof.
  revert md c. induction run as [e|result|sub IHsub stash k IHk]; intros md c; simpl.
  - apply settles_refl.
  - destruct (_md_stack c !! md) as [r|]; [|apply settles_refl].
    destruct (result (id_prefix r)) as [html found]. simpl.
    split; [done|]. split; [done|]. intros i r' Hr'. by exists r'.
  - pose proof (convert_with_settles (md_convert sub) stash c IHsub) as H1.
    destruct (convert_with (md_convert sub) stash c) as [c1 r]. simpl in *.
    eapply settles_trans; [exact H1|apply IHk].
Qed.

End Settling.

(** X4 (_MarkdownConverter.convert, _md).  A conversion, with everything
    nested in it, replaces no renderer: each one stays at its position with
    the list it harvests into, and the renderers of the conversions under
    way keep their id prefix. *)
Theorem convert_keeps_renderers `{Markupsafe} run stash c i r :
  _md_stack c !! i = Some r →
  ∃ r', _md_stack (convert run stash c).1 !! i = Some r'
        ∧ harvest_list r' = harvest_list r
        ∧ (i < _level c → id_prefix r' = id_prefix r).
Proof.
  intros Hr.
  destruct (convert_with_settles (md_convert run) stash c
              (md_convert_settles run)) as (_ & _ & Hk).
  exact (Hk i r Hr).
Qed.

Lemma convert_keeps_renderers_witness :
  let c := after_calls example_calls init in
  ∃ r', _md_stack (convert (Raises (Exception "boom")) [] c).1 !! 1 = Some r'
        ∧ harvest_list r' = 0
        ∧ (1 < _level c → id_prefix r' = EmptyString).
Proof.
  apply (convert_keeps_renderers (Raises (Exception "boom")) []
           (after_calls example_calls init) 1 (mkRenderer EmptyString 0)).
  reflexivity.
Defined.

(** X5 (_MarkdownConverter.convert).  Between the calls made on a new
    converter, whatever they nest and whether they raise, the level is zero
    and no renderer has an id prefix in force. *)
Theorem idle_between_calls `{Markupsafe} calls :
  let c := after_calls calls init in
  _level c = 0 ∧ Forall (fun r => id_prefix r = EmptyString) (_md_stack c).
Proof.
  simpl.
  assert (∀ c, _level c = 0 → idle_from 0 c →
               _level (after_calls calls c) = 0
               ∧ idle_from 0 (after_calls calls c)) as Hall.
  { induction calls as [|[run stash] calls IH]; intros c Hl Hi; [done|].
    simpl. destruct (convert_with_settles (md_convert run) stash c
                       (md_convert_settles run)) as (Hl' & Hi' & _).
    rewrite Hl in *. apply IH; [done|]. by apply Hi'. }
  destruct (Hall init) as [Hl Hi]; [done| |].
  { intros i r Hr. done. }
  split; [done|]. apply Forall_forall. intros r Hr.
  apply list_elem_of_lookup in Hr as [i Hr]. eapply Hi; [exact Hr|lia].
Qed.

(** ** Placeholders that do not occur *)

Lemma restore_markup_absent `{Markupsafe} html items :
  Forall (fun item => contains (searched item.1) html = false) items →
  restore_stash html true items = html.
Proof.
  induction 1 as [|[p v] items Hp _ IH]; [done|]. simpl in *.
  unfold Markup_replace. rewrite replace_absent by done. exact IH.
Qed.

(** X6 (_MarkdownConverter.convert).  When the renderer returns an HTML in
    which no placeholder of the stash would be found, the first one as it
    is and the later ones as the installed markupsafe looks for them,
    [convert] returns that HTML unchanged and records the headings under
    it. *)
Theorem convert_absent_placeholders `{Markupsafe} run stash c c1 html :
  md_convert run (convert_enter c).2 (convert_enter c).1 = (c1, Ok html) →
  placeholders_absent stash html →
  (convert run stash c).2 = Ok html
  ∧ table (convert run stash c).1 !! html = Some (_headings c1).
Proof.
  intros Hrun Habs.
  assert (restore_stash html false stash = html) as Hrest.
  { destruct stash as [|[p v] rest]; [done|]. destruct Habs as [Hp Hrest].
    simpl. rewrite replace_absent by done. by apply restore_markup_absent. }
  unfold convert, convert_with.
  destruct (convert_enter c) as [c0 md]. simpl in *. rewrite Hrun.
  unfold convert_record, headings. simpl. rewrite Hrest.
  split; [done|]. by rewrite lookup_insert_eq.
Qed.

Lemma convert_absent_placeholders_witness :
  (convert (Returns (fun _ => ("<p>hi</p>", []))) [("k1", "<b>"); ("k2", "<i>")] init).2
  = Ok "<p>hi</p>".
Proof.
  eapply (convert_absent_placeholders (Returns (fun _ => ("<p>hi</p>", [])))
            [("k1", "<b>"); ("k2", "<i>")] init).
  - reflexivity.
  - split; [reflexivity|]. repeat constructor.
Defined.

(** Which placeholders are found depends on the markupsafe installed: the
    second placeholder of this stash is looked for in its escaped form by
    markupsafe 2, which does not find it, and as it is by markupsafe 3. *)
Example placeholder_found_by_version :
  @restore_stash markupsafe_2 "<p><em>a</em></p>" false [("zz", "x"); ("<em>", "Y")]
  = "<p><em>a</em></p>"
  ∧ @restore_stash markupsafe_3 "<p><em>a</em></p>" false [("zz", "x"); ("<em>", "Y")]
    = "<p>Ya</em></p>".
Proof. split; reflexivity. Qed.

(** ** Prefixing the identifiers *)

Section IdFacts.
Variable p : string.

Lemma prepend_fields key e :
  tag (IdPrepending.prepend p key e) = tag e
  ∧ text (IdPrepending.prepend p key e) = text e
  ∧ tail (IdPrepending.prepend p key e) = tail e
  ∧ children (IdPrepending.prepend p key e) = children e.
Proof.
  unfold IdPrepending.prepend. destruct (attrib e !! key) as [[|c v]|]; done.
Qed.

Lemma prepend_href_fields e :
  tag (IdPrepending.prepend_href p e) = tag e
  ∧ text (IdPrepending.prepend_href p e) = text e
  ∧ tail (IdPrepending.prepend_href p e) = tail e
  ∧ children (IdPrepending.prepend_href p e) = children e.
Proof.
  unfold IdPrepending.prepend_href.
  destruct (attrib e !! "href") as [[|c v]|]; [done| |done].
  by destruct (startswith "#" (String c v)).
Qed.

(** The loop body touches the attributes only. *)
Lemma on_element_fields e :
  tag (IdPrepending.on_element p e) = tag e
  ∧ text (IdPrepending.on_element p e) = text e
  ∧ tail (IdPrepending.on_element p e) = tail e
  ∧ children (IdPrepending.on_element p e) = children e.
Proof.
  unfold IdPrepending.on_element.
  pose proof (prepend_fields "id" e) as (T1 & X1 & L1 & C1).
  pose proof (prepend_href_fields (IdPrepending.prepend p "id" e)) as (T2 & X2 & L2 & C2).
  pose proof (prepend_fields "name"
                (IdPrepending.prepend_href p (IdPrepending.prepend p "id" e)))
    as (T3 & X3 & L3 & C3).
  pose proof (prepend_fields "for"
                (IdPrepending.prepend p "name"
                   (IdPrepending.prepend_href p (IdPrepending.prepend p "id" e))))
    as (T4 & X4 & L4 & C4).
  case_decide; repeat split; congruence.
Qed.

Lemma map_at_length f ls (h : Heap) : length (map_at f ls h) = length h.
Proof.
  revert h. induction ls as [|l ls IH]; intros h; [done|].
  simpl. change (length (map_at f ls (alter f l h)) = length h).
  by rewrite IH, length_alter.
Qed.

Lemma map_at_notin f ls (h : Heap) l :
  l ∉ ls → map_at f ls h !! l = h !! l.
Proof.
  revert h. induction ls as [|l' ls IH]; intros h Hl; [done|].
  apply not_elem_of_cons in Hl as [Hne Hl].
  change (map_at f ls (alter f l' h) !! l = h !! l).
  rewrite IH by done. by apply list_lookup_alter_ne.
Qed.

Lemma map_at_in f ls (h : Heap) l :
  NoDup ls → l ∈ ls → map_at f ls h !! l = f <$> h !! l.
Proof.
  revert h. induction ls as [|l' ls IH]; intros h Hnd Hl.
  - by apply elem_of_nil in Hl.
  - apply NoDup_cons in Hnd as [Hnot Hnd].
    change (map_at f ls (alter f l' h) !! l = f <$> h !! l).
    apply elem_of_cons in Hl as [->|Hl].
    + rewrite map_at_notin by done. apply list_lookup_alter_eq.
    + rewrite IH by done. rewrite list_lookup_alter_ne; [done|].
      intros ->. done.
Qed.

Lemma map_at_app f ls1 ls2 (h : Heap) :
  map_at f (ls1 ++ ls2) h = map_at f ls2 (map_at f ls1 h).
Proof. apply foldl_app. Qed.

Lemma map_at_frame f ls (h : Heap) t :
  repr h t → (∀ l, l ∈ locs t → l ∉ ls) → repr (map_at f ls h) t.
Proof.
  intros Hr Hdisj. eapply (repr_frame ls); [exact Hr| |exact Hdisj].
  split; [by rewrite map_at_length|].
  intros l e He Hl. by rewrite map_at_notin.
Qed.

Lemma ids_iter t :
  NoDup (locs t) → ∀ h, repr h t →
  ∃ fuel0, ∀ fuel, fuel0 ≤ fuel →
    iter id (IdPrepending.visit p) fuel (root t) h
    = Done (map_at (IdPrepending.on_element p) (locs t) h).
Proof.
  induction t as [l e kids IH] using Tree_ind'. intros Hnd h Hrepr.
  pose proof Hrepr as (Hl & Hkids & Hall). apply repr_kids in Hall.
  rewrite locs_node in Hnd. apply NoDup_cons in Hnd as [Hlk Hndk].
  assert (∀ suf pre, kids = pre ++ suf →
    ∀ hc e', hc !! l = Some e' → children e' = root <$> kids →
      Forall (repr hc) suf →
      ∃ fuel0, ∀ fuel, fuel0 ≤ fuel →
        iter_children id (IdPrepending.visit p) fuel l (length pre) hc
        = Done (map_at (IdPrepending.on_element p) (flat_map locs suf) hc))
    as Hkids_iter.
  { induction suf as [|k suf IHsuf]; intros pre Hpre hc e' Hl' He' Hsuf.
    - exists 1. intros [|fuel] Hfuel; [lia|]. rewrite iter_children_S.
      simpl. rewrite Hl', lookup_ge_None_2; [done|].
      rewrite He', Hpre, length_fmap, app_nil_r. done.
    - assert (k ∈ kids) as Hk.
      { rewrite Hpre. apply elem_of_app. right. left. }
      rewrite Hpre in Hndk.
      destruct (NoDup_flat_map_split locs pre k suf Hndk) as (Hndk1 & _ & Hdisj).
      apply Forall_cons in Hsuf as [Hrk Hsuf].
      destruct (proj1 (Forall_forall _ _) IH k Hk Hndk1 hc Hrk) as [f1 Hf1].
      set (hc' := map_at (IdPrepending.on_element p) (locs k) hc).
      assert (l ∉ locs k) as Hlk'.
      { intros Hin. apply Hlk, elem_of_flat_map. eauto. }
      destruct (IHsuf (pre ++ [k])) with (hc := hc') (e' := e') as [f2 Hf2].
      { by rewrite <-app_assoc. }
      { unfold hc'. by rewrite map_at_notin. }
      { done. }
      { apply Forall_forall. intros k' Hk'.
        apply map_at_frame; [by eapply Forall_forall in Hsuf|].
        intros x Hx Hxk. apply (Hdisj x Hxk), elem_of_flat_map. eauto. }
      exists (S (f1 `max` f2)). intros [|fuel] Hfuel; [lia|].
      rewrite iter_children_S. simpl. rewrite Hl'.
      assert (children e' !! length pre = Some (root k)) as ->.
      { rewrite He', Hpre, fmap_app, lookup_app_r, length_fmap by
          (rewrite length_fmap; lia).
        by rewrite Nat.sub_diag. }
      rewrite Hf1 by lia. simpl. fold hc'.
      replace (S (length pre)) with (length (pre ++ [k]))
        by (rewrite length_app; simpl; lia).
      rewrite Hf2 by lia. unfold hc'. by rewrite map_at_app. }
  set (h1 := <[l := IdPrepending.on_element p e]> h).
  assert (h1 = alter (IdPrepending.on_element p) l h) as Hh1.
  { unfold h1. apply list_eq. intros i. destruct (decide (i = l)) as [->|Hne].
    - rewrite list_lookup_alter_eq, Hl. simpl.
      apply list_lookup_insert_eq. by eapply lookup_lt_Some.
    - by rewrite list_lookup_alter_ne, list_lookup_insert_ne. }
  destruct (Hkids_iter kids [] eq_refl h1 (IdPrepending.on_element p e))
    as [f0 Hf0].
  { rewrite Hh1, list_lookup_alter_eq, Hl. done. }
  { by destruct (on_element_fields e) as (_ & _ & _ & ->). }
  { apply Forall_forall. intros k Hk. rewrite Hh1.
    apply (map_at_frame _ [l]); [by eapply Forall_forall in Hall|].
    intros x Hx Hxl. apply list_elem_of_singleton in Hxl as ->.
    apply Hlk, elem_of_flat_map. eauto. }
  exists (S f0). intros [|fuel] Hfuel; [lia|].
  change (root (Node l e kids)) with l. rewrite iter_S.
  unfold IdPrepending.visit at 1. rewrite Hl. simpl. fold h1.
  rewrite Hf0 by lia. rewrite Hh1. done.
Qed.

End IdFacts.

Section IdAttributes.
Variable p : string.

Lemma prepend_attrib key e k :
  attrib (IdPrepending.prepend p key e) !! k
  = if decide (k = key) then prefixed p (attrib e !! k) else attrib e !! k.
Proof.
  unfold IdPrepending.prepend. case_decide as Hk.
  - subst k. destruct (attrib e !! key) as [[|c v]|] eqn:E; simpl; rewrite ?E; try done.
    by rewrite lookup_insert_eq.
  - destruct (attrib e !! key) as [[|c v]|] eqn:E; simpl; try done.
    by rewrite lookup_insert_ne.
Qed.

Lemma prepend_href_attrib e k :
  attrib (IdPrepending.prepend_href p e) !! k
  = if decide (k = "href") then prefixed_link p (attrib e !! k) else attrib e !! k.
Proof.
  unfold IdPrepending.prepend_href. case_decide as Hk.
  - subst k. destruct (attrib e !! "href") as [[|c v]|] eqn:E; simpl; rewrite ?E; try done.
    destruct (decide (c = "#"%char)) as [->|Hc].
    + simpl. by rewrite lookup_insert_eq.
    + rewrite !bool_decide_eq_false_2 by congruence. done.
  - destruct (attrib e !! "href") as [[|c v]|] eqn:E; simpl; try done.
    case_bool_decide; simpl; [by rewrite lookup_insert_ne|done].
Qed.

(** The attributes after the loop body, one by one. *)
Lemma on_element_attrib e k :
  attrib (IdPrepending.on_element p e) !! k
  = if decide (k = "id") then prefixed p (attrib e !! k)
    else if decide (k = "href") then prefixed_link p (attrib e !! k)
    else if decide (k = "name") then prefixed p (attrib e !! k)
    else if decide (k = "for") then
           if decide (tag e = "label") then prefixed p (attrib e !! k)
           else attrib e !! k
    else attrib e !! k.
Proof.
  unfold IdPrepending.on_element.
  pose proof (prepend_fields p "id" e) as (T1 & _).
  pose proof (prepend_href_fields p (IdPrepending.prepend p "id" e)) as (T2 & _).
  pose proof (prepend_fields p "name"
                (IdPrepending.prepend_href p (IdPrepending.prepend p "id" e)))
    as (T3 & _).
  rewrite T3, T2, T1.
  destruct (decide (tag e = "label")).
  - rewrite !prepend_attrib, prepend_href_attrib, prepend_attrib.
    repeat case_decide; subst; done.
  - rewrite !prepend_attrib, prepend_href_attrib, prepend_attrib.
    repeat case_decide; subst; done.
Qed.

End IdAttributes.

Lemma root_tmap f t : root (tmap f t) = root t.
Proof. by destruct t. Qed.

Lemma repr_tmap f (h h' : Heap) t :
  (∀ e, children (f e) = children e) →
  repr h t → (∀ l, l ∈ locs t → h' !! l = f <$> h !! l) →
  repr h' (tmap f t).
Proof.
  intros Hf. induction t as [l e kids IH] using Tree_ind'.
  intros (Hl & Hkids & Hall) Hmap. apply repr_kids in Hall.
  change (tmap f (Node l e kids)) with (Node l (f e) (map (tmap f) kids)).
  split; [|split].
  - rewrite Hmap, Hl; [done|]. rewrite locs_node. left.
  - rewrite Hf, Hkids. change map with (@fmap list _) at 1.
    rewrite <-list_fmap_compose. apply list_fmap_ext. intros i k _. simpl.
    by rewrite root_tmap.
  - apply repr_kids, Forall_forall. intros k' Hk'.
    change map with (@fmap list _) in Hk'.
    apply list_elem_of_fmap in Hk' as (k & -> & Hk).
    eapply Forall_forall in IH; [|exact Hk]. apply IH.
    + by eapply Forall_forall in Hall.
    + intros x Hx. apply Hmap. rewrite locs_node. right.
      apply elem_of_flat_map. eauto.
Qed.

(** X7 (_IdPrependingTreeprocessor.run).  With a prefix that is not empty,
    on a tree whose elements are distinct objects, the processor ends and
    has rewritten every element of the tree once, in place: the prefix is
    put before a non-empty [id] and [name], before a non-empty [for] of a
    [label], and after the [#] of an [href] that starts with [#]; every
    other attribute, the tag, the text, the tail and the children are as
    they were, and so is the rest of the store. *)
Theorem ids_run p (h : Heap) (t : Tree) :
  p ≠ EmptyString → repr h t → NoDup (locs t) →
  ∃ h', (∃ fuel0, ∀ fuel, fuel0 ≤ fuel →
           IdPrepending.run p fuel (root t) h = Done h')
        ∧ length h' = length h
        ∧ (∀ l e, l ∈ locs t → h !! l = Some e →
             ∃ e', h' !! l = Some e'
                   ∧ tag e' = tag e ∧ text e' = text e ∧ tail e' = tail e
                   ∧ children e' = children e
                   ∧ attrib e' !! "id" = prefixed p (attrib e !! "id")
                   ∧ attrib e' !! "href" = prefixed_link p (attrib e !! "href")
                   ∧ attrib e' !! "name" = prefixed p (attrib e !! "name")
                   ∧ attrib e' !! "for"
                     = (if decide (tag e = "label")
                        then prefixed p (attrib e !! "for")
                        else attrib e !! "for")
                   ∧ ∀ k, k ∉ ["id"; "href"; "name"; "for"] →
                          attrib e' !! k = attrib e !! k)
        ∧ (∀ l, l ∉ locs t → h' !! l = h !! l)
        ∧ repr h' (tmap (IdPrepending.on_element p) t).
Proof.
  intros Hp Hrepr Hnd.
  exists (map_at (IdPrepending.on_element p) (locs t) h).
  split; [|split; [|split; [|split]]].
  - destruct (ids_iter p t Hnd h Hrepr) as [fuel0 Hrun].
    exists fuel0. intros fuel Hfuel. unfold IdPrepending.run.
    rewrite decide_False by done. by apply Hrun.
  - apply map_at_length.
  - intros l e Hl He. exists (IdPrepending.on_element p e).
    split; [by rewrite map_at_in, He|].
    destruct (on_element_fields p e) as (-> & -> & -> & ->).
    repeat (split; [done|]).
    repeat (split; [by rewrite on_element_attrib|]).
    intros k Hk. rewrite on_element_attrib.
    repeat (apply not_elem_of_cons in Hk as [? Hk]).
    by rewrite !decide_False.
  - intros l Hl. by apply map_at_notin.
  - apply (repr_tmap _ h); [|done|].
    + intros e. by destruct (on_element_fields p e) as (_ & _ & _ & ->).
    + intros l Hl. by apply map_at_in.
Qed.

Lemma ids_run_witness :
  ∃ h', (∃ fuel0, ∀ fuel, fuel0 ≤ fuel →
           IdPrepending.run "exec-0--" fuel 0 linked_store = Done h')
        ∧ (∀ l, l ∉ [0; 1; 2; 3] → h' !! l = linked_store !! l)
        ∧ repr h' (tmap (IdPrepending.on_element "exec-0--") linked_tree).
Proof.
  destruct (ids_run "exec-0--" linked_store linked_tree)
    as (h' & Hrun & _ & _ & Hout & Hrepr).
  - done.
  - simpl. repeat split; reflexivity.
  - apply (bool_decide_unpack _). vm_compute. exact I.
  - exists h'. split; [exact Hrun|]. split; [exact Hout|exact Hrepr].
Defined.

(** The same run with the fuel given. *)
Example ids_example :
  IdPrepending.run "exec-0--" 10 0 linked_store
  = Done [ mkElement "div" ∅ None None [1; 2; 3];
           mkElement "h2" {[ "id" := "exec-0--usage" ]} (Some "Usage") None [];
           mkElement "a" {[ "href" := "#exec-0--usage" ]} (Some "see") None [];
           mkElement "label" {[ "for" := "exec-0--box" ]} (Some "tick") None [] ].
Proof. vm_compute. done. Qed.

Lemma append_inv_head p s1 s2 : p +:+ s1 = p +:+ s2 → s1 = s2.
Proof.
  induction p as [|c p IH]; [by rewrite !append_nil_l|].
  rewrite !append_cons. intros H. injection H as H. auto.
Qed.

(** X8 (_IdPrependingTreeprocessor.run).  A link into the page keeps
    pointing at its target: when an element of the tree has the non-empty
    identifier [v] and another one links to [#v], then after the run the
    link is [#] followed by the new identifier of the target. *)
Theorem ids_keep_links p (h : Heap) (t : Tree) la lb a b v :
  p ≠ EmptyString → repr h t → NoDup (locs t) →
  la ∈ locs t → lb ∈ locs t →
  h !! la = Some a → h !! lb = Some b →
  attrib a !! "id" = Some v → v ≠ EmptyString →
  attrib b !! "href" = Some ("#" +:+ v) →
  ∃ h' a' b' v',
    (∃ fuel0, ∀ fuel, fuel0 ≤ fuel →
       IdPrepending.run p fuel (root t) h = Done h')
    ∧ h' !! la = Some a' ∧ h' !! lb = Some b'
    ∧ attrib a' !! "id" = Some v'
    ∧ attrib b' !! "href" = Some ("#" +:+ v').
Proof.
  intros Hp Hrepr Hnd Hla Hlb Ha Hb Hid Hv Hhref.
  exists (map_at (IdPrepending.on_element p) (locs t) h),
    (IdPrepending.on_element p a), (IdPrepending.on_element p b), (p +:+ v).
  split; [|split; [|split; [|split]]].
  - destruct (ids_iter p t Hnd h Hrepr) as [fuel0 Hrun].
    exists fuel0. intros fuel Hfuel. unfold IdPrepending.run.
    rewrite decide_False by done. by apply Hrun.
  - by rewrite map_at_in, Ha.
  - by rewrite map_at_in, Hb.
  - rewrite on_element_attrib, Hid. simpl. by destruct v.
  - rewrite on_element_attrib, Hhref. done.
Qed.

Lemma ids_keep_links_witness :
  ∃ h' a' b' v',
    (∃ fuel0, ∀ fuel, fuel0 ≤ fuel →
       IdPrepending.run "exec-0--" fuel 0 linked_store = Done h')
    ∧ h' !! 1 = Some a' ∧ h' !! 2 = Some b'
    ∧ attrib a' !! "id" = Some v'
    ∧ attrib b' !! "href" = Some ("#" +:+ v').
Proof.
  apply (ids_keep_links "exec-0--" linked_store linked_tree 1 2
           (mkElement "h2" {[ "id" := "usage" ]} (Some "Usage") None [])
           (mkElement "a" {[ "href" := "#usage" ]} (Some "see") None [])
           "usage").
  - done.
  - simpl. repeat split; reflexivity.
  - apply (bool_decide_unpack _). vm_compute. exact I.
  - apply (bool_decide_unpack _). vm_compute. exact I.
  - apply (bool_decide_unpack _). vm_compute. exact I.
  - reflexivity.
  - reflexivity.
  - reflexivity.
  - done.
  - reflexivity.
Defined.

(** X9 (_IdPrependingTreeprocessor.run, _MarkdownConverter.convert).  Two
    non-empty identifiers that are prefixed with the tokens of the counter
    values [n] and [m] are equal only if [n = m] and they were equal
    before: identifiers of different conversions never collide, and within
    one conversion distinct identifiers stay distinct. *)
Theorem prefixed_ids_distinct n m e1 e2 v1 v2 :
  attrib e1 !! "id" = Some v1 → attrib e2 !! "id" = Some v2 →
  v1 ≠ EmptyString → v2 ≠ EmptyString →
  n ≠ m ∨ v1 ≠ v2 →
  attrib (IdPrepending.on_element (token n) e1) !! "id"
  ≠ attrib (IdPrepending.on_element (token m) e2) !! "id".
Proof.
  intros H1 H2 Hv1 Hv2 Hne. rewrite !on_element_attrib, H1, H2. simpl.
  destruct v1 as [|c1 v1]; [done|]. destruct v2 as [|c2 v2]; [done|].
  intros Heq. apply (inj Some) in Heq.
  pose proof (token_prefix_free _ _ _ _ Heq) as ->.
  apply append_inv_head in Heq. destruct Hne; done.
Qed.

Lemma prefixed_ids_distinct_witness :
  attrib (IdPrepending.on_element (token 0)
            (mkElement "h1" {[ "id" := "title" ]} None None [])) !! "id"
  ≠ attrib (IdPrepending.on_element (token 1)
              (mkElement "h1" {[ "id" := "title" ]} None None [])) !! "id".
Proof.
  apply (prefixed_ids_distinct 0 1 _ _ "title" "title").
  - reflexivity.
  - reflexivity.
  - done.
  - done.
  - left. done.
Defined.

(** ** The id prefix of every invocation *)

Section Invocations.
Context `{Markupsafe}.

Lemma convert_with_counter f stash c :
  _counter (convert_with f stash c).1
  = _counter (f (convert_enter c).2 (convert_enter c).1).1.
Proof.
  unfold convert_with. destruct (convert_enter c) as [c0 md]. simpl.
  destruct (f md c0) as [c1 [converted|e]]; done.
Qed.

Lemma tokens_app a n m :
  (fun i => Some (token i)) <$> seq a (S (n + m))
  = Some (token a)
      :: ((fun i => Some (token i)) <$> seq (S a) n)
      ++ ((fun i => Some (token i)) <$> seq (S a + n) m).
Proof. simpl. by rewrite seq_app, fmap_app. Qed.

(** The invocations nested in a run get the tokens of the counter values
    from the current one on, one each, and the counter has passed them. *)
Lemma invocations_in_tokens run md c :
  (invocations_in run md c).*1
  = (fun i => Some (token i))
      <$> seq (_counter c) (length (invocations_in run md c))
  ∧ _counter (md_convert run md c).1
    = _counter c + length (invocations_in run md c).
Proof.
  revert md c. induction run as [e|result|sub IHsub stash k IHk]; intros md c.
  - simpl. split; [done|lia].
  - simpl. split; [done|].
    destruct (_md_stack c !! md) as [r|]; [|simpl; lia].
    destruct (result (id_prefix r)) as [html found]. simpl. lia.
  - cbn [invocations_in md_convert].
    pose proof (convert_enter_spec c) as (Hmd & _ & _ & _ & Hc0 & _ & Hp).
    pose proof (convert_with_counter (md_convert sub) stash c) as Hcnt.
    destruct (convert_enter c) as [c0 md0]. cbn [fst snd] in *.
    destruct (IHsub md0 c0) as [Hlog1 Hc1].
    destruct (convert_with (md_convert sub) stash c) as [c1 r]. cbn [fst snd] in *.
    destruct (IHk r md c1) as [Hlog2 Hc2].
    rewrite Hcnt, Hc1, Hc0 in Hlog2, Hc2.
    rewrite fmap_cons, fmap_app, length_cons, length_app, tokens_app.
    simpl. split; [|lia].
    unfold prefix_in_force. subst md0. rewrite Hp. f_equal.
    rewrite Hlog1, Hlog2, Hc0. done.
Qed.

(** A run mints under the prefix that its renderer was given: the
    invocations nested in it leave that prefix alone. *)
Lemma minted_in_force run md c :
  md < _level c → is_Some (_md_stack c !! md) →
  minted run md c = None ∨ minted run md c = Some (prefix_in_force md c).
Proof.
  revert c. induction run as [e|result|sub IHsub stash k IHk]; intros c Hmd Hr.
  - by left.
  - by right.
  - cbn [minted].
    destruct (convert_with_settles (md_convert sub) stash c
                (md_convert_settles sub)) as (Hl & _ & Hkept).
    destruct (convert_with (md_convert sub) stash c) as [c1 r]. cbn [fst snd] in *.
    destruct Hr as [r0 Hr0].
    destruct (Hkept md r0 Hr0) as (r1 & Hr1 & _ & Hp).
    assert (prefix_in_force md c1 = prefix_in_force md c) as <-.
    { unfold prefix_in_force. rewrite Hr0, Hr1. simpl. f_equal. by apply Hp. }
    apply IHk; [lia|by eexists].
Qed.

Lemma invocations_in_minted run md c :
  Forall (fun inv => inv.2 = None ∨ inv.2 = Some inv.1) (invocations_in run md c).
Proof.
  revert md c. induction run as [e|result|sub IHsub stash k IHk]; intros md c.
  - constructor.
  - constructor.
  - cbn [invocations_in].
    pose proof (convert_enter_spec c) as (Hmd & Hl0 & _ & Hlt & _).
    destruct (convert_enter c) as [c0 md0]. cbn [fst snd] in *.
    destruct (convert_with (md_convert sub) stash c) as [c1 r].
    constructor; [|apply Forall_app; split; [apply IHsub|apply IHk]].
    simpl. apply minted_in_force; [lia|].
    apply lookup_lt_is_Some. lia.
Qed.

Lemma invocations_tokens calls c :
  (invocations calls c).*1
  = (fun i => Some (token i))
      <$> seq (_counter c) (length (invocations calls c))
  ∧ _counter (after_calls calls c)
    = _counter c + length (invocations calls c)
  ∧ Forall (fun inv => inv.2 = None ∨ inv.2 = Some inv.1) (invocations calls c).
Proof.
  revert c. induction calls as [|[run stash] calls IH]; intros c.
  - simpl. split; [done|]. split; [lia|constructor].
  - cbn [invocations]. change (after_calls ((run, stash) :: calls) c)
      with (after_calls calls (convert run stash c).1).
    pose proof (convert_enter_spec c) as (Hmd & Hl0 & _ & Hlt & Hc0 & _ & Hp).
    pose proof (convert_with_counter (md_convert run) stash c) as Hcnt.
    fold (convert run stash c) in Hcnt.
    destruct (convert_enter c) as [c0 md0]. cbn [fst snd] in *.
    destruct (invocations_in_tokens run md0 c0) as [Hlog1 Hc1].
    destruct (IH (convert run stash c).1) as (Hlog2 & Hc2 & Hm2).
    rewrite Hcnt, Hc1, Hc0 in Hlog2, Hc2.
    rewrite fmap_cons, fmap_app, length_cons, length_app, tokens_app.
    simpl. split; [|split; [lia|]].
    + unfold prefix_in_force. subst md0. rewrite Hp. f_equal.
      rewrite Hlog1, Hlog2, Hc0. done.
    + constructor; [|apply Forall_app; split; [apply invocations_in_minted|done]].
      simpl. apply minted_in_force; [lia|].
      apply lookup_lt_is_Some. lia.
Qed.

End Invocations.

(** C6. Take any sequence of [convert] calls on a new converter, and all
    the invocations of [convert] that they make, the nested ones included,
    in the order in which they begin. The renderer of the invocation
    number [i] is given the id prefix [exec-i--], the counter counts the
    invocations, and the identifiers of an invocation are minted under the
    prefix it was given, whatever is nested in it. Two invocations have
    different prefixes, and identifiers that carry the prefixes of two
    invocations are different whatever follows the prefix: so are the
    identifiers that the prefixing processor makes of any two non-empty
    ones. *)
Theorem namespace_tokens_distinct `{Markupsafe} calls :
  let log := invocations calls init in
  _counter (after_calls calls init) = length log
  ∧ log.*1 = (fun i => Some (token i)) <$> seq 0 (length log)
  ∧ Forall (fun inv => inv.2 = None ∨ inv.2 = Some inv.1) log
  ∧ ∀ i j p q,
      i ≠ j → log.*1 !! i = Some (Some p) → log.*1 !! j = Some (Some q) →
      p ≠ q
      ∧ (∀ a b, p +:+ a ≠ q +:+ b)
      ∧ ∀ e1 e2 v1 v2,
          attrib e1 !! "id" = Some v1 → attrib e2 !! "id" = Some v2 →
          v1 ≠ EmptyString → v2 ≠ EmptyString →
          attrib (IdPrepending.on_element p e1) !! "id"
          ≠ attrib (IdPrepending.on_element q e2) !! "id".
Proof.
  intros log. destruct (invocations_tokens calls init) as (Hlog & Hcnt & Hminted).
  fold log in Hlog, Hcnt, Hminted. simpl in Hlog, Hcnt.
  split; [done|]. split; [done|]. split; [done|].
  intros i j p q Hij Hi Hj. rewrite Hlog, list_lookup_fmap in Hi, Hj.
  apply fmap_Some in Hi as (n & Hn & Hp), Hj as (m & Hm & Hq).
  apply lookup_seq in Hn as [-> _], Hm as [-> _]. simpl in Hp, Hq.
  apply (inj Some) in Hp, Hq. subst p q.
  assert (∀ a b, token i +:+ a ≠ token j +:+ b) as Hfree.
  { intros a b Heq. by apply token_prefix_free in Heq. }
  split; [|split; [done|]].
  - intros Heq. apply (Hfree EmptyString EmptyString). by rewrite Heq.
  - intros e1 e2 v1 v2 H1 H2 Hv1 Hv2. rewrite !on_element_attrib, H1, H2. simpl.
    destruct v1 as [|c1 v1]; [done|]. destruct v2 as [|c2 v2]; [done|].
    intros Heq. apply (inj Some) in Heq. by apply Hfree in Heq.
Qed.

Lemma namespace_tokens_distinct_witness :
  (invocations example_calls init).*1
  = [Some "exec-0--"; Some "exec-1--"; Some "exec-2--"]
  ∧ "exec-0--" ≠ "exec-1--"
  ∧ "exec-0--" +:+ "title" ≠ "exec-1--" +:+ "title".
Proof.
  destruct (namespace_tokens_distinct example_calls) as (_ & Hlog & _ & Hdiff).
  split; [exact Hlog|].
  destruct (Hdiff 0 1 "exec-0--" "exec-1--") as (Hpq & Hfree & _);
    [lia|reflexivity|reflexivity|].
  split; [exact Hpq|apply Hfree].
Defined.

Lemma preorder_tmap f t : preorder (tmap f t) = f <$> preorder t.
Proof.
  induction t as [l e kids IH] using Tree_ind'.
  change (f e :: flat_map preorder (map (tmap f) kids)
          = f e :: (f <$> flat_map preorder kids)).
  f_equal. induction IH as [|k kids Hk _ IHk]; [done|].
  simpl. by rewrite fmap_app, Hk, IHk.
Qed.

Lemma filter_fmap_tag (f : Element → Element) (P : string → bool) (l : list Element) :
  (∀ e, tag (f e) = tag e) →
  filter (fun e => P (tag e) = true) (f <$> l)
  = f <$> filter (fun e => P (tag e) = true) l.
Proof.
  intros Hf. induction l as [|e l IH]; [done|].
  rewrite fmap_cons, !filter_cons, Hf, IH. by case_decide.
Qed.

Lemma harvest_copy_fields pc (h : Heap) e :
  tag (harvest_copy pc h e) = tag e
  ∧ text (harvest_copy pc h e) = text e
  ∧ tail (harvest_copy pc h e) = tail e
  ∧ attrib (harvest_copy pc h e) = attrib e.
Proof.
  unfold harvest_copy.
  destruct (last (children e) ≫= fun c => h !! c) as [ce|]; [|done].
  by case_decide.
Qed.

(** X10 (_mimic, _IdPrependingTreeprocessor.run,
    _HeadingReportingTreeprocessor.run).  The shadow renderer runs the
    prefixing before the harvesting, so the copies that are harvested carry
    the prefixed identifiers: one copy per heading, in document order, with
    the tag and the text of the heading and its [id] with the prefix. *)
Theorem ids_then_harvest p permalink_class (h : Heap) (t : Tree) (acc : list loc) :
  p ≠ EmptyString → repr h t → NoDup (locs t) →
  ∃ h' copies,
    (∃ fuel0, ∀ fuel, fuel0 ≤ fuel →
       out_bind (IdPrepending.run p fuel (root t) h)
         (fun h1 => HeadingReporting.run permalink_class fuel (root t) (h1, acc))
       = Done (h' ++ copies, acc ++ seq (length h) (length copies)))
    ∧ length h' = length h
    ∧ Forall2 (fun e c => tag c = tag e ∧ text c = text e
                          ∧ attrib c !! "id" = prefixed p (attrib e !! "id"))
        (filter (fun e => HeadingReporting.is_heading_tag (tag e) = true)
           (preorder t))
        copies.
Proof.
  intros Hp Hrepr Hnd.
  set (f := IdPrepending.on_element p).
  set (h' := map_at f (locs t) h).
  assert (repr h' (tmap f t)) as Hrepr'.
  { apply (repr_tmap _ h); [|done|].
    - intros e. apply (on_element_fields p e).
    - intros l Hl. by apply map_at_in. }
  exists h', (harvested permalink_class h' (tmap f t)).
  split; [|split].
  - destruct (ids_iter p t Hnd h Hrepr) as [f1 Hf1].
    destruct (harvest_iter permalink_class h' (tmap f t) Hrepr') as [f2 Hf2].
    exists (f1 `max` f2). intros fuel Hfuel. unfold IdPrepending.run.
    rewrite decide_False by done. rewrite Hf1 by lia. simpl.
    unfold HeadingReporting.run. fold f h'.
    specialize (Hf2 fuel [] acc). rewrite root_tmap, app_nil_r in Hf2.
    simpl in Hf2. rewrite Nat.add_0_r in Hf2.
    rewrite Hf2 by lia. unfold h'. by rewrite map_at_length.
  - apply map_at_length.
  - unfold harvested. rewrite preorder_tmap, filter_fmap_tag.
    + rewrite <-list_fmap_compose. apply Forall2_fmap_r, Forall_Forall2_diag.
      apply Forall_forall. intros e _. simpl.
      destruct (harvest_copy_fields permalink_class h' (f e)) as (-> & -> & _ & ->).
      unfold f.
      destruct (on_element_fields p e) as (-> & -> & _).
      by rewrite on_element_attrib.
    + intros e. apply (on_element_fields p e).
Qed.

Lemma ids_then_harvest_witness :
  ∃ h' copies,
    (∃ fuel0, ∀ fuel, fuel0 ≤ fuel →
       out_bind (IdPrepending.run "exec-0--" fuel 0 linked_store)
         (fun h1 => HeadingReporting.run "headerlink" fuel 0 (h1, []))
       = Done (h' ++ copies, seq 4 (length copies)))
    ∧ Forall2 (fun e c => tag c = tag e ∧ text c = text e
                          ∧ attrib c !! "id" = prefixed "exec-0--" (attrib e !! "id"))
        [mkElement "h2" {[ "id" := "usage" ]} (Some "Usage") None []]
        copies.
Proof.
  destruct (ids_then_harvest "exec-0--" "headerlink" linked_store linked_tree [])
    as (h' & copies & Hrun & _ & Hcopies).
  - done.
  - simpl. repeat split; reflexivity.
  - apply (bool_decide_unpack _). vm_compute. exact I.
  - exists h', copies. split; [exact Hrun|exact Hcopies].
Defined.

(** ** The tree processors of a shadow renderer *)

(** X11 (_mimic).  On the renderer that [_mimic] builds, whenever it has
    the table-of-contents processor at its priority 5, the prefixing of
    identifiers (priority 4) runs after [toc], which gives the headings
    their identifiers, and the harvesting (priority 1) runs after the
    prefixing. *)
Theorem mimic_run_order (treeprocessors : Registry.t) :
  NoDup (Registry.item_name <$> treeprocessors) →
  Registry.mkItem "toc" 5 ∈ treeprocessors →
  runs_in_order "toc" IdPrepending.name HeadingReporting.name
    (Registry.run_order (_mimic_treeprocessors treeprocessors)).
Proof.
  intros Hnd Htoc. unfold Registry.run_order.
  set (reg := _mimic_treeprocessors treeprocessors).
  assert (∀ x, x ∈ reg → Registry.item_name x = "toc" → Registry.priority x = 5%Z)
    as Htoc5.
  { intros x Hx Hn. unfold reg, _mimic_treeprocessors in Hx.
    apply register_elem in Hx as [[Hx _]| ->]; [|done].
    apply register_elem in Hx as [[Hx _]| ->]; [|done].
    apply list_elem_of_lookup_1 in Hx as [i Hi], Htoc as [j Hj].
    assert (i = j) as ->; [|by simplify_eq].
    eapply NoDup_lookup; [exact Hnd| |]; rewrite list_lookup_fmap.
    - by rewrite Hi.
    - by rewrite Hj, Hn. }
  assert (∀ x, x ∈ reg → Registry.item_name x = IdPrepending.name →
               Registry.priority x = 4%Z) as Hids4.
  { intros x Hx Hn. unfold reg, _mimic_treeprocessors in Hx.
    apply register_elem in Hx as [[Hx _]| ->]; [|done].
    apply register_elem in Hx as [[_ Hx]| ->]; done. }
  assert (∀ x, x ∈ reg → Registry.item_name x = HeadingReporting.name →
               Registry.priority x = 1%Z) as Hhead1.
  { intros x Hx Hn. unfold reg, _mimic_treeprocessors in Hx.
    apply register_elem in Hx as [[_ Hx]| ->]; done. }
  assert (∀ n p, Registry.mkItem n p ∈ reg →
                 ∃ i, (Registry.item_name <$> Registry.sort reg) !! i = Some n)
    as Hpos.
  { intros n p Hin. apply sort_elem, list_elem_of_lookup_1 in Hin as [i Hi].
    exists i. by rewrite list_lookup_fmap, Hi. }
  split.
  - destruct (Hpos "toc" 5%Z) as [i Hi].
    { apply register_elem. left. split; [|done].
      apply register_elem. left. by split. }
    destruct (Hpos IdPrepending.name 4%Z) as [j Hj].
    { apply register_elem. left. split; [|done]. apply register_elem. by right. }
    destruct (Hpos HeadingReporting.name 1%Z) as [k Hk].
    { apply register_elem. by right. }
    eauto 10.
  - intros i j k Hi Hj Hk. rewrite list_lookup_fmap in Hi, Hj, Hk.
    destruct (Registry.sort reg !! i) as [x|] eqn:Hx; [|done].
    destruct (Registry.sort reg !! j) as [y|] eqn:Hy; [|done].
    destruct (Registry.sort reg !! k) as [z|] eqn:Hz; [|done].
    simplify_eq/=.
    pose proof (list_elem_of_lookup_2 _ _ _ Hx) as Hx'.
    pose proof (list_elem_of_lookup_2 _ _ _ Hy) as Hy'.
    pose proof (list_elem_of_lookup_2 _ _ _ Hz) as Hz'.
    rewrite sort_elem in Hx', Hy', Hz'.
    split.
    + eapply sorted_positions; [apply sort_sorted|done..|].
      rewrite (Htoc5 x), (Hids4 y) by done. lia.
    + eapply sorted_positions; [apply sort_sorted|done..|].
      rewrite (Hids4 y), (Hhead1 z) by done. lia.
Qed.

Lemma mimic_run_order_witness :
  runs_in_order "toc" IdPrepending.name HeadingReporting.name
    (Registry.run_order (_mimic_treeprocessors host_treeprocessors)).
Proof.
  apply (mimic_run_order host_treeprocessors).
  - apply (bool_decide_unpack _). vm_compute. exact I.
  - apply (bool_decide_unpack _). vm_compute. exact I.
Defined.

(** ** The headings as HTML *)

Lemma html_lines_all (h : Heap) hs es :
  Forall2 (fun l e => h !! l = Some e) hs es →
  Forall (fun e => is_Some (attrib e !! "id")) es →
  ∃ lines, html_lines h hs = Done lines
           ∧ Forall2 (fun e line => html_heading e = Ok line) es lines.
Proof.
  induction 1 as [|l e hs es Hl _ IH]; intros Hall.
  - exists []. split; [done|constructor].
  - apply Forall_cons in Hall as [[v Hv] Hall].
    destruct (IH Hall) as (lines & Hlines & Hrel).
    unfold html_lines; fold html_lines. rewrite Hl.
    unfold html_heading at 1. rewrite Hv, Hlines. simpl.
    eexists. split; [reflexivity|]. constructor; [|done].
    unfold html_heading. by rewrite Hv.
Qed.

Lemma html_lines_missing (h : Heap) hs es :
  Forall2 (fun l e => h !! l = Some e) hs es →
  ¬ Forall (fun e => is_Some (attrib e !! "id")) es →
  html_lines h hs = Raised (KeyError "id").
Proof.
  induction 1 as [|l e hs es Hl _ IH]; intros Hnot.
  - destruct Hnot. constructor.
  - unfold html_lines; fold html_lines. rewrite Hl. unfold html_heading.
    destruct (attrib e !! "id") as [v|] eqn:Hv; [|done].
    rewrite IH; [done|]. intros Hall. apply Hnot. constructor; [by eexists|done].
Qed.

(** X12 (_MarkdownConverter.html_headings, headings).  Reading the
    property formats one line per heading of the accumulator, in order, and
    raises [KeyError] when a heading has no [id]; either way the
    accumulator is handed out and replaced by an empty list, so that
    reading the property again gives the empty string. *)
Theorem html_headings_reads_once (h : Heap) (c : Converter) hs es :
  lists c !! _headings c = Some hs →
  Forall2 (fun l e => h !! l = Some e) hs es →
  let c' := (html_headings h c).1 in
  (Forall (fun e => is_Some (attrib e !! "id")) es →
   ∃ lines, (html_headings h c).2 = Done (join nl lines)
            ∧ Forall2 (fun e line => html_heading e = Ok line) es lines)
  ∧ (¬ Forall (fun e => is_Some (attrib e !! "id")) es →
     (html_headings h c).2 = Raised (KeyError "id"))
  ∧ lists c' !! _headings c = Some hs
  ∧ lists c' !! _headings c' = Some []
  ∧ (html_headings h c').2 = Done EmptyString.
Proof.
  intros Hhs Hes c'.
  assert (html_headings h c
          = (set_headings (length (lists c)) (set_lists (lists c ++ [[]]) c),
             out_bind (html_lines h hs) (fun lines => Done (join nl lines))))
    as Hread.
  { unfold html_headings, headings. simpl.
    by rewrite (lookup_app_l_Some _ _ _ _ Hhs). }
  subst c'. rewrite Hread. simpl.
  split; [|split; [|split; [|split]]].
  - intros Hall. destruct (html_lines_all h hs es Hes Hall) as (lines & -> & Hrel).
    by exists lines.
  - intros Hnot. by rewrite (html_lines_missing h hs es Hes Hnot).
  - by apply lookup_app_l_Some.
  - by rewrite lookup_app_r, Nat.sub_diag.
  - unfold html_headings, headings. simpl.
    rewrite lookup_app_l by (rewrite length_app; simpl; lia).
    by rewrite lookup_app_r, Nat.sub_diag.
Qed.

Lemma html_headings_reads_once_witness :
  let c := mkConverter [] 0 0 0 [[1; 3]] ∅ [] in
  (html_headings fragment_store c).2 = Raised (KeyError "id")
  ∧ (html_headings fragment_store (html_headings fragment_store c).1).2
    = Done EmptyString.
Proof.
  destruct (html_headings_reads_once fragment_store
              (mkConverter [] 0 0 0 [[1; 3]] ∅ []) [1; 3]
              [mkElement "h1" {[ "id" := "exec-0--title" ]} (Some "Title") None [2];
               mkElement "p" ∅ (Some "Body") None []])
    as (_ & Hraise & _ & _ & Hagain).
  - reflexivity.
  - repeat constructor.
  - split; [|exact Hagain]. apply Hraise. intros Hall.
    apply Forall_cons in Hall as [_ Hall]. apply Forall_cons in Hall as [[v Hv] _].
    done.
Defined.

(** A heading without a text is printed with the text [None]. *)
Example html_heading_without_text :
  html_heading (mkElement "h2" {[ "id" := "a" ]} None None [])
  = Ok ("<h2 id=" +:+ dq +:+ "a" +:+ dq +:+ ">None</h2>").
Proof. reflexivity. Qed.

(** ** The console formatter *)

Section ConsoleFacts.

Lemma startswith_slice_2 line :
  startswith "$ " line = true → line = "$ " +:+ slice_from 2 line.
Proof.
  destruct line as [|a [|b line]]; simpl; try done.
  - by case_bool_decide.
  - repeat case_bool_decide; try done. intros _. by subst.
Qed.

(** The prompt put back before the commands gives the prompt lines. *)
Lemma omap_cons_eq {A B} (f : A → option B) x (l : list A) :
  omap f (x :: l) = match f x with Some y => y :: omap f l | None => omap f l end.
Proof. reflexivity. Qed.

Lemma prompt_lines (lines : list string) :
  (fun cmd => "$ " +:+ cmd)
    <$> omap (fun line => if startswith "$ " line
                          then Some (slice_from 2 line) else None) lines
  = filter (fun line => startswith "$ " line = true) lines.
Proof.
  induction lines as [|line lines IH]; [done|].
  rewrite filter_cons, omap_cons_eq.
  destruct (startswith "$ " line) eqn:Hs.
  - rewrite decide_True by done. rewrite fmap_cons, IH.
    by rewrite <-(startswith_slice_2 line Hs).
  - by rewrite decide_False by done.
Qed.

Lemma rstrip_cons_nonspace a s : isspace a = false → rstrip (String a s) ≠ EmptyString.
Proof. intros Ha. simpl. rewrite Ha. by destruct (rstrip s). Qed.

Lemma lstrip_app_nonblank s t :
  lstrip s ≠ EmptyString → lstrip (s +:+ t) = lstrip s +:+ t.
Proof.
  induction s as [|a s IH]; [done|]. rewrite append_cons. simpl.
  destruct (isspace a); [exact IH|]. intros _. by rewrite append_cons.
Qed.

(** A text that is not blank stays so when it is extended. *)
Lemma strip_app_nonblank s t : strip s ≠ EmptyString → strip (s +:+ t) ≠ EmptyString.
Proof.
  unfold strip. intros Hs.
  assert (lstrip s ≠ EmptyString) as Hl by (intros E; by rewrite E in Hs).
  rewrite lstrip_app_nonblank by done.
  pose proof (lstrip_starts_unspaced s) as Hu.
  destruct (lstrip s) as [|a s']; [done|]. rewrite append_cons.
  by apply rstrip_cons_nonspace.
Qed.

Lemma splitlines_line c :
  c ≠ EmptyString →
  forall_chars (fun a => negb (is_linebreak a)) c = true →
  splitlines_keepends c = [c].
Proof.
  induction c as [|a c IH]; [done|]. intros _ Hc. simpl in Hc.
  apply andb_true_iff in Hc as [Ha Hc]. apply negb_true_iff in Ha.
  rewrite splitlines_cons, Ha. destruct c as [|b c]; [done|].
  by rewrite IH.
Qed.

Lemma splitlines_line_end c rest :
  forall_chars (fun a => negb (is_linebreak a)) c = true →
  splitlines_keepends (c +:+ nl +:+ rest)
  = (c +:+ nl) :: splitlines_keepends rest.
Proof.
  induction c as [|a c IH]; intros Hc.
  - rewrite !append_nil_l. unfold nl. rewrite append_cons, append_nil_l.
    rewrite splitlines_cons. simpl. by destruct rest.
  - simpl in Hc. apply andb_true_iff in Hc as [Ha Hc]. apply negb_true_iff in Ha.
    rewrite !append_cons, splitlines_cons, Ha, (IH Hc). done.
Qed.

Lemma indent_commands cmds :
  Forall (fun cmd => strip cmd ≠ EmptyString
                     ∧ forall_chars (fun a => negb (is_linebreak a)) cmd = true) cmds →
  indent (join nl cmds) "$ " = join nl ((fun cmd => "$ " +:+ cmd) <$> cmds).
Proof.
  unfold indent. induction 1 as [|cmd cmds [Hne Hlb] Hall IH]; [done|].
  destruct cmds as [|cmd' cmds].
  - simpl. rewrite splitlines_line; [|by destruct cmd|done]. simpl.
    unfold indent_line. by destruct (strip cmd).
  - rewrite fmap_cons, !join_cons, splitlines_line_end by done.
    cbn [map]. rewrite join_empty_cons, IH.
    unfold indent_line at 1.
    pose proof (strip_app_nonblank cmd nl Hne) as Hne'.
    destruct (strip (cmd +:+ nl)); [done|].
    by rewrite !append_assoc.
Qed.

End ConsoleFacts.

(** X13 (_format_console).  When no command of the session is blank or
    holds a line break other than the line feeds that separate the lines,
    the source handed to [add_source] is the session reduced to its prompt
    lines, in order and with their prompts. *)
Theorem console_source_is_prompt_lines code :
  Forall (fun cmd => strip cmd ≠ EmptyString
                     ∧ forall_chars (fun a => negb (is_linebreak a)) cmd = true)
    (Console.sh_lines code) →
  indent (join nl (Console.sh_lines code)) "$ "
  = join nl (filter (fun line => startswith "$ " line = true) (split LF code)).
Proof.
  intros Hall. rewrite indent_commands by done.
  unfold Console.sh_lines. by rewrite prompt_lines.
Qed.

Lemma console_source_is_prompt_lines_witness :
  indent (join nl (Console.sh_lines
                     ("$ ls" +:+ nl +:+ "a.txt" +:+ nl +:+ "$ pwd" +:+ nl +:+ "/tmp"))) "$ "
  = "$ ls" +:+ nl +:+ "$ pwd".
Proof.
  apply (console_source_is_prompt_lines
           ("$ ls" +:+ nl +:+ "a.txt" +:+ nl +:+ "$ pwd" +:+ nl +:+ "/tmp")).
  repeat constructor; done.
Defined.

(** With a prompt that has no command after it, the line is shown without
    its prompt. *)
Example console_blank_command :
  indent (join nl (Console.sh_lines ("$ ls" +:+ nl +:+ "$ " +:+ nl +:+ "$ pwd"))) "$ "
  = "$ ls" +:+ nl +:+ nl +:+ "$ pwd".
Proof. reflexivity. Qed.

(** X14 (add_source, code_block, tabbed).  Whatever the location, the
    output reaches the assembled text: a text without line breaks that
    occurs in the output occurs in what [add_source] returns, also where
    the output is indented to stand in a tab. *)
Theorem add_source_keeps_text m source location output language tabs extra assembled :
  forall_chars (fun a => negb (is_linebreak a)) m = true →
  add_source source location output language tabs extra = Ok assembled →
  contains m output = true →
  contains m assembled = true.
Proof. apply contains_add_source. Qed.

Lemma add_source_keeps_text_witness :
  contains "b.txt"
    (tabbed [("Source", code_block_text "console" "$ ls" []);
             ("Result", "a.txt" +:+ nl +:+ "b.txt")]) = true.
Proof.
  apply (add_source_keeps_text "b.txt" "$ ls" "tabbed-left"
           ("a.txt" +:+ nl +:+ "b.txt") "console" ("Source", "Result") []).
  - reflexivity.
  - reflexivity.
  - reflexivity.
Defined.



Section ConsoleRuns.
Variable _run_sh : string → Options → Res string.
Variable placeholder : string.
Variable library : string → MdRun.


End ConsoleRuns.



(** The run of the example in full. *)
Example format_console_example :
  (Console._format_console (fun _ _ => Ok "<b>a.txt</b>") "0b5e"
     (fun text => Returns (fun _ => ("<p>" +:+ text +:+ "</p>", [])))
     "$ ls" true "" ("Source", "Result") [] init).2
  = Ok "<p><b>a.txt</b></p>".
Proof. reflexivity. Qed.

(** ** The Insertion transform without an entry in the table *)

Section InsertFailure.
Variable stash : gmap string string.
Variable headings : gmap string (list loc).

Lemma first_missing_app es1 es2 :
  first_missing stash headings (es1 ++ es2)
  = match first_missing stash headings es1 with
    | Some key => Some key
    | None => first_missing stash headings es2
    end.
Proof.
  unfold first_missing. rewrite omap_app.
  by destruct (omap (missing stash headings) es1).
Qed.

Lemma first_missing_none es e key :
  first_missing stash headings es = None → e ∈ es →
  matched stash e = Some key → is_Some (headings !! key).
Proof.
  unfold first_missing. intros Hnone He Hm.
  destruct (omap (missing stash headings) es) as [|x xs] eqn:Ho; [|done].
  destruct (headings !! key) as [hs|] eqn:Hk; [by eexists|].
  assert (key ∈ omap (missing stash headings) es) as Hin.
  { apply list_elem_of_omap. exists e. split; [done|].
    unfold missing. rewrite Hm. simpl. by rewrite Hk. }
  rewrite Ho in Hin. by apply elem_of_nil in Hin.
Qed.

(** The child in which the first missing value is found. *)
Lemma first_missing_kids kids key :
  first_missing stash headings (flat_map preorder kids) = Some key →
  ∃ pre k suf, kids = pre ++ k :: suf
               ∧ first_missing stash headings (flat_map preorder pre) = None
               ∧ first_missing stash headings (preorder k) = Some key.
Proof.
  induction kids as [|k kids IH]; [done|]. simpl. rewrite first_missing_app.
  destruct (first_missing stash headings (preorder k)) as [key'|] eqn:Hk.
  - intros [= ->]. by exists [], k, kids.
  - intros Hrest. destruct (IH Hrest) as (pre & k' & suf & -> & Hpre & Hk').
    exists (k :: pre), k', suf. split; [done|]. split; [|done].
    simpl. by rewrite first_missing_app, Hk.
Qed.

Lemma insert_iter_missing t key :
  ∀ h, repr h t → NoDup (locs t) →
       headings_ok stash headings h (locs t) →
       first_missing stash headings (preorder t) = Some key →
  ∃ fuel0, ∀ fuel, fuel0 ≤ fuel →
    iter id (InsertHeadings.visit (Some stash) headings) fuel (root t) h
    = Raised (KeyError key).
Proof.
  induction t as [l e kids IH] using Tree_ind'. intros h Hrepr Hnd Hok Hfirst.
  pose proof Hrepr as (Hl & Hkids & Hall). apply repr_kids in Hall.
  change (preorder (Node l e kids)) with ([e] ++ flat_map preorder kids) in Hfirst.
  rewrite first_missing_app in Hfirst.
  destruct (first_missing stash headings [e]) as [key'|] eqn:He.
  { injection Hfirst as ->. exists 1. intros [|fuel] Hfuel; [lia|].
    change (root (Node l e kids)) with l. rewrite iter_S.
    unfold InsertHeadings.visit. rewrite Hl.
    unfold first_missing, missing in He. simpl in He. unfold matched in He.
    destruct (text e ≫= fun t => stash !! t) as [k0|]; [|done]. simpl in He.
    destruct (headings !! k0); [done|]. by injection He as ->. }
  rewrite locs_node in Hnd, Hok. apply NoDup_cons in Hnd as [Hlk Hndk].
  assert (∀ k x, k ∈ kids → x ∈ locs k → x < length h ∧ x ≠ l) as Hklocs.
  { intros k x Hk Hx. split.
    - eapply repr_lt; [|exact Hx]. by eapply Forall_forall in Hall.
    - intros ->. apply Hlk, elem_of_flat_map. eauto. }
  destruct (visit_node stash headings h l e kids Hl Hkids)
    as (h1 & e1 & extra & Hvisit & Hl1 & Hkids1 & Hcw1 & Hextra & _).
  { intros k0 Hk0. eapply first_missing_none; [exact He|left|exact Hk0]. }
  destruct (first_missing_kids kids key Hfirst)
    as (pre & k & suf & Hsplit & Hpre & Hk).
  assert (∀ pre1 pre0 hc, kids = pre0 ++ pre1 ++ k :: suf →
            first_missing stash headings (flat_map preorder pre1) = None →
            Forall (repr hc) (pre1 ++ [k]) → hc !! l = Some e1 →
            headings_ok stash headings hc (l :: flat_map locs kids) →
            length h ≤ length hc →
            ∃ fuel0, ∀ fuel, fuel0 ≤ fuel →
              iter_children id (InsertHeadings.visit (Some stash) headings) fuel l
                (length pre0) hc = Raised (KeyError key)) as Hwalk.
  { assert (∀ pre0 suf0 k0, kids = pre0 ++ k0 :: suf0 →
              children e1 !! length pre0 = Some (root k0)) as Hchild.
    { intros pre0 suf0 k0 ->.
      rewrite Hkids1, lookup_app_l, fmap_app, lookup_app_r, length_fmap
        by (rewrite ?length_fmap, ?length_app; simpl; lia).
      by rewrite Nat.sub_diag. }
    induction pre1 as [|k1 pre1 IHpre]; intros pre0 hc Hkd Hrec Hreprs Hlc Hokc Hlen.
    - simpl in Hkd, Hreprs. rewrite Forall_singleton in Hreprs.
      assert (k ∈ kids) as Hkin by (rewrite Hkd; apply elem_of_app; right; left).
      rewrite Hkd in Hndk.
      apply NoDup_flat_map_split in Hndk as (Hndk1 & _ & _).
      destruct (proj1 (Forall_forall _ _) IH k Hkin hc Hreprs Hndk1) as [f1 Hf1].
      { eapply headings_ok_sub; [exact Hokc|]. intros x Hx. right.
        apply elem_of_flat_map. eauto. }
      { exact Hk. }
      exists (S f1). intros [|fuel] Hfuel; [lia|]. rewrite iter_children_S. simpl.
      rewrite Hlc, (Hchild pre0 suf k Hkd), Hf1 by lia. done.
    - simpl in Hkd, Hrec. rewrite first_missing_app in Hrec.
      destruct (first_missing stash headings (preorder k1)) eqn:Hk1; [done|].
      assert (k1 ∈ kids) as Hk1in by (rewrite Hkd; apply elem_of_app; right; left).
      pose proof Hndk as Hndk'. rewrite Hkd in Hndk'.
      apply NoDup_flat_map_split in Hndk' as (Hndk1 & _ & Hdisj).
      apply Forall_cons in Hreprs as [Hreprk Hreprs].
      destruct (insert_iter stash headings k1 hc Hreprk Hndk1)
        as (f1 & h2 & Hrun1 & _ & Hcw2).
      { intros e' key' He' Hm'. exact (first_missing_none _ e' key' Hk1 He' Hm'). }
      { eapply headings_ok_sub; [exact Hokc|]. intros x Hx. right.
        apply elem_of_flat_map. eauto. }
      destruct (IHpre (pre0 ++ [k1]) h2) as [f2 Hf2].
      + by rewrite <-app_assoc.
      + exact Hrec.
      + apply Forall_forall. intros k' Hk'.
        eapply repr_frame; [|exact Hcw2|].
        * by eapply Forall_forall in Hreprs.
        * intros x Hx Hxk. apply (Hdisj x Hxk). apply elem_of_flat_map.
          exists k'. split; [|done].
          apply elem_of_app in Hk' as [Hk'|Hk'].
          -- apply elem_of_app. by left.
          -- apply list_elem_of_singleton in Hk' as ->.
             apply elem_of_app. right. left.
      + destruct Hcw2 as [_ Hcw2]. apply Hcw2; [done|].
        intros Hlk'. by destruct (Hklocs k1 l Hk1in Hlk').
      + eapply headings_ok_frame; [exact Hokc|exact Hcw2|].
        intros x Hx. right. apply elem_of_flat_map. eauto.
      + destruct Hcw2 as [? _]. lia.
      + exists (S (f1 `max` f2)). intros [|fuel] Hfuel; [lia|].
        rewrite iter_children_S. simpl.
        rewrite Hlc, (Hchild pre0 (pre1 ++ k :: suf) k1 Hkd), Hrun1 by lia.
        simpl.
        replace (S (length pre0)) with (length (pre0 ++ [k1]))
          by (rewrite length_app; simpl; lia).
        apply Hf2. lia. }
  destruct (Hwalk pre [] h1) as [f0 Hf0]; try done.
  { apply Forall_forall. intros k' Hk'.
    assert (k' ∈ kids) as Hin.
    { rewrite Hsplit. apply elem_of_app in Hk' as [Hk'|Hk'].
      - apply elem_of_app. by left.
      - apply list_elem_of_singleton in Hk' as ->. apply elem_of_app. right. left. }
    eapply repr_frame; [|exact Hcw1|].
    - by eapply Forall_forall in Hall.
    - intros x Hx Hxl. apply list_elem_of_singleton in Hxl as ->.
      by destruct (Hklocs k' l Hin Hx). }
  { eapply headings_ok_frame; [exact Hok|exact Hcw1|].
    intros x Hx. apply list_elem_of_singleton in Hx as ->. left. }
  { by destruct Hcw1. }
  exists (S f0). intros [|fuel] Hfuel; [lia|]. change (root (Node l e kids)) with l.
  rewrite iter_S, Hvisit. simpl. apply Hf0. lia.
Qed.

End InsertFailure.

(** X17 (InsertHeadings.run).  On a host that has an attribute [stash], a
    mapping: with a table that is not empty, when some element of the tree
    has a text that the stash maps to a value for which the table has no
    entry, the transform raises [KeyError] with the first such value in
    document order. *)
Theorem insert_missing_key stash headings (h : Heap) (t : Tree) key :
  headings ≠ ∅ →
  repr h t → NoDup (locs t) →
  headings_ok stash headings h (locs t) →
  first_missing stash headings (preorder t) = Some key →
  ∃ fuel0, ∀ fuel, fuel0 ≤ fuel →
    InsertHeadings.run (Some stash) headings fuel (root t) h = Raised (KeyError key).
Proof.
  intros Hne Hrepr Hnd Hok Hfirst.
  destruct (insert_iter_missing stash headings t key h Hrepr Hnd Hok Hfirst)
    as [fuel0 Hrun].
  exists fuel0. intros fuel Hfuel. unfold InsertHeadings.run.
  rewrite decide_False by done. by apply Hrun.
Qed.

Lemma insert_missing_key_witness :
  ∃ fuel0, ∀ fuel, fuel0 ≤ fuel →
    InsertHeadings.run (Some host_stash) {[ "<p>other</p>" := [2] ]} fuel 0 host_store
    = Raised (KeyError "<p>out</p>").
Proof.
  apply (insert_missing_key host_stash {[ "<p>other</p>" := [2] ]}
           host_store host_tree "<p>out</p>").
  - intros Hempty. apply (f_equal (fun m => m !! "<p>other</p>")) in Hempty.
    by rewrite lookup_singleton_eq, lookup_empty in Hempty.
  - simpl. repeat split; reflexivity.
  - apply (bool_decide_unpack _). vm_compute. exact I.
  - intros key hs hl Hhs Hhl.
    apply lookup_singleton_Some in Hhs as [<- <-].
    apply list_elem_of_singleton in Hhl as ->.
    exists (Node 2 (mkElement "h1" {[ "id" := "exec-0--title" ]} (Some "Title") None []) []).
    split; [done|]. split; [simpl; repeat split; reflexivity|]. split.
    + repeat constructor.
    + intros l Hl Hl'. apply list_elem_of_In in Hl, Hl'. simpl in *. lia.
  - vm_compute. reflexivity.
Defined.

(** ** The other tree processors of the host *)

Section RegistryKeeps.
Import Registry.

Lemma insert_head (it : Item) (l : list Item) :
  Forall (fun x => (priority x ≤ priority it)%Z) l → insert it l = it :: l.
Proof.
  destruct 1 as [|x l Hx _]; [done|]. simpl.
  destruct (_ || _) eqn:Hcmp; [done|].
  apply orb_false_iff in Hcmp as [H1 H2]. lia.
Qed.

Lemma filter_insert (P : Item → Prop) `{∀ x, Decision (P x)} (it : Item) (l : list Item) :
  StronglySorted ge_priority l →
  filter P (insert it l)
  = if decide (P it) then insert it (filter P l) else filter P l.
Proof.
  induction 1 as [|x l Hl IH Hx]; simpl.
  - rewrite filter_cons, filter_nil. by case_decide.
  - destruct (_ || _) eqn:Hcmp.
    + rewrite filter_cons. case_decide as Hit; [|done].
      rewrite insert_head; [done|].
      apply Forall_forall. intros y Hy.
      apply list_elem_of_filter in Hy as [_ Hy].
      apply elem_of_cons in Hy as [->|Hy]; [lia|].
      eapply Forall_forall in Hx; [|exact Hy]. unfold ge_priority in Hx. lia.
    + apply orb_false_iff in Hcmp as [H1 H2].
      rewrite !filter_cons, IH. case_decide as Hpx; case_decide as Hit; try done.
      simpl. by rewrite H1, H2.
Qed.

Lemma filter_sort (P : Item → Prop) `{∀ x, Decision (P x)} (reg : list Item) :
  filter P (sort reg) = sort (filter P reg).
Proof.
  induction reg as [|x reg IH]; [done|].
  change (sort (x :: reg)) with (insert x (sort reg)).
  rewrite filter_insert by apply sort_sorted.
  rewrite filter_cons, IH. by case_decide.
Qed.

Lemma filter_register (P : Item → Prop) `{∀ x, Decision (P x)} name p (reg : list Item) :
  (∀ x, P x → item_name x ≠ name) →
  filter P (register name p reg) = filter P reg.
Proof.
  intros HP. unfold register, t. rewrite filter_app, filter_cons, filter_nil.
  rewrite decide_False by (intros Hx; by apply HP in Hx).
  rewrite app_nil_r, list_filter_filter. apply list_filter_iff.
  intros x. split; [tauto|]. intros Hx. split; [done|by apply HP].
Qed.

Lemma filter_names (Q : string → Prop) `{∀ n, Decision (Q n)} (l : list Item) :
  filter Q (item_name <$> l) = item_name <$> filter (fun x => Q (item_name x)) l.
Proof.
  induction l as [|x l IH]; [done|].
  rewrite fmap_cons, !filter_cons, IH. by case_decide.
Qed.

End RegistryKeeps.

(** X18 (MarkdownExecExtension.extendMarkdown, _mimic).  Registering the
    two transforms takes nothing from the other tree processors: those
    registered under other names run as before, in the same order; the
    same holds for the two processors that [_mimic] registers. *)
Theorem extendMarkdown_keeps_others (treeprocessors : Registry.t) :
  filter (fun n => n ∉ [InsertHeadings.name; RemoveHeadings.name])
    (Registry.run_order (extendMarkdown treeprocessors))
  = filter (fun n => n ∉ [InsertHeadings.name; RemoveHeadings.name])
      (Registry.run_order treeprocessors)
  ∧ filter (fun n => n ∉ [IdPrepending.name; HeadingReporting.name])
      (Registry.run_order (_mimic_treeprocessors treeprocessors))
    = filter (fun n => n ∉ [IdPrepending.name; HeadingReporting.name])
        (Registry.run_order treeprocessors).
Proof.
  unfold Registry.run_order, extendMarkdown, _mimic_treeprocessors, Registry.t.
  split.
  - rewrite !filter_names, !filter_sort.
    rewrite !filter_register; [done| |].
    + intros x Hx Heq. apply Hx. rewrite Heq. left.
    + intros x Hx Heq. apply Hx. rewrite Heq. right. left.
  - rewrite !filter_names, !filter_sort.
    rewrite !filter_register; [done| |].
    + intros x Hx Heq. apply Hx. rewrite Heq. left.
    + intros x Hx Heq. apply Hx. rewrite Heq. right. left.
Qed.

(** On the host of the example. *)
Example extendMarkdown_keeps_host :
  filter (fun n => n ∉ [InsertHeadings.name; RemoveHeadings.name])
    (Registry.run_order (extendMarkdown host_treeprocessors))
  = ["inline"; "prettify"; "toc"; "unescape"].
Proof. reflexivity. Qed.

(** ** Stash entries without special characters *)

Lemma escape_plain s : plain s = true → escape s = s.
Proof.
  induction s as [|c s IH]; [done|]. unfold plain. cbn [forall_chars escape].
  intros H. apply andb_true_iff in H as [Hc Hs].
  apply negb_true_iff in Hc. unfold needs_escape in Hc.
  apply orb_false_iff in Hc as [Hc H5]. apply orb_false_iff in Hc as [Hc H4].
  apply orb_false_iff in Hc as [Hc H3]. apply orb_false_iff in Hc as [H1 H2].
  rewrite H1, H2, H3, H4, H5, (IH Hs). done.
Qed.

(** X19 (_MarkdownConverter.convert).  The entries of the stash are put
    back one after the other, in insertion order; the first one literally,
    and a later one literally as well when neither its placeholder nor its
    content holds a character that is escaped in HTML. *)
Theorem restore_stash_plain `{Markupsafe} html items :
  Forall (fun item => plain item.1 = true ∧ plain item.2 = true) (drop 1 items) →
  restore_stash html false items
  = foldl (fun converted item => replace converted item.1 item.2) html items.
Proof.
  assert (∀ rest converted,
            Forall (fun item => plain item.1 = true ∧ plain item.2 = true) rest →
            restore_stash converted true rest
            = foldl (fun converted item => replace converted item.1 item.2)
                converted rest) as Hrest.
  { induction rest as [|[p v] rest IH]; intros converted Hall; [done|].
    apply Forall_cons in Hall as [[Hp Hv] Hall]. simpl in *.
    unfold Markup_replace, searched. rewrite (escape_plain v Hv).
    destruct escapes_searched; rewrite ?(escape_plain p Hp); by apply IH. }
  destruct items as [|[p v] rest]; [done|]. simpl. intros Hall. by apply Hrest.
Qed.

Lemma restore_stash_plain_witness :
  restore_stash "<p>k1 k2</p>" false [("k1", "<b>x</b>"); ("k2", "y")]
  = "<p><b>x</b> y</p>".
Proof.
  rewrite (restore_stash_plain "<p>k1 k2</p>" [("k1", "<b>x</b>"); ("k2", "y")]).
  - reflexivity.
  - repeat constructor.
Defined.
